(** * removarr: eligibility, reconciliation and deletion, verified against the Go sources

    The development follows the services of [internal/services]:
    - [Eligibility]  : [EligibilityService.CheckEligibility] and
                       [checkTorrentEligibility];
    - [TorrentSync]  : the media-item link resolution of
                       [TorrentSyncService.SyncFromQBittorrent];
    - [MediaSync]    : [MediaSyncService.SyncFromSonarr] / [SyncFromRadarr];
    - [Deletion]     : [DeletionService.DeleteMediaItem].

    The relational store is an explicit value ([Store.DB]) threaded through
    the services; a table is the list of its rows in the order the store
    scans them.  Go [int]/[int64] are [Z] (the code only compares and copies
    them), Go strings are [string], a nullable column or a Go pointer is an
    [option]. *)

From Stdlib Require Import ZArith List String Ascii Bool Lia DecimalString.
Import ListNotations.

Local Open Scope string_scope.
Local Open Scope Z_scope.

(* ------------------------------------------------------------------ *)
(** ** Go's [fmt] verbs used by the services *)

Module Fmt.

(** [%d] on an integer. *)
Definition d (z : Z) : string := NilEmpty.string_of_int (Z.to_int z).

Definition digit2 (z : Z) : string :=
  (if z <? 10 then "0" else "") ++ d z.

(** [%.2f] on a value of a [DECIMAL(10,2)] column.  Such a value is an
    exact number of hundredths; it is held as that integer, which the
    [float64] the code scans it into orders and prints identically. *)
Definition f2 (h : Z) : string :=
  (if h <? 0 then "-" else "") ++
  d (Z.abs h / 100) ++ "." ++ digit2 (Z.abs h mod 100).

(** [strings.Join]-like helper and [%v] on a [[]string]: [[a b c]]. *)
Fixpoint join (sep : string) (l : list string) : string :=
  match l with
  | [] => ""
  | [x] => x
  | x :: rest => x ++ sep ++ join sep rest
  end.

Definition v (l : list string) : string := "[" ++ join " " l ++ "]".

End Fmt.

(* ------------------------------------------------------------------ *)
(** ** The relational store ([migrations/000001_initial.up.sql])

    The tables the three engines read and write: [media_items], [torrents]
    and [audit_logs].  ([users], [settings], [seeding_overrides] and
    [tautulli_history] are not touched by the code below.) *)

Module Store.

(** A [TIMESTAMP] value: the calendar fields the driver keeps of a
    [time.Time] (the zone is discarded on the way in), with the fraction of
    the second in nanoseconds as Go holds it. *)
Record Timestamp := mkTimestamp {
  ts_year : Z; ts_month : Z; ts_day : Z;
  ts_hour : Z; ts_minute : Z; ts_second : Z; ts_nanos : Z
}.

(** Row of [media_items].  [file_path] and [file_size] are nullable in
    the schema, but every writer of the table (the two manager syncs)
    binds a Go [string] / [int64] to them, so they are held as such. *)
Record MediaRow := mkMediaRow {
  mi_id : Z;
  mi_title : string;
  mi_type : string;
  mi_tmdb_id : option Z;
  mi_tvdb_id : option Z;
  mi_sonarr_id : option Z;
  mi_radarr_id : option Z;
  mi_overseerr_request_id : option Z;
  mi_requested_by_user_id : option Z;
  mi_file_path : string;
  mi_file_size : Z;
  mi_added_date : option Timestamp;
  mi_last_synced_at : Z;
  mi_created_at : Z;
  mi_updated_at : Z
}.

(** Row of [torrents].  The statistics columns are written by the torrent
    sync from Go [int64] / [float64] / [bool] values and are never NULL;
    [ratio] and [seeding_required_ratio] are [DECIMAL(10,2)], held in
    hundredths. *)
Record TorrentRow := mkTorrentRow {
  tr_media_item_id : option Z;
  tr_hash : string;
  tr_tracker_id : option Z;
  tr_tracker_name : option string;
  tr_tracker_type : option string;
  tr_seeding_time_seconds : Z;
  tr_ratio : Z;
  tr_seeding_required_seconds : option Z;
  tr_seeding_required_ratio : option Z;
  tr_is_seeding : bool
}.

(** Row of [audit_logs]; [details] is [JSONB], held as its text. *)
Record AuditRow := mkAuditRow {
  al_id : Z;
  al_user_id : option Z;
  al_action : string;
  al_media_item_id : option Z;
  al_media_title : string;
  al_media_type : string;
  al_details : string
}.

Record DB := mkDB {
  media_items : list MediaRow;
  media_items_seq : Z;          (* next value of the SERIAL sequence *)
  torrents : list TorrentRow;
  audit_logs : list AuditRow;
  audit_logs_seq : Z
}.

Definition opt_eqb (a : option Z) (b : Z) : bool :=
  match a with Some x => x =? b | None => false end.

(** [SELECT ... FROM media_items WHERE id = $1] (QueryRow: first row). *)
Definition media_by_id (db : DB) (id : Z) : option MediaRow :=
  find (fun r => mi_id r =? id) (media_items db).

(** [SELECT ... FROM torrents WHERE media_item_id = $1]. *)
Definition torrents_of (db : DB) (id : Z) : list TorrentRow :=
  filter (fun t => opt_eqb (tr_media_item_id t) id) (torrents db).

End Store.

(* ------------------------------------------------------------------ *)
(** ** Eligibility engine *)

Module Eligibility.
Import Store.

(** The anonymous struct the rows are scanned into. *)
Record Torrent := mkTorrent {
  Hash : string;
  TrackerID : option Z;
  TrackerName : option string;
  TrackerType : option string;
  SeedingTime : Z;
  Ratio : Z;
  RequiredTime : option Z;
  RequiredRatio : option Z;
  IsSeeding : bool
}.

Record EligibilityStatus := mkStatus {
  st_IsEligible : bool;
  st_Reason : string;
  st_SeedingTime : Z;
  st_RequiredTime : option Z;
  st_SeedingRatio : Z;
  st_RequiredRatio : option Z;
  st_TrackerType : string;
  st_IsSeeding : bool;
  st_LastWatched : option Z;
  st_PlayCount : Z
}.

Definition reason_time (t : Torrent) (req : Z) : string :=
  "Seeding time " ++ Fmt.d (SeedingTime t) ++ "s < required " ++ Fmt.d req ++ "s".

Definition reason_ratio (t : Torrent) (req : Z) : string :=
  "Ratio " ++ Fmt.f2 (Ratio t) ++ " < required " ++ Fmt.f2 req.

Definition is_public (t : Torrent) : bool :=
  match TrackerType t with
  | Some ty => String.eqb ty "public"
  | None => false
  end.

(** [X != nil && a < *X], with the reason the code returns for it. *)
Definition time_short (t : Torrent) : option (bool * string) :=
  match RequiredTime t with
  | Some req => if SeedingTime t <? req then Some (false, reason_time t req) else None
  | None => None
  end.

Definition ratio_short (t : Torrent) : option (bool * string) :=
  match RequiredRatio t with
  | Some req => if Ratio t <? req then Some (false, reason_ratio t req) else None
  | None => None
  end.

Definition is_some {A} (o : option A) : bool :=
  match o with Some _ => true | None => false end.

(** An early [return]: the first [Some] met is the function's result. *)
Definition returning {A} (r : option A) (k : A) : A :=
  match r with Some x => x | None => k end.

Notation "'return?' r ';;' k" := (returning r k)
  (at level 61, r at next level, right associativity).

Definition checkTorrentEligibility (t : Torrent) : bool * string :=
  if is_public t then
    return? (if is_some (RequiredTime t) || is_some (RequiredRatio t)
             then match time_short t with
                  | Some r => Some r
                  | None => ratio_short t
                  end
             else None) ;;
    (true, "Public tracker - eligible")
  else
    return? (match RequiredTime t with
             | Some _ => time_short t
             | None => Some (false, "Infinite seeding time required")
             end) ;;
    return? (ratio_short t) ;;
    return? (if negb (IsSeeding t)
             then Some (false, "Torrent is not currently seeding")
             else None) ;;
    (true, "All requirements met").

(** The row-to-struct copy of the scan loop. *)
Definition scan (r : TorrentRow) : Torrent :=
  {| Hash := tr_hash r;
     TrackerID := tr_tracker_id r;
     TrackerName := tr_tracker_name r;
     TrackerType := tr_tracker_type r;
     SeedingTime := tr_seeding_time_seconds r;
     Ratio := tr_ratio r;
     RequiredTime := tr_seeding_required_seconds r;
     RequiredRatio := tr_seeding_required_ratio r;
     IsSeeding := tr_is_seeding r |}.

(** The [for _, torrent := range torrents] loop with its [break]:
    [None] when every torrent passed, else the reason of the torrent the
    loop stopped at. *)
Fixpoint first_failure (ts : list Torrent) : option string :=
  match ts with
  | [] => None
  | t :: rest =>
      let '(ok, reason) := checkTorrentEligibility t in
      if negb ok then Some reason else first_failure rest
  end.

Inductive result :=
| Ok (status : EligibilityStatus)
| Err (msg : string).

Definition CheckEligibility (db : DB) (mediaItemID : Z) : result :=
  match media_by_id db mediaItemID with
  | None => Err "media item not found: sql: no rows in result set"
  | Some _ =>
      let ts := map scan (torrents_of db mediaItemID) in
      match ts with
      | [] =>
          Ok {| st_IsEligible := false;
                st_Reason := "No torrents found for this media item";
                st_SeedingTime := 0; st_RequiredTime := None;
                st_SeedingRatio := 0; st_RequiredRatio := None;
                st_TrackerType := ""; st_IsSeeding := false;
                st_LastWatched := None; st_PlayCount := 0 |}
      | t0 :: _ =>
          let failure := first_failure ts in
          let allEligible := match failure with None => true | Some _ => false end in
          Ok {| st_IsEligible := allEligible;
                st_Reason := match failure with
                             | None => "All seeding requirements met"
                             | Some reason => reason
                             end;
                st_SeedingTime := SeedingTime t0;
                st_RequiredTime := RequiredTime t0;
                st_SeedingRatio := Ratio t0;
                st_RequiredRatio := RequiredRatio t0;
                st_TrackerType := match TrackerType t0 with
                                  | Some ty => ty
                                  | None => "unknown"
                                  end;
                st_IsSeeding := IsSeeding t0;
                st_LastWatched := None; st_PlayCount := 0 |}
      end
  end.

(** A linked row passes the per-torrent check. *)
Definition passes (r : TorrentRow) : Prop :=
  fst (checkTorrentEligibility (scan r)) = true.

(** The same torrent in another seeding state. *)
Definition with_IsSeeding (t : Torrent) (b : bool) : Torrent :=
  {| Hash := Hash t; TrackerID := TrackerID t; TrackerName := TrackerName t;
     TrackerType := TrackerType t; SeedingTime := SeedingTime t; Ratio := Ratio t;
     RequiredTime := RequiredTime t; RequiredRatio := RequiredRatio t;
     IsSeeding := b |}.
End Eligibility.

(* ------------------------------------------------------------------ *)
(** ** Torrent sync: resolving the media item of a torrent *)

Module TorrentSync.
Import Store.

(** A torrent as the torrent client lists it.  The resolution below reads
    [ContentPath] and [Name] only; [Ratio], a [float64], is held in
    hundredths as the store keeps it. *)
Record QBittorrentTorrent := mkQBittorrentTorrent {
  q_Hash : string;
  q_Name : string;
  q_State : string;
  q_SeedingTime : Z;
  q_Uploaded : Z;
  q_Downloaded : Z;
  q_Ratio : Z;
  q_AddedOn : Z;
  q_Tracker : string;
  q_ContentPath : string
}.

(** *** The SQL operators of the matching queries *)

(** Text is UTF-8, in the store and in the strings bound to the queries: a
    character is a byte together with the continuation bytes (of the form
    [10xxxxxx]) that follow it. *)
Definition is_continuation (c : ascii) : bool :=
  match c with
  | Ascii _ _ _ _ _ _ false true => true
  | _ => false
  end.

(** What is left of [s] after the bytes that continue a character. *)
Fixpoint skip_continuation (s : string) : string :=
  match s with
  | EmptyString => s
  | String c s' => if is_continuation c then skip_continuation s' else s
  end.

(** [m] holds of [s], or of what is left of [s] after one or more of its
    characters.  With [inside] set, the continuation bytes at the head of
    [s] belong to the character that was just left. *)
Fixpoint any_suffix (m : string -> bool) (s : string) (inside : bool) : bool :=
  match s with
  | EmptyString => m s
  | String c s' =>
      if inside && is_continuation c then any_suffix m s' true
      else m s || any_suffix m s' true
  end.

(** [s LIKE p]: [%] matches any run of characters, [_] any one character,
    a backslash makes the next pattern character literal.  (A pattern that
    ends in a lone backslash is an error in the store; the queries below
    always append [%], so that case does not arise.) *)
Fixpoint like (p s : string) {struct p} : bool :=
  match p with
  | EmptyString => match s with EmptyString => true | String _ _ => false end
  | String c p' =>
      if Ascii.eqb c "%" then any_suffix (like p') s false
      else if Ascii.eqb c "_" then
        match s with
        | EmptyString => false
        | String _ s' => like p' (skip_continuation s')
        end
      else if Ascii.eqb c "\" then
        match p' with
        | EmptyString => false
        | String e p'' =>
            match s with
            | EmptyString => false
            | String x s' => Ascii.eqb e x && like p'' s'
            end
        end
      else
        match s with
        | EmptyString => false
        | String x s' => Ascii.eqb c x && like p' s'
        end
  end.

(** [string_to_array(s, ' ')] on a non-empty [s]. *)
Fixpoint string_to_array (s : string) : list string :=
  match s with
  | EmptyString => [EmptyString]
  | String c s' =>
      if Ascii.eqb c " " then EmptyString :: string_to_array s'
      else match string_to_array s' with
           | w :: ws => String c w :: ws
           | [] => [String c EmptyString]
           end
  end.

Definition any_eq (x : string) (l : list string) : bool :=
  existsb (String.eqb x) l.

Definition nonempty (s : string) : bool := negb (String.eqb s "").

(** [LENGTH(s)]: the number of characters of [s], not of its bytes. *)
Fixpoint characters (s : string) : nat :=
  match s with
  | EmptyString => O
  | String c s' => if is_continuation c then characters s' else S (characters s')
  end.

Definition LENGTH (s : string) : Z := Z.of_nat (characters s).

(** [ORDER BY ... LIMIT 1]: the first row, in scan order, that no other
    row precedes in the ordering. *)
Definition first_min {A} (lt : A -> A -> bool) (l : list A) : option A :=
  match l with
  | [] => None
  | x :: rest => Some (fold_left (fun best y => if lt y best then y else best) rest x)
  end.

(** Lexicographic order on the two [ORDER BY] keys. *)
Definition lex_lt (k1 k2 : Z * Z) : bool :=
  (fst k1 <? fst k2) || ((fst k1 =? fst k2) && (snd k1 <? snd k2)).

Definition select_id (rows : option MediaRow) : option Z := option_map mi_id rows.

(** *** The five queries, as written in [SyncFromQBittorrent] *)

(** Strategy 1: [WHERE file_path = $1 LIMIT 1]. *)
Definition query_exact (db : DB) (cp : string) : option Z :=
  select_id (find (fun r => String.eqb (mi_file_path r) cp) (media_items db)).

(** Strategy 2: [WHERE file_path LIKE $1 || '%' AND file_path != '' LIMIT 1]. *)
Definition query_file_like_content (db : DB) (cp : string) : option Z :=
  select_id (find (fun r => like (cp ++ "%") (mi_file_path r) && nonempty (mi_file_path r))
               (media_items db)).

(** Strategy 3: [WHERE $1 LIKE file_path || '%' AND file_path != '' LIMIT 1]. *)
Definition query_content_like_file (db : DB) (cp : string) : option Z :=
  select_id (find (fun r => like (mi_file_path r ++ "%") cp && nonempty (mi_file_path r))
               (media_items db)).

(** Strategy 4: [WHERE file_path LIKE '%' || $1 || '%' AND file_path != '']
    [ORDER BY CASE WHEN file_path LIKE $1 || '%' THEN 1 ELSE 2 END,
    LENGTH(file_path) ASC LIMIT 1]. *)
Definition contains_key (cp : string) (r : MediaRow) : Z * Z :=
  (if like (cp ++ "%") (mi_file_path r) then 1 else 2, LENGTH (mi_file_path r)).

Definition query_contains (db : DB) (cp : string) : option Z :=
  select_id
    (first_min (fun a b => lex_lt (contains_key cp a) (contains_key cp b))
       (filter (fun r => like ("%" ++ cp ++ "%") (mi_file_path r) && nonempty (mi_file_path r))
          (media_items db))).

(** Last resort: [WHERE title = ANY(string_to_array($1, ' '))]
    [OR $1 LIKE '%' || title || '%']
    [ORDER BY CASE WHEN title = ANY(string_to_array($1, ' ')) THEN 1 ELSE 2 END LIMIT 1]. *)
Definition name_rank (name : string) (r : MediaRow) : Z :=
  if any_eq (mi_title r) (string_to_array name) then 1 else 2.

Definition query_name (db : DB) (name : string) : option Z :=
  select_id
    (first_min (fun a b => name_rank name a <? name_rank name b)
       (filter (fun r => any_eq (mi_title r) (string_to_array name)
                         || like ("%" ++ mi_title r ++ "%") name)
          (media_items db))).

(** *** The resolution itself (the head of the per-torrent loop body)

    A query result is [Some id] for a scanned row and [None] for
    [sql.ErrNoRows]; the value returned is [mediaItemID] ([None] when not
    [Valid]). *)
Definition resolveMediaItem (db : DB) (t : QBittorrentTorrent) : option Z :=
  let cp := q_ContentPath t in
  let mediaItemID :=
    if nonempty cp then
      match query_exact db cp with
      | Some id => Some id
      | None =>
          match query_file_like_content db cp with
          | Some id => Some id
          | None =>
              match query_content_like_file db cp with
              | Some id => Some id
              | None => query_contains db cp
              end
          end
      end
    else None in
  match mediaItemID with
  | Some id => Some id
  | None => if nonempty (q_Name t) then query_name db (q_Name t) else None
  end.

(** *** The fallback order in the words of the specification

    Strategies are tried in order and the first hit wins:
    (1) exact equality, (2) the local path is a prefix of the content
    path, (3) the content path is a prefix of the local path,
    (4) containment, shortest local path first, (5) the name query. *)
(** [needle] occurs in [hay], from one of its characters on. *)
Definition contains (needle hay : string) : bool :=
  any_suffix (String.prefix needle) hay false.

Fixpoint first_hit (strategies : list (option Z)) : option Z :=
  match strategies with
  | [] => None
  | Some id :: _ => Some id
  | None :: rest => first_hit rest
  end.

Definition local_is_prefix_of_content (db : DB) (cp : string) : option Z :=
  select_id (find (fun r => String.prefix (mi_file_path r) cp && nonempty (mi_file_path r))
               (media_items db)).

Definition content_is_prefix_of_local (db : DB) (cp : string) : option Z :=
  select_id (find (fun r => String.prefix cp (mi_file_path r) && nonempty (mi_file_path r))
               (media_items db)).

Definition contained_shortest_first (db : DB) (cp : string) : option Z :=
  select_id
    (first_min (fun a b => LENGTH (mi_file_path a) <? LENGTH (mi_file_path b))
       (filter (fun r => contains cp (mi_file_path r) && nonempty (mi_file_path r))
          (media_items db))).

Definition title_in_name (db : DB) (name : string) : option Z :=
  select_id
    (first_min (fun a b => name_rank name a <? name_rank name b)
       (filter (fun r => any_eq (mi_title r) (string_to_array name)
                         || contains (mi_title r) name)
          (media_items db))).

Definition by_path (db : DB) (cp : string) (strategies : list (option Z)) : list (option Z) :=
  if nonempty cp then strategies else [].

Definition by_name (db : DB) (name : string) : list (option Z) :=
  if nonempty name then [title_in_name db name] else [].

(** The order as the specification gives it. *)
Definition resolve_as_specified (db : DB) (t : QBittorrentTorrent) : option Z :=
  let cp := q_ContentPath t in
  first_hit
    (by_path db cp [ query_exact db cp;
                     local_is_prefix_of_content db cp;
                     content_is_prefix_of_local db cp;
                     contained_shortest_first db cp ]
     ++ by_name db (q_Name t))%list.

(** The order the queries are issued in. *)
Definition resolve_in_query_order (db : DB) (t : QBittorrentTorrent) : option Z :=
  let cp := q_ContentPath t in
  first_hit
    (by_path db cp [ query_exact db cp;
                     content_is_prefix_of_local db cp;
                     local_is_prefix_of_content db cp;
                     contained_shortest_first db cp ]
     ++ by_name db (q_Name t))%list.

(** No [LIKE] metacharacter in a string. *)
Fixpoint literal (s : string) : bool :=
  match s with
  | EmptyString => true
  | String c s' =>
      negb (Ascii.eqb c "%") && negb (Ascii.eqb c "_") && negb (Ascii.eqb c "\")
      && literal s'
  end.

Definition literal_rows (db : DB) : Prop :=
  Forall (fun r => literal (mi_file_path r) = true /\ literal (mi_title r) = true)
    (media_items db).

End TorrentSync.

(* ------------------------------------------------------------------ *)
(** ** Media sync: Sonarr and Radarr upserts *)

Module MediaSync.
Import Store.

Record SonarrStatistics := mkSonarrStatistics { ss_SizeOnDisk : Z }.

Record SonarrSeries := mkSonarrSeries {
  se_ID : Z;
  se_Title : string;
  se_Path : string;
  se_TVDBID : Z;
  se_Monitored : bool;
  se_Status : string;
  se_Added : string;
  se_Statistics : option SonarrStatistics
}.

Record RadarrStatistics := mkRadarrStatistics { rs_SizeOnDisk : Z }.

Record RadarrMovie := mkRadarrMovie {
  mo_ID : Z;
  mo_Title : string;
  mo_Path : string;
  mo_TMDBID : Z;
  mo_Monitored : bool;
  mo_Status : string;
  mo_Added : string;
  mo_QualityProfileID : Z;
  mo_RootFolderPath : string;
  mo_Statistics : option RadarrStatistics
}.

(** What an adapter call ([GetSeries], [GetMovies]) comes back with. *)
Inductive fetched (A : Type) :=
| Fetched (items : list A)
| FetchError (msg : string).
Arguments Fetched {A} items.
Arguments FetchError {A} msg.

(** *** [time.Parse(time.RFC3339, s)]

    [Some t] is a successful parse; [None] is the error case, in which
    [time.Parse] returns the zero [time.Time], January 1 of year 1,
    00:00:00 UTC. *)
Definition zero_time : Timestamp := mkTimestamp 1 1 1 0 0 0 0.

Definition digit (c : ascii) : option Z :=
  let n := Z.of_nat (nat_of_ascii c) in
  if (48 <=? n) && (n <=? 57) then Some (n - 48) else None.

Definition bind {A B} (o : option A) (f : A -> option B) : option B :=
  match o with
  | Some a => f a
  | None => None
  end.

(** [getnum]: two digits, or one when the field is not [fixed] and no
    second digit follows. *)
Definition getnum (s : string) (fixed : bool) : option (Z * string) :=
  match s with
  | EmptyString => None
  | String a rest =>
      match digit a with
      | None => None
      | Some x =>
          match rest with
          | String b rest' =>
              match digit b with
              | Some y => Some (x * 10 + y, rest')
              | None => if fixed then None else Some (x, rest)
              end
          | EmptyString => if fixed then None else Some (x, rest)
          end
      end
  end.

(** [skip] for a prefix of one character that is not a space. *)
Definition skip (value : string) (prefix : ascii) : option string :=
  match value with
  | String c rest => if Ascii.eqb c prefix then Some rest else None
  | EmptyString => None
  end.

(** The year of the layout: exactly four digits. *)
Definition longYear (value : string) : option (Z * string) :=
  match value with
  | String a (String b (String c (String d rest))) =>
      match digit a, digit b, digit c, digit d with
      | Some x, Some y, Some z, Some w => Some (x * 1000 + y * 100 + z * 10 + w, rest)
      | _, _, _, _ => None
      end
  | _ => None
  end.

Definition isLeap (year : Z) : bool :=
  (year mod 4 =? 0) && (negb (year mod 100 =? 0) || (year mod 400 =? 0)).

Definition daysIn (month year : Z) : Z :=
  if month =? 2 then (if isLeap year then 29 else 28)
  else if (month =? 4) || (month =? 6) || (month =? 9) || (month =? 11) then 30
  else 31.

Definition commaOrPeriod (c : ascii) : bool := Ascii.eqb c "." || Ascii.eqb c ",".

(** The digits of a fraction: the first nine as nanoseconds, and what
    follows the digits. *)
Fixpoint fraction (s : string) (scale acc : Z) : Z * string :=
  match s with
  | EmptyString => (acc, s)
  | String c s' =>
      match digit c with
      | Some k => fraction s' (scale / 10) (acc + k * scale)
      | None => (acc, s)
      end
  end.

(** A fraction of a second in the input, which the layout does not
    name: a period or a comma followed by at least one digit. *)
Definition fractionalSecond (value : string) : Z * string :=
  match value with
  | String c (String d _ as ds) =>
      match commaOrPeriod c, digit d with
      | true, Some _ => fraction ds 100000000 0
      | _, _ => (0, value)
      end
  | _ => (0, value)
  end.

(** The zone of the layout, [Z07:00]: the letter Z, or a sign, two
    digits, a colon and two digits, within 24 hours and 60 minutes.  The
    value is what follows the zone. *)
Definition zone (value : string) : option string :=
  match value with
  | String "Z" rest => Some rest
  | String sign (String h1 (String h2 (String colon (String m1 (String m2 rest))))) =>
      match Ascii.eqb colon ":",
            getnum (String h1 (String h2 EmptyString)) true,
            getnum (String m1 (String m2 EmptyString)) true with
      | true, Some (hr, _), Some (mm, _) =>
          if (hr <=? 24) && (mm <=? 60) && (Ascii.eqb sign "+" || Ascii.eqb sign "-")
          then Some rest else None
      | _, _, _ => None
      end
  | _ => None
  end.

(** The layout ["2006-01-02T15:04:05Z07:00"] read chunk by chunk, as the
    layout parser of the [time] package does when the strict reading of
    RFC 3339 fails: the hour may have one digit, the fraction may follow a
    comma, and the day is checked against the month at the end.  The
    value holds the wall clock of the parsed time, which is what the
    driver stores in a [TIMESTAMP] column. *)
Definition parseRFC3339 (s : string) : option Timestamp :=
  bind (longYear s) (fun '(year, value) =>
  bind (skip value "-") (fun value =>
  bind (getnum value true) (fun '(month, value) =>
  if (month <=? 0) || (12 <? month) then None else
  bind (skip value "-") (fun value =>
  bind (getnum value true) (fun '(day, value) =>
  bind (skip value "T") (fun value =>
  bind (getnum value false) (fun '(hour, value) =>
  if 24 <=? hour then None else
  bind (skip value ":") (fun value =>
  bind (getnum value true) (fun '(min, value) =>
  if 60 <=? min then None else
  bind (skip value ":") (fun value =>
  bind (getnum value true) (fun '(sec, value) =>
  if 60 <=? sec then None else
  let '(nsec, value) := fractionalSecond value in
  match zone value with
  | Some EmptyString =>
      if (day <? 1) || (daysIn month year <? day) then None
      else Some (mkTimestamp year month day hour min sec nsec)
  | _ => None
  end))))))))))).

(** *** The upsert shared by the two manager syncs

    [SyncFromSonarr] and [SyncFromRadarr] run the same loop body; they
    differ in the manager column, in the secondary identifier column and
    in the type token. *)
Inductive Manager := Sonarr | Radarr.

Definition manager_id (m : Manager) (r : MediaRow) : option Z :=
  match m with
  | Sonarr => mi_sonarr_id r
  | Radarr => mi_radarr_id r
  end.

(** The fields of a remote record that the loop body reads. *)
Record Remote := mkRemote {
  rm_ID : Z;
  rm_Title : string;
  rm_Path : string;
  rm_ExternalID : Z;
  rm_Added : string;
  rm_size : Z
}.

Definition of_series (ser : SonarrSeries) : Remote :=
  {| rm_ID := se_ID ser; rm_Title := se_Title ser; rm_Path := se_Path ser;
     rm_ExternalID := se_TVDBID ser; rm_Added := se_Added ser;
     rm_size := match se_Statistics ser with
                | Some st => ss_SizeOnDisk st
                | None => 0
                end |}.

Definition of_movie (movie : RadarrMovie) : Remote :=
  {| rm_ID := mo_ID movie; rm_Title := mo_Title movie; rm_Path := mo_Path movie;
     rm_ExternalID := mo_TMDBID movie; rm_Added := mo_Added movie;
     rm_size := match mo_Statistics movie with
                | Some st => rs_SizeOnDisk st
                | None => 0
                end |}.

Definition has_key (m : Manager) (k : Z) (r : MediaRow) : bool :=
  opt_eqb (manager_id m r) k.

(** [SET title = .., file_path = .., file_size = .., last_synced_at =
    CURRENT_TIMESTAMP] on one row. *)
Definition refreshed (now : Z) (x : Remote) (r : MediaRow) : MediaRow :=
  {| mi_id := mi_id r;
     mi_title := rm_Title x;
     mi_type := mi_type r;
     mi_tmdb_id := mi_tmdb_id r;
     mi_tvdb_id := mi_tvdb_id r;
     mi_sonarr_id := mi_sonarr_id r;
     mi_radarr_id := mi_radarr_id r;
     mi_overseerr_request_id := mi_overseerr_request_id r;
     mi_requested_by_user_id := mi_requested_by_user_id r;
     mi_file_path := rm_Path x;
     mi_file_size := rm_size x;
     mi_added_date := mi_added_date r;
     mi_last_synced_at := now;
     mi_created_at := mi_created_at r;
     mi_updated_at := mi_updated_at r |}.

(** The row of the [INSERT]: the columns it names, the defaults for the
    others. *)
Definition new_row (m : Manager) (now id : Z) (x : Remote) (addedDate : Timestamp)
    : MediaRow :=
  {| mi_id := id;
     mi_title := rm_Title x;
     mi_type := match m with Sonarr => "series" | Radarr => "movie" end;
     mi_tmdb_id := match m with Sonarr => None | Radarr => Some (rm_ExternalID x) end;
     mi_tvdb_id := match m with Sonarr => Some (rm_ExternalID x) | Radarr => None end;
     mi_sonarr_id := match m with Sonarr => Some (rm_ID x) | Radarr => None end;
     mi_radarr_id := match m with Sonarr => None | Radarr => Some (rm_ID x) end;
     mi_overseerr_request_id := None;
     mi_requested_by_user_id := None;
     mi_file_path := rm_Path x;
     mi_file_size := rm_size x;
     mi_added_date := Some addedDate;
     mi_last_synced_at := now;
     mi_created_at := now;
     mi_updated_at := now |}.

Definition with_media (db : DB) (rows : list MediaRow) (seq : Z) : DB :=
  {| media_items := rows; media_items_seq := seq;
     torrents := torrents db; audit_logs := audit_logs db;
     audit_logs_seq := audit_logs_seq db |}.

(** [SELECT id FROM media_items WHERE <manager>_id = $1]. *)
Definition select_by_manager (m : Manager) (db : DB) (k : Z) : option Z :=
  option_map mi_id (find (has_key m k) (media_items db)).

(** [INSERT ... ON CONFLICT (<manager>_id) WHERE <manager>_id IS NOT NULL
    DO UPDATE SET title, file_path, file_size, last_synced_at]. *)
Definition insert_media (m : Manager) (now : Z) (x : Remote) (addedDate : Timestamp)
    (db : DB) : DB :=
  if existsb (has_key m (rm_ID x)) (media_items db) then
    with_media db
      (map (fun r => if has_key m (rm_ID x) r then refreshed now x r else r)
         (media_items db))
      (media_items_seq db + 1)
  else
    with_media db
      (media_items db ++ [new_row m now (media_items_seq db) x addedDate])%list
      (media_items_seq db + 1).

(** [UPDATE media_items SET ... WHERE id = $1]. *)
Definition update_media (now existingID : Z) (x : Remote) (db : DB) : DB :=
  with_media db
    (map (fun r => if mi_id r =? existingID then refreshed now x r else r)
       (media_items db))
    (media_items_seq db).

Section Sync.
(** [time.Parse(time.RFC3339, .)]. *)
Variable time_Parse : string -> option Timestamp.

(** The [addedDate] of a record: what [time.Parse] returned. *)
Definition added_date_of (x : Remote) : Timestamp :=
  match time_Parse (rm_Added x) with Some t => t | None => zero_time end.

(** The loop body, at the store time [now] of its write. *)
Definition sync_item (m : Manager) (now : Z) (x : Remote) (db : DB) : DB :=
  let addedDate :=
    match time_Parse (rm_Added x) with
    | Some t => t
    | None => zero_time
    end in
  match select_by_manager m db (rm_ID x) with
  | None => insert_media m now x addedDate db
  | Some existingID => update_media now existingID x db
  end.

Definition sync_items (m : Manager) (items : list (Z * Remote)) (db : DB) : DB :=
  fold_left (fun db tx => sync_item m (fst tx) (snd tx) db) items db.

(** Each record with the [CURRENT_TIMESTAMP] of its statement:
    [clock n] is the store time when the n-th record is written. *)
Definition stamped (clock : nat -> Z) (items : list Remote) : list (Z * Remote) :=
  combine (map clock (List.seq 0 (List.length items))) items.

Definition SyncFromSonarr (sonarr : option (fetched SonarrSeries))
    (clock : nat -> Z) (db : DB) : option string * DB :=
  match sonarr with
  | None => (Some "sonarr integration not enabled", db)
  | Some (FetchError e) => (Some ("failed to fetch series from Sonarr: " ++ e), db)
  | Some (Fetched series) =>
      (None, sync_items Sonarr (stamped clock (map of_series series)) db)
  end.

Definition SyncFromRadarr (radarr : option (fetched RadarrMovie))
    (clock : nat -> Z) (db : DB) : option string * DB :=
  match radarr with
  | None => (Some "radarr integration not enabled", db)
  | Some (FetchError e) => (Some ("failed to fetch movies from Radarr: " ++ e), db)
  | Some (Fetched movies) =>
      (None, sync_items Radarr (stamped clock (map of_movie movies)) db)
  end.
End Sync.

(** *** The upsert on the rows, by manager key

    On a table that satisfies its constraints the loop body refreshes the
    rows holding the record's manager id, or appends a new row when there
    is none. *)
Definition touch (m : Manager) (tx : Z * Remote) (r : MediaRow) : MediaRow :=
  if has_key m (rm_ID (snd tx)) r then refreshed (fst tx) (snd tx) r else r.

Definition upsert_rows (m : Manager) (tx : Z * Remote) (addedDate : Timestamp)
    (rows : list MediaRow) (next : Z) : list MediaRow * Z :=
  if existsb (has_key m (rm_ID (snd tx))) rows
  then (map (touch m tx) rows, next)
  else ((rows ++ [new_row m (fst tx) next (snd tx) addedDate])%list, next + 1).

Definition touch_all (m : Manager) (items : list (Z * Remote)) (r : MediaRow) : MediaRow :=
  fold_left (fun r tx => touch m tx r) items r.

(** The last record of a list that carries the manager id [k]. *)
Definition last_match (k : Z) (recs : list Remote) : option Remote :=
  fold_left (fun acc x => if rm_ID x =? k then Some x else acc) recs None.

Definition shows (r : MediaRow) (x : Remote) : Prop :=
  mi_title r = rm_Title x /\ mi_file_path r = rm_Path x /\ mi_file_size r = rm_size x.

(** Every row keyed by a manager id shows the last record with that id. *)
Definition settled (m : Manager) (recs : list Remote) (rows : list MediaRow) : Prop :=
  forall r k x,
    In r rows -> manager_id m r = Some k -> last_match k recs = Some x -> shows r x.

(** Every record has a row. *)
Definition covered (m : Manager) (recs : list Remote) (rows : list MediaRow) : Prop :=
  forall x, In x recs -> existsb (has_key m (rm_ID x)) rows = true.

(** *** Notions used to state the properties of a pass *)

(** The constraints of the schema on [media_items]: the primary key, its
    sequence, and the two partial unique indexes on the manager ids. *)
Definition keys (m : Manager) (rows : list MediaRow) : list Z :=
  flat_map (fun r => match manager_id m r with Some k => [k] | None => [] end) rows.

Definition well_formed (db : DB) : Prop :=
  NoDup (map mi_id (media_items db)) /\
  Forall (fun r => mi_id r < media_items_seq db) (media_items db) /\
  NoDup (keys Sonarr (media_items db)) /\
  NoDup (keys Radarr (media_items db)).

(** Two rows that agree on every column but [title], [file_path],
    [file_size] and [last_synced_at]. *)
Definition same_frame (r r' : MediaRow) : Prop :=
  mi_id r' = mi_id r /\
  mi_type r' = mi_type r /\
  mi_tmdb_id r' = mi_tmdb_id r /\
  mi_tvdb_id r' = mi_tvdb_id r /\
  mi_sonarr_id r' = mi_sonarr_id r /\
  mi_radarr_id r' = mi_radarr_id r /\
  mi_overseerr_request_id r' = mi_overseerr_request_id r /\
  mi_requested_by_user_id r' = mi_requested_by_user_id r /\
  mi_added_date r' = mi_added_date r /\
  mi_created_at r' = mi_created_at r /\
  mi_updated_at r' = mi_updated_at r.

(** Two rows that agree on every column but [last_synced_at]. *)
Definition same_but_synced (r r' : MediaRow) : Prop :=
  same_frame r r' /\
  mi_title r' = mi_title r /\
  mi_file_path r' = mi_file_path r /\
  mi_file_size r' = mi_file_size r.

(** [rows'] holds the rows of [rows], in place and framed, then new rows. *)
Definition framed (rows rows' : list MediaRow) : Prop :=
  exists kept added,
    rows' = (kept ++ added)%list /\ Forall2 same_frame rows kept.

(** The manager id [k] has a row, and every row with it holds the zero
    time as its [added_date]. *)
Definition zero_dated (m : Manager) (k : Z) (rows : list MediaRow) : Prop :=
  In k (keys m rows) /\
  forall r, In r rows -> manager_id m r = Some k -> mi_added_date r = Some zero_time.

End MediaSync.

(* ------------------------------------------------------------------ *)
(** ** Deletion orchestrator *)

Module Deletion.
Import Store.

(** A Go [error] is held by its message; [None] is [nil]. *)
Definition error := string.

(** *** The collaborators, by the outcome of each call *)

Inductive stat_result :=
| StatNotExist
| StatError (e : error)
| StatDir
| StatFile.

Record FileSystem := mkFileSystem {
  os_Stat : string -> stat_result;
  os_RemoveAll : string -> option error;
  os_Remove : string -> option error
}.

Record SonarrClient := mkSonarrClient {
  DeleteSeries : Z -> bool -> bool -> option error;
  UnmonitorSeries : Z -> option error
}.

Record RadarrClient := mkRadarrClient {
  DeleteMovie : Z -> bool -> bool -> option error;
  UnmonitorMovie : Z -> option error
}.

Record OverseerrMedia := mkOverseerrMedia {
  om_ID : Z;
  om_TMDBID : Z;
  om_TVDBID : option Z;
  om_Title : string;
  om_MediaType : string
}.

Record OverseerrRequest := mkOverseerrRequest {
  or_ID : Z;
  or_MediaID : Z;
  or_MediaType : string;
  or_Status : Z;
  or_RequestedBy : Z;
  or_Media : OverseerrMedia
}.

Record OverseerrClient := mkOverseerrClient {
  GetRequests : MediaSync.fetched OverseerrRequest;
  DeleteRequest : Z -> option error
}.

Record QBittorrentClient := mkQBittorrentClient {
  DeleteTorrent : string -> bool -> option error
}.

(** The outcome of the four store statements of [DeleteMediaItem]
    ([None]: the statement is executed).  For the [INSERT] into
    [audit_logs] this is the outcome once the text bound to [details] has
    been read as JSON, see [insert_audit]. *)
Record StoreOutcome := mkStoreOutcome {
  select_media_err : option error;
  select_hashes_err : option error;
  insert_audit_err : option error;
  delete_media_err : option error
}.

(** The service with its (possibly nil) clients, and its environment. *)
Record World := mkWorld {
  fs : FileSystem;
  sonarr : option SonarrClient;
  radarr : option RadarrClient;
  overseerr : option OverseerrClient;
  qbittorrent : option QBittorrentClient;
  store : StoreOutcome
}.

(** *** [deleteFiles]

    After a single file is removed the code also tries to remove its
    parent directory when empty; a failure there is only logged, so that
    part does not bear on the value returned. *)
Definition deleteFiles (w : World) (filePath : string) : option error :=
  match os_Stat (fs w) filePath with
  | StatNotExist => None
  | StatError e => Some ("failed to stat path: " ++ e)
  | StatDir =>
      match os_RemoveAll (fs w) filePath with
      | Some e => Some ("failed to delete directory: " ++ e)
      | None => None
      end
  | StatFile =>
      match os_Remove (fs w) filePath with
      | Some e => Some ("failed to delete file: " ++ e)
      | None => None
      end
  end.

(** *** [OverseerrClient.FindRequestByMediaID] *)

Definition request_matches (tmdbID tvdbID : option Z) (mediaType : string)
    (req : OverseerrRequest) : bool :=
  let requestMediaType :=
    if String.eqb (or_MediaType req) "" then om_MediaType (or_Media req)
    else or_MediaType req in
  let expectedType := if String.eqb mediaType "series" then "tv" else mediaType in
  let typeMatches :=
    if String.eqb requestMediaType "" then true
    else String.eqb requestMediaType expectedType || String.eqb requestMediaType mediaType in
  typeMatches &&
  ((String.eqb mediaType "movie" &&
    match tmdbID with Some id => om_TMDBID (or_Media req) =? id | None => false end)
   ||
   (String.eqb mediaType "series" &&
    match tvdbID, om_TVDBID (or_Media req) with
    | Some id, Some rid => rid =? id
    | _, _ => false
    end)).

Inductive found :=
| Found (req : option OverseerrRequest)
| FindError (e : error).

Definition FindRequestByMediaID (c : OverseerrClient) (tmdbID tvdbID : option Z)
    (mediaType : string) : found :=
  match GetRequests c with
  | MediaSync.FetchError e => FindError ("failed to get requests: " ++ e)
  | MediaSync.Fetched requests =>
      Found (find (request_matches tmdbID tvdbID mediaType) requests)
  end.

(** *** The steps of [DeleteMediaItem]

    Each step takes the [errors] slice collected so far and gives it back,
    possibly with a message appended. *)

Definition positive (id : option Z) : option Z :=
  match id with
  | Some v => if v >? 0 then Some v else None
  | None => None
  end.

(** Step 2. *)
Definition step_files (w : World) (row : MediaRow) (errors : list string) : list string :=
  if negb (String.eqb (mi_file_path row) "") then
    match deleteFiles w (mi_file_path row) with
    | Some e => errors ++ ["failed to delete files: " ++ e]
    | None => errors
    end
  else errors.

(** Step 3. *)
Definition step_manager (w : World) (row : MediaRow) (errors : list string) : list string :=
  match String.eqb (mi_type row) "series", mi_sonarr_id row, sonarr w with
  | true, Some sonarrID, Some c =>
      match DeleteSeries c sonarrID false false with
      | Some _ =>
          match UnmonitorSeries c sonarrID with
          | Some e => errors ++ ["failed to delete/unmonitor from Sonarr: " ++ e]
          | None => errors
          end
      | None => errors
      end
  | _, _, _ =>
      match String.eqb (mi_type row) "movie", mi_radarr_id row, radarr w with
      | true, Some radarrID, Some c =>
          match DeleteMovie c radarrID false false with
          | Some _ =>
              match UnmonitorMovie c radarrID with
              | Some e => errors ++ ["failed to delete/unmonitor from Radarr: " ++ e]
              | None => errors
              end
          | None => errors
          end
      | _, _, _ => errors
      end
  end.

(** Step 4: the request id that is deleted, [0] when there is none. *)
Definition requestID (c : OverseerrClient) (row : MediaRow) : Z :=
  match mi_overseerr_request_id row with
  | Some id => id
  | None =>
      let tmdbIDPtr := positive (mi_tmdb_id row) in
      let tvdbIDPtr := positive (mi_tvdb_id row) in
      match tmdbIDPtr, tvdbIDPtr with
      | None, None => 0
      | _, _ =>
          match FindRequestByMediaID c tmdbIDPtr tvdbIDPtr (mi_type row) with
          | FindError _ => 0
          | Found (Some req) => or_ID req
          | Found None => 0
          end
      end
  end.

Definition step_request (w : World) (row : MediaRow) (errors : list string) : list string :=
  match overseerr w with
  | Some c =>
      let id := requestID c row in
      if id >? 0 then
        match DeleteRequest c id with
        | Some e => errors ++ ["failed to delete from Overseerr: " ++ e]
        | None => errors
        end
      else errors
  | None => errors
  end.

(** Step 5. *)
Definition torrentHashes (w : World) (db : DB) (mediaID : Z) : list string :=
  match select_hashes_err (store w) with
  | None => map tr_hash (torrents_of db mediaID)
  | Some _ => []
  end.

Definition step_torrents (w : World) (hashes : list string) (errors : list string)
    : list string :=
  match qbittorrent w with
  | Some c =>
      fold_left
        (fun (errors : list string) (hash : string) =>
           match DeleteTorrent c hash true with
           | Some e =>
               (errors ++ [("failed to delete torrent " ++ hash ++ ": " ++ e)%string])%list
           | None => errors
           end)
        hashes errors
  | None => errors
  end.

(** Step 6. *)
Definition details (row : MediaRow) (errors : list string) : string :=
  "Deleted media: " ++ mi_title row ++ " (type: " ++ mi_type row ++ ")" ++
  match errors with
  | [] => ""
  | _ :: _ => " - Errors: " ++ Fmt.v errors
  end.

(** [audit_logs.details] is [JSONB], and the driver sends the Go [string]
    bound to it as it is: the store reads the string as a JSON text.  A
    JSON text starts, after white space (space, tab, line feed, carriage
    return), with an opening brace or bracket, a double quote, a minus
    sign, a digit, or the first letter of [true], [false] or [null]; a
    string that starts otherwise is not JSON. *)
Definition json_space (c : ascii) : bool :=
  Ascii.eqb c " " || Ascii.eqb c "009" || Ascii.eqb c "010" || Ascii.eqb c "013".

Definition json_opening (c : ascii) : bool :=
  Ascii.eqb c "{" || Ascii.eqb c "[" || Ascii.eqb c "034" || Ascii.eqb c "-"
  || ((48 <=? nat_of_ascii c)%nat && (nat_of_ascii c <=? 57)%nat)
  || Ascii.eqb c "t" || Ascii.eqb c "f" || Ascii.eqb c "n".

Fixpoint starts_json (s : string) : bool :=
  match s with
  | EmptyString => false
  | String c s' => if json_space c then starts_json s' else json_opening c
  end.

(** The table after the audit row of the call has been written. *)
Definition audit_row_added (db : DB) (userID mediaID : Z) (row : MediaRow)
    (text : string) : DB :=
  {| media_items := media_items db;
     media_items_seq := media_items_seq db;
     torrents := torrents db;
     audit_logs :=
       (audit_logs db ++
        [ {| al_id := audit_logs_seq db;
             al_user_id := Some userID;
             al_action := "delete";
             al_media_item_id := Some mediaID;
             al_media_title := mi_title row;
             al_media_type := mi_type row;
             al_details := text |} ])%list;
     audit_logs_seq := audit_logs_seq db + 1 |}.

(** [INSERT INTO audit_logs (user_id, action, media_item_id, media_title,
    media_type, details) VALUES ($1, 'delete', $2, $3, $4, $5)].  A
    [details] text that cannot start a JSON text is rejected when the
    parameters are read, before anything is written; for a text that can,
    whether the statement goes through (the text is JSON to its end, the
    user exists) is [insert_audit_err]. *)
Definition insert_audit (o : StoreOutcome) (db : DB) (userID mediaID : Z)
    (row : MediaRow) (text : string) : option error * DB :=
  if starts_json text then
    match insert_audit_err o with
    | None => (None, audit_row_added db userID mediaID row text)
    | Some e => (Some e, db)
    end
  else (Some "ERROR: invalid input syntax for type json (SQLSTATE 22P02)", db).

(** Step 7: the [DELETE], with the foreign keys of the schema
    ([torrents]: [ON DELETE CASCADE]; [audit_logs]: [ON DELETE SET NULL]). *)
Definition unlink (mediaID : Z) (a : AuditRow) : AuditRow :=
  if opt_eqb (al_media_item_id a) mediaID then
    {| al_id := al_id a; al_user_id := al_user_id a; al_action := al_action a;
       al_media_item_id := None;
       al_media_title := al_media_title a; al_media_type := al_media_type a;
       al_details := al_details a |}
  else a.

Definition delete_media (db : DB) (mediaID : Z) : DB :=
  {| media_items := filter (fun r => negb (mi_id r =? mediaID)) (media_items db);
     media_items_seq := media_items_seq db;
     torrents := filter (fun t => negb (opt_eqb (tr_media_item_id t) mediaID)) (torrents db);
     audit_logs := map (unlink mediaID) (audit_logs db);
     audit_logs_seq := audit_logs_seq db |}.

Definition DeleteMediaItem (w : World) (db : DB) (mediaID userID : Z)
    : option error * DB :=
  (* Step 1 *)
  match select_media_err (store w) with
  | Some e => (Some ("failed to get media item: " ++ e), db)
  | None =>
  match media_by_id db mediaID with
  | None => (Some ("media item not found: " ++ Fmt.d mediaID), db)
  | Some row =>
      let errors := [] in
      let errors := step_files w row errors in
      let errors := step_manager w row errors in
      let errors := step_request w row errors in
      let errors := step_torrents w (torrentHashes w db mediaID) errors in
      (* Step 6: a failed [INSERT] is only logged *)
      let db := snd (insert_audit (store w) db userID mediaID row (details row errors)) in
      (* Step 7 *)
      match delete_media_err (store w) with
      | Some e => (Some ("failed to delete from database: " ++ e), db)
      | None =>
          let db := delete_media db mediaID in
          match errors with
          | [] => (None, db)
          | _ :: _ => (Some ("deletion completed with errors: " ++ Fmt.v errors), db)
          end
      end
  end
  end.

(** *** What each downstream step reports, stated by outcome *)

Definition files_failures (w : World) (row : MediaRow) : list string :=
  match mi_file_path row with
  | EmptyString => []
  | String _ _ as path =>
      match deleteFiles w path with
      | Some e => ["failed to delete files: " ++ e]
      | None => []
      end
  end.

Definition manager_failures (w : World) (row : MediaRow) : list string :=
  if String.eqb (mi_type row) "series" && Eligibility.is_some (mi_sonarr_id row)
     && Eligibility.is_some (sonarr w) then
    match mi_sonarr_id row, sonarr w with
    | Some id, Some c =>
        match DeleteSeries c id false false, UnmonitorSeries c id with
        | Some _, Some e => ["failed to delete/unmonitor from Sonarr: " ++ e]
        | _, _ => []
        end
    | _, _ => []
    end
  else if String.eqb (mi_type row) "movie" && Eligibility.is_some (mi_radarr_id row)
          && Eligibility.is_some (radarr w) then
    match mi_radarr_id row, radarr w with
    | Some id, Some c =>
        match DeleteMovie c id false false, UnmonitorMovie c id with
        | Some _, Some e => ["failed to delete/unmonitor from Radarr: " ++ e]
        | _, _ => []
        end
    | _, _ => []
    end
  else [].

Definition request_failures (w : World) (row : MediaRow) : list string :=
  match overseerr w with
  | Some c =>
      if requestID c row >? 0 then
        match DeleteRequest c (requestID c row) with
        | Some e => ["failed to delete from Overseerr: " ++ e]
        | None => []
        end
      else []
  | None => []
  end.

Definition torrent_failures (w : World) (db : DB) (mediaID : Z) : list string :=
  match qbittorrent w with
  | Some c =>
      flat_map
        (fun hash =>
           match DeleteTorrent c hash true with
           | Some e => ["failed to delete torrent " ++ hash ++ ": " ++ e]
           | None => []
           end)
        (torrentHashes w db mediaID)
  | None => []
  end.

(** The failures a call reports, in the order of the steps. *)
Definition failures (w : World) (db : DB) (mediaID : Z) (row : MediaRow) : list string :=
  (files_failures w row ++ manager_failures w row ++
   request_failures w row ++ torrent_failures w db mediaID)%list.

(** The store executes the row lookup and the final [DELETE] of the call. *)
Definition store_ok (w : World) : Prop :=
  select_media_err (store w) = None /\
  delete_media_err (store w) = None.

(** *** Success of each downstream step *)

Definition files_ok (w : World) (row : MediaRow) : Prop :=
  mi_file_path row = "" \/ deleteFiles w (mi_file_path row) = None.

(** The hard delete went through, or else the unmonitor fallback did. *)
Definition manager_ok (w : World) (row : MediaRow) : Prop :=
  (forall id c,
      mi_type row = "series" -> mi_sonarr_id row = Some id -> sonarr w = Some c ->
      DeleteSeries c id false false = None \/ UnmonitorSeries c id = None) /\
  (forall id c,
      mi_type row = "movie" -> mi_radarr_id row = Some id -> radarr w = Some c ->
      DeleteMovie c id false false = None \/ UnmonitorMovie c id = None).

(** The request that was stored or found, if any, was deleted. *)
Definition request_ok (w : World) (row : MediaRow) : Prop :=
  forall c,
    overseerr w = Some c -> requestID c row > 0 ->
    DeleteRequest c (requestID c row) = None.

(** Every hash that was read was deleted. *)
Definition torrents_ok (w : World) (db : DB) (mediaID : Z) : Prop :=
  forall c hash,
    qbittorrent w = Some c -> In hash (torrentHashes w db mediaID) ->
    DeleteTorrent c hash true = None.

End Deletion.

(* ------------------------------------------------------------------ *)
(** ** Example stores and inputs *)

Module Examples.
Import Store.

Definition movie (id : Z) (title path : string) : MediaRow :=
  {| mi_id := id; mi_title := title; mi_type := "movie";
     mi_tmdb_id := Some (100 + id); mi_tvdb_id := None;
     mi_sonarr_id := None; mi_radarr_id := Some (10 + id);
     mi_overseerr_request_id := None; mi_requested_by_user_id := None;
     mi_file_path := path; mi_file_size := 700;
     mi_added_date := None; mi_last_synced_at := 5;
     mi_created_at := 1; mi_updated_at := 1 |}.

Definition torrent (item : Z) (hash : string) (ty : option string)
    (seeded ratio : Z) (rt rr : option Z) (seeding : bool) : TorrentRow :=
  {| tr_media_item_id := Some item; tr_hash := hash;
     tr_tracker_id := None; tr_tracker_name := None; tr_tracker_type := ty;
     tr_seeding_time_seconds := seeded; tr_ratio := ratio;
     tr_seeding_required_seconds := rt; tr_seeding_required_ratio := rr;
     tr_is_seeding := seeding |}.

(** Item 1 has a public and two private torrents, item 2 has one private
    torrent that met its thresholds but stopped seeding, item 3 has none,
    item 4 has one overridden public torrent that is not seeding. *)
Definition db_elig : DB :=
  {| media_items := [ movie 1 "Alpha" "/data/movies/Alpha";
                      movie 2 "Beta" "/data/movies/Beta";
                      movie 3 "Gamma" "";
                      movie 4 "Delta" "/data/movies/Delta" ];
     media_items_seq := 5;
     torrents := [ torrent 1 "aa" (Some "public") 0 0 None None false;
                   torrent 2 "bb" (Some "private") 7200 200 (Some 3600) (Some 100) false;
                   torrent 1 "cc" (Some "private") 10 50 (Some 3600) None true;
                   torrent 1 "dd" None 99999 900 None None true;
                   torrent 4 "ee" (Some "public") 7200 200 (Some 3600) (Some 100) false ];
     audit_logs := [];
     audit_logs_seq := 1 |}.

(** A series folder and one of its episode files, and a torrent holding
    the season directory between the two. *)
Definition series (id : Z) (title path : string) : MediaRow :=
  {| mi_id := id; mi_title := title; mi_type := "series";
     mi_tmdb_id := None; mi_tvdb_id := Some (200 + id);
     mi_sonarr_id := Some (20 + id); mi_radarr_id := None;
     mi_overseerr_request_id := None; mi_requested_by_user_id := None;
     mi_file_path := path; mi_file_size := 900;
     mi_added_date := None; mi_last_synced_at := 5;
     mi_created_at := 1; mi_updated_at := 1 |}.

Definition db_paths : DB :=
  {| media_items := [ series 1 "Show" "/data/tv/Show";
                      series 2 "Show S01E01" "/data/tv/Show/S01/E01.mkv";
                      movie 3 "X" "/data/movies/X/X.mkv" ];
     media_items_seq := 4;
     torrents := [];
     audit_logs := [];
     audit_logs_seq := 1 |}.

Definition qbt (hash name path : string) : TorrentSync.QBittorrentTorrent :=
  {| TorrentSync.q_Hash := hash; TorrentSync.q_Name := name;
     TorrentSync.q_State := "uploading"; TorrentSync.q_SeedingTime := 10;
     TorrentSync.q_Uploaded := 1; TorrentSync.q_Downloaded := 1;
     TorrentSync.q_Ratio := 100; TorrentSync.q_AddedOn := 0;
     TorrentSync.q_Tracker := ""; TorrentSync.q_ContentPath := path |}.

Definition season_torrent := qbt "s1" "Show.S01.1080p" "/data/tv/Show/S01".
Definition movie_torrent := qbt "m1" "X.2023.1080p" "/data/movies/X".

(** An empty store, and a series list in which one record has no usable
    [added] string and one id comes twice. *)
Definition db_empty : DB :=
  {| media_items := []; media_items_seq := 1;
     torrents := []; audit_logs := []; audit_logs_seq := 1 |}.

Definition ser (id : Z) (title path added : string) (size : option Z)
    : MediaSync.SonarrSeries :=
  {| MediaSync.se_ID := id; MediaSync.se_Title := title; MediaSync.se_Path := path;
     MediaSync.se_TVDBID := 7000 + id; MediaSync.se_Monitored := true;
     MediaSync.se_Status := "continuing"; MediaSync.se_Added := added;
     MediaSync.se_Statistics := option_map MediaSync.mkSonarrStatistics size |}.

Definition undated_series : MediaSync.SonarrSeries :=
  ser 7 "Undated" "/data/tv/Undated" "" None.

Definition series_list : list MediaSync.SonarrSeries :=
  [ ser 1 "Show" "/data/tv/Show" "2023-05-06T07:08:09Z" (Some 900);
    undated_series;
    ser 1 "Show (2023)" "/data/tv/Show (2023)" "2023-05-06T07:08:09Z" (Some 950) ].

(** What Sonarr lists later, against [db_paths]: the series of Sonarr id
    21 renamed, a series the store does not know, and no longer the series
    of id 22. *)
Definition series_refresh : list MediaSync.SonarrSeries :=
  [ ser 21 "Show (2024)" "/data/tv/Show (2024)" "2023-05-06T07:08:09Z" (Some 950);
    ser 40 "Other" "/data/tv/Other" "2024-01-02T03:04:05.5+02:00" None ].

(** The letter e with an acute accent: one character, two bytes. *)
Definition e_acute : string := String "195" (String "169" EmptyString).

(** Two folders that hold a file of the same name; the first path has the
    fewer characters and the more bytes. *)
Definition db_accents : DB :=
  {| media_items :=
       [ movie 1 "Ete" ("/m/" ++ e_acute ++ "t" ++ e_acute ++ "s/Film.mkv");
         movie 2 "Etes" "/m/years/Film.mkv" ];
     media_items_seq := 3;
     torrents := [];
     audit_logs := [];
     audit_logs_seq := 1 |}.

(** A movie with two torrents and an earlier audit row (its [details] a
    JSON object), and worlds in which downstream systems fail. *)
Definition db_del : DB :=
  {| media_items := [ movie 1 "Alpha" "/data/movies/Alpha"; movie 2 "Beta" "" ];
     media_items_seq := 3;
     torrents := [ torrent 1 "aa" (Some "public") 0 0 None None true;
                   torrent 2 "bb" (Some "private") 7200 200 (Some 3600) None true;
                   torrent 1 "cc" (Some "private") 7200 200 (Some 3600) None true ];
     audit_logs := [ {| al_id := 1; al_user_id := Some 4; al_action := "delete";
                        al_media_item_id := None; al_media_title := "Old";
                        al_media_type := "movie";
                        al_details := "{}" |} ];
     audit_logs_seq := 2 |}.

Definition fs_fine : Deletion.FileSystem :=
  {| Deletion.os_Stat := fun _ => Deletion.StatDir;
     Deletion.os_RemoveAll := fun _ => None;
     Deletion.os_Remove := fun _ => None |}.

Definition store_fine : Deletion.StoreOutcome :=
  {| Deletion.select_media_err := None; Deletion.select_hashes_err := None;
     Deletion.insert_audit_err := None; Deletion.delete_media_err := None |}.

Definition overseerr_empty : Deletion.OverseerrClient :=
  {| Deletion.GetRequests := MediaSync.Fetched [];
     Deletion.DeleteRequest := fun _ => None |}.

Definition world_fine : Deletion.World :=
  {| Deletion.fs := fs_fine;
     Deletion.sonarr := None;
     Deletion.radarr :=
       Some {| Deletion.DeleteMovie := fun _ _ _ => None;
               Deletion.UnmonitorMovie := fun _ => None |};
     Deletion.overseerr := Some overseerr_empty;
     Deletion.qbittorrent := Some {| Deletion.DeleteTorrent := fun _ _ => None |};
     Deletion.store := store_fine |}.

(** The media manager rejects both the delete and the unmonitor, and the
    torrent client rejects the delete of torrent [cc]. *)
Definition world_downstream_fails : Deletion.World :=
  {| Deletion.fs := fs_fine;
     Deletion.sonarr := None;
     Deletion.radarr :=
       Some {| Deletion.DeleteMovie := fun _ _ _ => Some "radarr API error: 500";
               Deletion.UnmonitorMovie := fun _ => Some "radarr API error: 500" |};
     Deletion.overseerr := Some overseerr_empty;
     Deletion.qbittorrent :=
       Some {| Deletion.DeleteTorrent :=
                 fun hash _ => if String.eqb hash "cc"
                               then Some "qbittorrent API error: 403"
                               else None |};
     Deletion.store := store_fine |}.

(** The media manager rejects the delete and the unmonitor, and the store
    then loses the connection before the final [DELETE]. *)
Definition world_delete_fails : Deletion.World :=
  {| Deletion.fs := fs_fine;
     Deletion.sonarr := None;
     Deletion.radarr := Deletion.radarr world_downstream_fails;
     Deletion.overseerr := None;
     Deletion.qbittorrent := None;
     Deletion.store :=
       {| Deletion.select_media_err := None; Deletion.select_hashes_err := None;
          Deletion.insert_audit_err := None;
          Deletion.delete_media_err := Some "connection lost" |} |}.

(** The request manager cannot be reached for the lookup. *)
Definition world_lookup_fails : Deletion.World :=
  {| Deletion.fs := fs_fine;
     Deletion.sonarr := Deletion.sonarr world_fine;
     Deletion.radarr := Deletion.radarr world_fine;
     Deletion.overseerr :=
       Some {| Deletion.GetRequests := MediaSync.FetchError "connection refused";
               Deletion.DeleteRequest := fun _ => None |};
     Deletion.qbittorrent := Deletion.qbittorrent world_fine;
     Deletion.store := store_fine |}.

End Examples.

(* ------------------------------------------------------------------ *)
(** ** Eligibility: notions used to state further properties *)

Module EligibilitySpec.
Import Store Eligibility.

(** Every threshold that is present is met. *)
Definition thresholds_met (t : Torrent) : Prop :=
  (forall rt, RequiredTime t = Some rt -> rt <= SeedingTime t) /\
  (forall rr, RequiredRatio t = Some rr -> rr <= Ratio t).

(** [t'] is [t] after more seeding: the same torrent and requirements,
    with a seeding time and a ratio that are not smaller. *)
Definition seeded_on (t t' : Torrent) : Prop :=
  TrackerType t' = TrackerType t /\
  RequiredTime t' = RequiredTime t /\
  RequiredRatio t' = RequiredRatio t /\
  IsSeeding t' = IsSeeding t /\
  SeedingTime t <= SeedingTime t' /\
  Ratio t <= Ratio t'.

End EligibilitySpec.

(* ------------------------------------------------------------------ *)
(** ** Torrent sync: tracker resolution and the upsert of [torrents]

    The rest of the loop body of [SyncFromQBittorrent].  [TorrentRow]
    holds the columns the services read; the statements below also write
    [added_date], [upload_bytes], [download_bytes] and [last_synced_at],
    which no service reads and the row does not hold. *)

Module TorrentUpsert.
Import Store TorrentSync.

(** *** [isPublicTracker] *)

Definition publicTrackers : list string :=
  [ "1337x"; "rarbg"; "thepiratebay"; "torrentz"; "kickass"; "yts"; "eztv"; "nyaa" ].

(** [len(trackerLower) > len(public) && trackerLower[:len(public)] == public]
    ([trackerLower] is the tracker string as it is: [%v] does not change it). *)
Definition has_public_prefix (trackerLower public : string) : bool :=
  (String.length public <? String.length trackerLower)%nat &&
  String.eqb (String.substring 0 (String.length public) trackerLower) public.

Definition isPublicTracker (trackerURL : string) : bool :=
  existsb (has_public_prefix trackerURL) publicTrackers.

(** *** Tracker metadata *)

Record ProwlarrIndexer := mkProwlarrIndexer {
  ix_ID : Z;
  ix_Name : string;
  ix_Protocol : string;
  ix_Privacy : string;
  ix_MinSeedTime : option Z;
  ix_MinRatio : option Z
}.

(** [indexerMap[name]] once the map is filled: a later indexer of the
    same name replaces an earlier one. *)
Definition indexerMap (indexers : list ProwlarrIndexer) (name : string)
    : option ProwlarrIndexer :=
  find (fun ix => String.eqb (ix_Name ix) name) (rev indexers).

(** The indexers the map is filled from: none when [GetIndexers] fails. *)
Definition indexers_of (res : MediaSync.fetched ProwlarrIndexer) : list ProwlarrIndexer :=
  match res with
  | MediaSync.Fetched indexers => indexers
  | MediaSync.FetchError _ => []
  end.

Record TrackerInfo := mkTrackerInfo {
  trackerID : option Z;
  trackerName : option string;
  trackerType : option string;
  requiredTime : option Z;
  requiredRatio : option Z
}.

Definition no_tracker_info : TrackerInfo :=
  {| trackerID := None; trackerName := None; trackerType := None;
     requiredTime := None; requiredRatio := None |}.

(** [prowlarr] is [None] for a nil client, else the outcome of
    [GetIndexers].  The key of an entry of the map is the name of its
    indexer, so the [range] loop finds the entry of the tracker string, in
    whatever order it runs. *)
Definition trackerInfo (prowlarr : option (MediaSync.fetched ProwlarrIndexer))
    (t : QBittorrentTorrent) : TrackerInfo :=
  match prowlarr with
  | Some res =>
      if nonempty (q_Tracker t) then
        match indexerMap (indexers_of res) (q_Tracker t) with
        | Some indexer =>
            {| trackerID := Some (ix_ID indexer);
               trackerName := Some (ix_Name indexer);
               trackerType := Some (ix_Privacy indexer);
               requiredTime := ix_MinSeedTime indexer;
               requiredRatio := ix_MinRatio indexer |}
        | None =>
            {| trackerID := None;
               trackerName := Some (q_Tracker t);
               trackerType := Some (if isPublicTracker (q_Tracker t)
                                    then "public" else "private");
               requiredTime := None;
               requiredRatio := None |}
        end
      else no_tracker_info
  | None => no_tracker_info
  end.

(** *** The upsert *)

Definition isSeeding (t : QBittorrentTorrent) : bool :=
  String.eqb (q_State t) "uploading" || String.eqb (q_State t) "stalledUP".

Definition has_hash (hash : string) (r : TorrentRow) : bool :=
  String.eqb (tr_hash r) hash.

(** The columns both statements write, on top of a given link. *)
Definition written (link : option Z) (t : QBittorrentTorrent) (info : TrackerInfo)
    : TorrentRow :=
  {| tr_media_item_id := link;
     tr_hash := q_Hash t;
     tr_tracker_id := trackerID info;
     tr_tracker_name := trackerName info;
     tr_tracker_type := trackerType info;
     tr_seeding_time_seconds := q_SeedingTime t;
     tr_ratio := q_Ratio t;
     tr_seeding_required_seconds := requiredTime info;
     tr_seeding_required_ratio := requiredRatio info;
     tr_is_seeding := isSeeding t |}.

(** [COALESCE($2, media_item_id)]. *)
Definition COALESCE (a b : option Z) : option Z :=
  match a with Some _ => a | None => b end.

Definition with_torrents (db : DB) (rows : list TorrentRow) : DB :=
  {| media_items := media_items db; media_items_seq := media_items_seq db;
     torrents := rows;
     audit_logs := audit_logs db; audit_logs_seq := audit_logs_seq db |}.

(** The value bound to [$2] of the [UPDATE]: nil when nothing was resolved,
    else the resolved id when the row is unlinked or linked elsewhere, else
    the current link. *)
Definition mediaIDVal (db : DB) (t : QBittorrentTorrent) (mediaItemID : option Z)
    : option Z :=
  match mediaItemID with
  | Some resolved =>
      match find (has_hash (q_Hash t)) (torrents db) with
      | Some row =>
          match tr_media_item_id row with
          | None => Some resolved
          | Some current => if negb (current =? resolved) then Some resolved else Some current
          end
      | None => None
      end
  | None => None
  end.

(** One turn of the loop. *)
Definition sync_torrent (prowlarr : option (MediaSync.fetched ProwlarrIndexer))
    (db : DB) (t : QBittorrentTorrent) : DB :=
  let mediaItemID := resolveMediaItem db t in
  let info := trackerInfo prowlarr t in
  match find (has_hash (q_Hash t)) (torrents db) with
  | None =>
      with_torrents db (torrents db ++ [written mediaItemID t info])%list
  | Some _ =>
      let link := mediaIDVal db t mediaItemID in
      with_torrents db
        (map (fun r => if has_hash (q_Hash t) r
                       then written (COALESCE link (tr_media_item_id r)) t info
                       else r)
           (torrents db))
  end.

Definition SyncFromQBittorrent
    (qbittorrent : option (MediaSync.fetched QBittorrentTorrent))
    (prowlarr : option (MediaSync.fetched ProwlarrIndexer))
    (db : DB) : option string * DB :=
  match qbittorrent with
  | None => (Some "qbittorrent integration not enabled", db)
  | Some (MediaSync.FetchError e) =>
      (Some ("failed to fetch torrents from qBittorrent: " ++ e), db)
  | Some (MediaSync.Fetched torrents) =>
      (None, fold_left (sync_torrent prowlarr) torrents db)
  end.

(** *** Notions used to state the properties of a pass *)

(** Every link of [torrents] points to a row of [media_items]. *)
Definition links_valid (db : DB) : Prop :=
  forall r m,
    In r (torrents db) -> tr_media_item_id r = Some m ->
    exists x, In x (media_items db) /\ mi_id x = m.

(** What a pass keeps of a row: its hash; a link, once set; and the whole
    row when its hash is not among those listed. *)
Definition kept_row (listed : list string) (r r' : TorrentRow) : Prop :=
  tr_hash r' = tr_hash r /\
  (tr_media_item_id r <> None -> tr_media_item_id r' <> None) /\
  (~ In (tr_hash r) listed -> r' = r).

(** A row stored without tracker type and without required time. *)
Definition untracked (r : TorrentRow) : Prop :=
  tr_tracker_type r = None /\ tr_seeding_required_seconds r = None.

End TorrentUpsert.

(* ------------------------------------------------------------------ *)
(** ** Media sync: request linkage and the full pass *)

Module RequestSync.
Import Store MediaSync Deletion.

(** The media type of a request in the store's tokens: the type of the
    request, else that of its media object; "tv" is "series". *)
Definition effective_type (req : OverseerrRequest) : string :=
  let mediaType :=
    if String.eqb (or_MediaType req) "" then om_MediaType (or_Media req)
    else or_MediaType req in
  if String.eqb mediaType "tv" then "series" else mediaType.

(** What the lookup leaves in [queryErr] and [mediaItemID]. *)
Inductive lookup :=
| NoRows
| Scanned (mediaItemID : Z).

Definition is_movie_of (tmdb : Z) (r : MediaRow) : bool :=
  opt_eqb (mi_tmdb_id r) tmdb && String.eqb (mi_type r) "movie".

Definition is_series_of (tvdb : Z) (r : MediaRow) : bool :=
  opt_eqb (mi_tvdb_id r) tvdb && String.eqb (mi_type r) "series".

Definition scan_id (r : option MediaRow) : lookup :=
  match r with
  | Some row => Scanned (mi_id row)
  | None => NoRows
  end.

(** [SELECT id FROM media_items WHERE tmdb_id = $1 AND type = 'movie'], or
    the same on [tvdb_id] and 'series'.  When neither query is issued,
    [queryErr] is nil and [mediaItemID] still holds 0. *)
Definition find_media_item (db : DB) (req : OverseerrRequest) : lookup :=
  let mediaType := effective_type req in
  if String.eqb mediaType "movie" && (om_TMDBID (or_Media req) >? 0) then
    scan_id (find (is_movie_of (om_TMDBID (or_Media req))) (media_items db))
  else
    match String.eqb mediaType "series", om_TVDBID (or_Media req) with
    | true, Some tvdb =>
        if tvdb >? 0 then scan_id (find (is_series_of tvdb) (media_items db))
        else Scanned 0
    | _, _ => Scanned 0
    end.

(** [SET overseerr_request_id = $1, requested_by_user_id = $2,
    last_synced_at = CURRENT_TIMESTAMP] on one row. *)
Definition linked (now : Z) (req : OverseerrRequest) (r : MediaRow) : MediaRow :=
  {| mi_id := mi_id r;
     mi_title := mi_title r;
     mi_type := mi_type r;
     mi_tmdb_id := mi_tmdb_id r;
     mi_tvdb_id := mi_tvdb_id r;
     mi_sonarr_id := mi_sonarr_id r;
     mi_radarr_id := mi_radarr_id r;
     mi_overseerr_request_id := Some (or_ID req);
     mi_requested_by_user_id := Some (or_RequestedBy req);
     mi_file_path := mi_file_path r;
     mi_file_size := mi_file_size r;
     mi_added_date := mi_added_date r;
     mi_last_synced_at := now;
     mi_created_at := mi_created_at r;
     mi_updated_at := mi_updated_at r |}.

(** The [UPDATE ... WHERE id = $3].  [requested_by_user_id] references
    [users(id)]: [users] holds the ids of that table, and an update that
    would store an id outside of it is rejected by the store (the error is
    logged and the loop continues). *)
Definition update_linkage (users : list Z) (now : Z) (req : OverseerrRequest)
    (mediaItemID : Z) (db : DB) : DB :=
  if existsb (fun r => mi_id r =? mediaItemID) (media_items db)
     && negb (existsb (Z.eqb (or_RequestedBy req)) users)
  then db
  else
    with_media db
      (map (fun r => if mi_id r =? mediaItemID then linked now req r else r)
         (media_items db))
      (media_items_seq db).

(** One turn of the loop, at the store time [now] of its write. *)
Definition sync_request (users : list Z) (db : DB) (tx : Z * OverseerrRequest) : DB :=
  match find_media_item db (snd tx) with
  | NoRows => db
  | Scanned mediaItemID => update_linkage users (fst tx) (snd tx) mediaItemID db
  end.

Definition stamped_requests (clock : nat -> Z) (requests : list OverseerrRequest)
    : list (Z * OverseerrRequest) :=
  combine (map clock (List.seq 0 (List.length requests))) requests.

Definition SyncOverseerrRequests (overseerr : option (fetched OverseerrRequest))
    (users : list Z) (clock : nat -> Z) (db : DB) : option string * DB :=
  match overseerr with
  | None => (None, db)
  | Some (FetchError e) => (Some ("failed to fetch Overseerr requests: " ++ e), db)
  | Some (Fetched requests) =>
      (None, fold_left (sync_request users) (stamped_requests clock requests) db)
  end.

(** *** [SyncAll]

    A stage runs when its client is not nil; its error is logged and the
    next stage runs on the store it left. *)
Record Adapters := mkAdapters {
  ad_sonarr : option (fetched SonarrSeries);
  ad_radarr : option (fetched RadarrMovie);
  ad_overseerr : option (fetched OverseerrRequest)
}.

Section All.
Variable time_Parse : string -> option Timestamp.

Definition SyncAll (a : Adapters) (users : list Z)
    (clock_sonarr clock_radarr clock_overseerr : nat -> Z) (db : DB)
    : option string * DB :=
  let db :=
    match ad_sonarr a with
    | Some _ => snd (SyncFromSonarr time_Parse (ad_sonarr a) clock_sonarr db)
    | None => db
    end in
  let db :=
    match ad_radarr a with
    | Some _ => snd (SyncFromRadarr time_Parse (ad_radarr a) clock_radarr db)
    | None => db
    end in
  let db :=
    match ad_overseerr a with
    | Some _ => snd (SyncOverseerrRequests (ad_overseerr a) users clock_overseerr db)
    | None => db
    end in
  (None, db).
End All.

(** *** Notions used to state the properties of the request sync *)

(** The constraints the soundness of the linkage rests on: a unique
    primary key, and no row with id 0 (the ids come from a sequence that
    starts at 1). *)
Definition keyed (rows : list MediaRow) : Prop :=
  NoDup (map mi_id rows) /\ Forall (fun r => mi_id r <> 0) rows.

(** Two rows that agree on every column but [overseerr_request_id],
    [requested_by_user_id] and [last_synced_at]. *)
Definition same_but_linkage (r r' : MediaRow) : Prop :=
  mi_id r' = mi_id r /\
  mi_title r' = mi_title r /\
  mi_type r' = mi_type r /\
  mi_tmdb_id r' = mi_tmdb_id r /\
  mi_tvdb_id r' = mi_tvdb_id r /\
  mi_sonarr_id r' = mi_sonarr_id r /\
  mi_radarr_id r' = mi_radarr_id r /\
  mi_file_path r' = mi_file_path r /\
  mi_file_size r' = mi_file_size r /\
  mi_added_date r' = mi_added_date r /\
  mi_created_at r' = mi_created_at r /\
  mi_updated_at r' = mi_updated_at r.

(** The request is for the media of the row: same type, and the external
    id the lookup of that type compares. *)
Definition request_fits (req : OverseerrRequest) (r : MediaRow) : Prop :=
  (effective_type req = "movie" /\ mi_type r = "movie" /\
   mi_tmdb_id r = Some (om_TMDBID (or_Media req))) \/
  (effective_type req = "series" /\ mi_type r = "series" /\
   mi_tvdb_id r = om_TVDBID (or_Media req) /\ om_TVDBID (or_Media req) <> None).

(** The linkage of [r'] is that of [r], or was set from a request of the
    list that fits the row and whose requester is a local user. *)
Definition linked_soundly (users : list Z) (requests : list OverseerrRequest)
    (r r' : MediaRow) : Prop :=
  same_but_linkage r r' /\
  ((mi_overseerr_request_id r' = mi_overseerr_request_id r /\
    mi_requested_by_user_id r' = mi_requested_by_user_id r)
   \/
   exists req,
     In req requests /\
     mi_overseerr_request_id r' = Some (or_ID req) /\
     mi_requested_by_user_id r' = Some (or_RequestedBy req) /\
     In (or_RequestedBy req) users /\
     request_fits req r).

(** A movie row of TMDB id [tmdb]. *)
Definition movie_of (tmdb : Z) (r : MediaRow) : Prop :=
  mi_type r = "movie" /\ mi_tmdb_id r = Some tmdb.

(** The movie rows of TMDB id [tmdb] are the rows of Radarr id [radarrID]. *)
Definition movie_keyed (radarrID tmdb : Z) (rows : list MediaRow) : Prop :=
  forall r, In r rows -> (movie_of tmdb r <-> mi_radarr_id r = Some radarrID).

(** Some row of Radarr id [radarrID] carries the linkage of a request of
    the list. *)
Definition linked_to_one_of (radarrID : Z) (requests : list OverseerrRequest)
    (rows : list MediaRow) : Prop :=
  exists r q,
    In r rows /\ mi_radarr_id r = Some radarrID /\ In q requests /\
    mi_overseerr_request_id r = Some (or_ID q) /\
    mi_requested_by_user_id r = Some (or_RequestedBy q).

(** What the request pass needs of the table to link the movie, and
    keeps: unique ids, [movie_keyed], and a row of Radarr id [radarrID]. *)
Definition ready (radarrID tmdb : Z) (rows : list MediaRow) : Prop :=
  NoDup (map mi_id rows) /\ movie_keyed radarrID tmdb rows /\
  exists r, In r rows /\ mi_radarr_id r = Some radarrID.

End RequestSync.

(* ------------------------------------------------------------------ *)
(** ** The bulk-delete handler ([handleBulkDeleteMedia])

    The handler on a decoded request body: [ids] is the [IDs] field and
    [auth] the user id of the auth context, if any. *)

Module BulkDelete.
Import Store Deletion.

Record BulkResponse := mkBulkResponse {
  br_success : bool;
  br_deleted : Z;
  br_total : Z;
  br_errors : list string
}.

Inductive reply :=
| BadRequest (msg : string)
| Unauthorized (msg : string)
| Json (response : BulkResponse).

(** The loop: the store, the [errors] slice and [successCount] so far. *)
Definition delete_one (w : World) (userID : Z)
    (acc : DB * list string * Z) (id : Z) : DB * list string * Z :=
  let '(db, errors, successCount) := acc in
  match DeleteMediaItem w db id userID with
  | (Some err, db') =>
      (db', (errors ++ [("Media ID " ++ Fmt.d id ++ ": " ++ err)%string])%list, successCount)
  | (None, db') => (db', errors, successCount + 1)
  end.

Definition handleBulkDeleteMedia (w : World) (auth : option Z) (ids : list Z) (db : DB)
    : reply * DB :=
  match ids with
  | [] => (BadRequest "No media IDs provided", db)
  | _ :: _ =>
      match auth with
      | None => (Unauthorized "Unauthorized", db)
      | Some userID =>
          let '(db', errors, successCount) :=
            fold_left (delete_one w userID) ids (db, [], 0) in
          (Json {| br_success := match errors with [] => true | _ :: _ => false end;
                   br_deleted := successCount;
                   br_total := Z.of_nat (List.length ids);
                   br_errors := errors |},
           db')
      end
  end.

(** The id of the row is among the requested ids. *)
Definition listed (ids : list Z) (r : MediaRow) : bool := existsb (Z.eqb (mi_id r)) ids.

End BulkDelete.


(* ------------------------------------------------------------------ *)
(** ** Data for the request pass *)

Module RequestExamples.
Import Store MediaSync Deletion RequestSync.

Definition movie_film : RadarrMovie :=
  {| mo_ID := 4; mo_Title := "Film"; mo_Path := "/data/movies/Film";
     mo_TMDBID := 44; mo_Monitored := true; mo_Status := "released";
     mo_Added := "2024-01-02T03:04:05Z"; mo_QualityProfileID := 1;
     mo_RootFolderPath := "/data/movies"; mo_Statistics := None |}.

(** A request whose own type is empty: the type of its media is used. *)
Definition req_film : OverseerrRequest :=
  {| or_ID := 31; or_MediaID := 8; or_MediaType := ""; or_Status := 2;
     or_RequestedBy := 2;
     or_Media := {| om_ID := 8; om_TMDBID := 44; om_TVDBID := None;
                    om_Title := "Film"; om_MediaType := "movie" |} |}.

(** A request of local user 2 for the movie of TMDB id 101. *)
Definition req_alpha : OverseerrRequest :=
  {| or_ID := 32; or_MediaID := 9; or_MediaType := "movie"; or_Status := 2;
     or_RequestedBy := 2;
     or_Media := {| om_ID := 9; om_TMDBID := 101; om_TVDBID := None;
                    om_Title := "Alpha"; om_MediaType := "movie" |} |}.

(** Sonarr is down, Radarr and Overseerr answer. *)
Definition adapters_film : Adapters :=
  {| ad_sonarr := Some (FetchError "timeout");
     ad_radarr := Some (Fetched [movie_film]);
     ad_overseerr := Some (Fetched [req_film]) |}.

End RequestExamples.
(* ================================================================== *)
(** * Theorems *)

Local Open Scope list_scope.

Module EligibilityFacts.
Import Store Eligibility.

Lemma first_failure_none (ts : list Torrent) :
  first_failure ts = None <->
  Forall (fun t => fst (checkTorrentEligibility t) = true) ts.
Proof.
  induction ts as [|t ts IH]; simpl.
  - split; [constructor | reflexivity].
  - destruct (checkTorrentEligibility t) as [ok reason] eqn:E.
    destruct ok; simpl.
    + rewrite IH. split.
      * intros H. constructor; [rewrite E; reflexivity | exact H].
      * intros H. inversion H; assumption.
    + split; [discriminate|].
      intros H. inversion H as [|? ? Hh _]. rewrite E in Hh. discriminate.
Qed.

Lemma first_failure_some (ts : list Torrent) (reason : string) :
  first_failure ts = Some reason ->
  exists pre t post,
    ts = pre ++ t :: post /\
    Forall (fun t => fst (checkTorrentEligibility t) = true) pre /\
    checkTorrentEligibility t = (false, reason).
Proof.
  induction ts as [|t ts IH]; simpl; [discriminate|].
  destruct (checkTorrentEligibility t) as [ok r] eqn:E.
  destruct ok; simpl.
  - intros H. destruct (IH H) as (pre & t' & post & -> & Hpre & Ht').
    exists (t :: pre), t', post. repeat split; auto.
    constructor; [rewrite E; reflexivity | exact Hpre].
  - intros H. injection H as <-.
    exists [], t, ts. repeat split; auto.
Qed.

Lemma map_eq_app_cons {A B} (f : A -> B) (l : list A)
    (pre : list B) (y : B) (post : list B) :
  map f l = (pre ++ y :: post)%list ->
  exists lpre x lpost,
    l = (lpre ++ x :: lpost)%list /\
    map f lpre = pre /\ f x = y /\ map f lpost = post.
Proof.
  revert pre. induction l as [|a l IH]; intros pre H.
  - destruct pre; discriminate.
  - destruct pre as [|p pre]; simpl in H.
    + injection H as Ha Hl. exists [], a, l. auto.
    + injection H as Ha Hl. destruct (IH _ Hl) as (lp & x & lq & -> & Hp & Hx & Hq).
      exists (a :: lp), x, lq. simpl. rewrite Hp, Ha. auto.
Qed.

(** C2.  On an item with at least one linked torrent, [CheckEligibility]
    answers eligible exactly when every linked torrent passes
    [checkTorrentEligibility]; otherwise the reason returned is the one of
    the first torrent, in scan order, that fails. *)
Theorem CheckEligibility_all_or_first_failure
    (db : DB) (id : Z) (row : MediaRow) :
  media_by_id db id = Some row ->
  torrents_of db id <> [] ->
  exists st,
    CheckEligibility db id = Ok st /\
    (st_IsEligible st = true <-> Forall passes (torrents_of db id)) /\
    (st_IsEligible st = false ->
     exists pre r post,
       torrents_of db id = pre ++ r :: post /\
       Forall passes pre /\
       checkTorrentEligibility (scan r) = (false, st_Reason st)).
Proof.
  intros Hrow Hne. unfold CheckEligibility. rewrite Hrow.
  destruct (torrents_of db id) as [|r0 rs] eqn:Elinked; [congruence|].
  change (map scan (r0 :: rs)) with (scan r0 :: map scan rs).
  cbv zeta.
  destruct (first_failure (scan r0 :: map scan rs)) as [reason|] eqn:Ef.
  - eexists. split; [reflexivity|]. simpl. split.
    + split; [discriminate|]. intros Hall.
      assert (first_failure (map scan (r0 :: rs)) = None) as Hn.
      { apply first_failure_none. apply Forall_map. exact Hall. }
      simpl in Hn. simpl in Ef. congruence.
    + intros _. apply first_failure_some in Ef.
      destruct Ef as (pre & t & post & Hsplit & Hpre & Ht).
      change (scan r0 :: map scan rs) with (map scan (r0 :: rs)) in Hsplit.
      apply map_eq_app_cons in Hsplit.
      destruct Hsplit as (lp & x & lq & Hl & Hp & Hx & Hq).
      exists lp, x, lq. repeat split; [exact Hl | | congruence].
      subst pre. apply Forall_map in Hpre. exact Hpre.
  - eexists. split; [reflexivity|]. simpl. split.
    + split; [|reflexivity]. intros _.
      change (scan r0 :: map scan rs) with (map scan (r0 :: rs)) in Ef.
      apply first_failure_none in Ef. apply Forall_map in Ef. exact Ef.
    + discriminate.
Qed.

Lemma CheckEligibility_all_or_first_failure_witness :
  exists st,
    CheckEligibility Examples.db_elig 1 = Ok st /\
    (st_IsEligible st = true <-> Forall passes (torrents_of Examples.db_elig 1)) /\
    (st_IsEligible st = false ->
     exists pre r post,
       torrents_of Examples.db_elig 1 = pre ++ r :: post /\
       Forall passes pre /\
       checkTorrentEligibility (scan r) = (false, st_Reason st)).
Proof.
  apply (CheckEligibility_all_or_first_failure Examples.db_elig 1
           (Examples.movie 1 "Alpha" "/data/movies/Alpha")).
  - reflexivity.
  - discriminate.
Defined.

Example CheckEligibility_item1 :
  CheckEligibility Examples.db_elig 1 =
  Ok {| st_IsEligible := false;
        st_Reason := "Seeding time 10s < required 3600s";
        st_SeedingTime := 0; st_RequiredTime := None;
        st_SeedingRatio := 0; st_RequiredRatio := None;
        st_TrackerType := "public"; st_IsSeeding := false;
        st_LastWatched := None; st_PlayCount := 0 |}.
Proof. reflexivity. Qed.

(** An item one of whose linked torrents fails is not eligible. *)
Lemma failing_torrent_blocks (db : DB) (id : Z) (row : MediaRow) (r : TorrentRow) :
  media_by_id db id = Some row ->
  In r (torrents_of db id) ->
  fst (checkTorrentEligibility (scan r)) = false ->
  exists st, CheckEligibility db id = Ok st /\ st_IsEligible st = false.
Proof.
  intros Hrow Hin Hfail. unfold CheckEligibility. rewrite Hrow.
  destruct (torrents_of db id) as [|r0 rs] eqn:El; [contradiction|].
  change (map scan (r0 :: rs)) with (scan r0 :: map scan rs). cbv zeta.
  destruct (first_failure (scan r0 :: map scan rs)) eqn:Ef.
  - eexists; split; reflexivity.
  - exfalso.
    change (scan r0 :: map scan rs) with (map scan (r0 :: rs)) in Ef.
    apply first_failure_none in Ef. rewrite Forall_map, Forall_forall in Ef.
    specialize (Ef r Hin). congruence.
Qed.

Lemma not_public (t : Torrent) :
  TrackerType t = Some "private" \/ TrackerType t = None -> is_public t = false.
Proof. unfold is_public. intros [-> | ->]; reflexivity. Qed.

(** C4.  A torrent on a private tracker, or with no tracker type, that
    has no required seeding time fails with the reason
    "Infinite seeding time required", whatever its seeding time, ratio
    and seeding state; an item linked to it is not eligible. *)
Theorem private_without_required_time_fails (t : Torrent) :
  TrackerType t = Some "private" \/ TrackerType t = None ->
  RequiredTime t = None ->
  checkTorrentEligibility t = (false, "Infinite seeding time required") /\
  forall (db : DB) (id : Z) (row : MediaRow) (r : TorrentRow),
    media_by_id db id = Some row ->
    In r (torrents_of db id) ->
    scan r = t ->
    exists st, CheckEligibility db id = Ok st /\ st_IsEligible st = false.
Proof.
  intros Hty Hreq.
  assert (checkTorrentEligibility t = (false, "Infinite seeding time required")) as Hc.
  { unfold checkTorrentEligibility. rewrite (not_public t Hty), Hreq. reflexivity. }
  split; [exact Hc|].
  intros db id row r Hrow Hin <-.
  apply (failing_torrent_blocks db id row r Hrow Hin). rewrite Hc. reflexivity.
Qed.

Lemma private_without_required_time_fails_witness :
  checkTorrentEligibility
    (scan (Examples.torrent 1 "dd" None 99999 900 None None true))
  = (false, "Infinite seeding time required") /\
  exists st, CheckEligibility Examples.db_elig 1 = Ok st /\ st_IsEligible st = false.
Proof.
  destruct (private_without_required_time_fails
              (scan (Examples.torrent 1 "dd" None 99999 900 None None true)))
    as [Hc Hitem].
  - right; reflexivity.
  - reflexivity.
  - split; [exact Hc|].
    apply (Hitem Examples.db_elig 1 (Examples.movie 1 "Alpha" "/data/movies/Alpha")
             (Examples.torrent 1 "dd" None 99999 900 None None true)).
    + reflexivity.
    + simpl. auto.
    + reflexivity.
Defined.

(** C5.  On a private tracker, a torrent whose required seeding time is
    present and met, and whose required ratio, if present, is met, still
    fails with "Torrent is not currently seeding" when [is_seeding] is
    false; an item containing it is not eligible. *)
Theorem private_not_seeding_fails (t : Torrent) (rt : Z) :
  TrackerType t = Some "private" ->
  RequiredTime t = Some rt ->
  rt <= SeedingTime t ->
  (forall rr, RequiredRatio t = Some rr -> rr <= Ratio t) ->
  IsSeeding t = false ->
  checkTorrentEligibility t = (false, "Torrent is not currently seeding") /\
  forall (db : DB) (id : Z) (row : MediaRow) (r : TorrentRow),
    media_by_id db id = Some row ->
    In r (torrents_of db id) ->
    scan r = t ->
    exists st, CheckEligibility db id = Ok st /\ st_IsEligible st = false.
Proof.
  intros Hty Hrt Htime Hratio Hseed.
  assert (checkTorrentEligibility t = (false, "Torrent is not currently seeding")) as Hc.
  { unfold checkTorrentEligibility, time_short, ratio_short.
    rewrite (not_public t (or_introl Hty)), Hrt, Hseed.
    replace (SeedingTime t <? rt) with false by (symmetry; apply Z.ltb_ge; exact Htime).
    destruct (RequiredRatio t) as [rr|]; [|reflexivity].
    replace (Ratio t <? rr) with false
      by (symmetry; apply Z.ltb_ge; apply Hratio; reflexivity).
    reflexivity. }
  split; [exact Hc|].
  intros db id row r Hrow Hin <-.
  apply (failing_torrent_blocks db id row r Hrow Hin). rewrite Hc. reflexivity.
Qed.

Lemma private_not_seeding_fails_witness :
  checkTorrentEligibility
    (scan (Examples.torrent 2 "bb" (Some "private") 7200 200 (Some 3600) (Some 100) false))
  = (false, "Torrent is not currently seeding") /\
  exists st, CheckEligibility Examples.db_elig 2 = Ok st /\ st_IsEligible st = false.
Proof.
  destruct (private_not_seeding_fails
              (scan (Examples.torrent 2 "bb" (Some "private") 7200 200
                       (Some 3600) (Some 100) false)) 3600)
    as [Hc Hitem].
  - reflexivity.
  - reflexivity.
  - simpl; lia.
  - simpl. intros rr Hrr. injection Hrr as <-. lia.
  - reflexivity.
  - split; [exact Hc|].
    apply (Hitem Examples.db_elig 2 (Examples.movie 2 "Beta" "/data/movies/Beta")
             (Examples.torrent 2 "bb" (Some "private") 7200 200
                (Some 3600) (Some 100) false)).
    + reflexivity.
    + simpl. auto.
    + reflexivity.
Defined.

(** C6.  On an existing item with no linked torrent, [CheckEligibility]
    returns a status (no error) that is not eligible, with the reason
    "No torrents found for this media item". *)
Theorem no_torrents_is_not_an_error (db : DB) (id : Z) (row : MediaRow) :
  media_by_id db id = Some row ->
  torrents_of db id = [] ->
  exists st,
    CheckEligibility db id = Ok st /\
    st_IsEligible st = false /\
    st_Reason st = "No torrents found for this media item"%string.
Proof.
  intros Hrow Hnone. unfold CheckEligibility. rewrite Hrow, Hnone. simpl.
  eexists. repeat split.
Qed.

Lemma no_torrents_is_not_an_error_witness :
  exists st,
    CheckEligibility Examples.db_elig 3 = Ok st /\
    st_IsEligible st = false /\
    st_Reason st = "No torrents found for this media item"%string.
Proof.
  apply (no_torrents_is_not_an_error Examples.db_elig 3 (Examples.movie 3 "Gamma" "")).
  - reflexivity.
  - reflexivity.
Defined.

(** C10.  For a torrent on a "public" tracker with an override (a
    required time or a required ratio), the check does not depend on
    [is_seeding]; when every present threshold is met the torrent is
    eligible with reason "Public tracker - eligible", also when it is not
    seeding. *)
Theorem public_override_ignores_is_seeding (t : Torrent) :
  TrackerType t = Some "public" ->
  RequiredTime t <> None \/ RequiredRatio t <> None ->
  (forall b, checkTorrentEligibility (with_IsSeeding t b) = checkTorrentEligibility t) /\
  ((forall rt, RequiredTime t = Some rt -> rt <= SeedingTime t) ->
   (forall rr, RequiredRatio t = Some rr -> rr <= Ratio t) ->
   checkTorrentEligibility t = (true, "Public tracker - eligible")).
Proof.
  intros Hty Hover. split.
  - intros b. unfold checkTorrentEligibility, is_public. simpl. rewrite Hty. reflexivity.
  - intros Htime Hratio.
    unfold checkTorrentEligibility, is_public, time_short, ratio_short.
    rewrite Hty. simpl.
    destruct (RequiredTime t) as [rt|], (RequiredRatio t) as [rr|]; simpl.
    + replace (SeedingTime t <? rt) with false
        by (symmetry; apply Z.ltb_ge; apply Htime; reflexivity).
      replace (Ratio t <? rr) with false
        by (symmetry; apply Z.ltb_ge; apply Hratio; reflexivity).
      reflexivity.
    + replace (SeedingTime t <? rt) with false
        by (symmetry; apply Z.ltb_ge; apply Htime; reflexivity).
      reflexivity.
    + replace (Ratio t <? rr) with false
        by (symmetry; apply Z.ltb_ge; apply Hratio; reflexivity).
      reflexivity.
    + reflexivity.
Qed.

Lemma public_override_ignores_is_seeding_witness :
  checkTorrentEligibility
    (scan (Examples.torrent 4 "ee" (Some "public") 7200 200 (Some 3600) (Some 100) false))
  = (true, "Public tracker - eligible").
Proof.
  destruct (public_override_ignores_is_seeding
              (scan (Examples.torrent 4 "ee" (Some "public") 7200 200
                       (Some 3600) (Some 100) false)))
    as [_ Hmet].
  - reflexivity.
  - left; discriminate.
  - apply Hmet.
    + simpl. intros rt Hrt. injection Hrt as <-. lia.
    + simpl. intros rr Hrr. injection Hrr as <-. lia.
Defined.

Example public_override_unmet :
  checkTorrentEligibility
    (scan (Examples.torrent 4 "ff" (Some "public") 7200 50 (Some 3600) (Some 100) true))
  = (false, "Ratio 0.50 < required 1.00").
Proof. reflexivity. Qed.

End EligibilityFacts.

Module TorrentSyncFacts.
Import Store TorrentSync.

Lemma any_suffix_ext (m1 m2 : string -> bool) :
  (forall s, m1 s = m2 s) ->
  forall s inside, any_suffix m1 s inside = any_suffix m2 s inside.
Proof.
  intros Hm. induction s as [|c s IH]; intros inside; simpl; [apply Hm|].
  rewrite (IH true), Hm. reflexivity.
Qed.

Lemma any_suffix_here (m : string -> bool) (s : string) :
  m s = true -> any_suffix m s false = true.
Proof. intros H. destruct s as [|c s]; simpl; rewrite H; reflexivity. Qed.

Lemma like_percent (s : string) : like "%" s = true.
Proof.
  change (like "%" s) with (any_suffix (like "") s false).
  generalize false. induction s as [|c s IH]; intros inside; [reflexivity|].
  simpl. rewrite IH. destruct (inside && is_continuation c); reflexivity.
Qed.

Lemma literal_cons (c : ascii) (p : string) :
  literal (String c p) = true ->
  Ascii.eqb c "%" = false /\ Ascii.eqb c "_" = false /\ Ascii.eqb c "\" = false /\
  literal p = true.
Proof.
  simpl. intros H.
  apply andb_true_iff in H as [H Hp].
  apply andb_true_iff in H as [H H3].
  apply andb_true_iff in H as [H1 H2].
  apply negb_true_iff in H1, H2, H3. auto.
Qed.

Lemma like_literal_cons (c : ascii) (p s : string) :
  Ascii.eqb c "%" = false -> Ascii.eqb c "_" = false -> Ascii.eqb c "\" = false ->
  like (String c p) s =
  match s with
  | EmptyString => false
  | String x s' => Ascii.eqb c x && like p s'
  end.
Proof. intros H1 H2 H3. simpl. rewrite H1, H2, H3. reflexivity. Qed.

(** With a literal [p], [s LIKE p || '%'] says that [p] is a prefix of [s]. *)
Lemma like_prefix (p : string) :
  literal p = true -> forall s, like (p ++ "%") s = String.prefix p s.
Proof.
  induction p as [|c p IH]; intros Hlit s.
  - simpl append. rewrite like_percent. destruct s; reflexivity.
  - apply literal_cons in Hlit as (H1 & H2 & H3 & Hp).
    change (String c p ++ "%")%string with (String c (p ++ "%")).
    rewrite (like_literal_cons c _ s H1 H2 H3).
    destruct s as [|x s]; [reflexivity|].
    simpl String.prefix. rewrite (IH Hp).
    destruct (ascii_dec c x) as [->|Hne].
    + rewrite Ascii.eqb_refl. reflexivity.
    + apply Ascii.eqb_neq in Hne. rewrite Hne. reflexivity.
Qed.

Lemma like_percent_here (q s : string) :
  like q s = true -> like (String "%" q) s = true.
Proof. intros H. apply (any_suffix_here (like q)). exact H. Qed.

(** With a literal [p], [s LIKE '%' || p || '%'] says that [p] occurs in [s]. *)
Lemma like_contains (p : string) :
  literal p = true -> forall s, like ("%" ++ p ++ "%") s = contains p s.
Proof.
  intros Hlit s.
  change (like ("%" ++ p ++ "%") s) with (any_suffix (like (p ++ "%")) s false).
  unfold contains. apply any_suffix_ext. apply (like_prefix p Hlit).
Qed.

Lemma find_ext_in {A} (f g : A -> bool) (l : list A) :
  (forall a, In a l -> f a = g a) -> find f l = find g l.
Proof.
  induction l as [|a l IH]; intros H; [reflexivity|].
  simpl. rewrite (H a (or_introl eq_refl)).
  destruct (g a); [reflexivity|]. apply IH. intros b Hb. apply H. right; exact Hb.
Qed.

Lemma fold_min_in {A} (lt : A -> A -> bool) (l : list A) (x : A) :
  In (fold_left (fun best y => if lt y best then y else best) l x) (x :: l).
Proof.
  revert x. induction l as [|a l IH]; intros x; simpl; [auto|].
  destruct (IH (if lt a x then a else x)) as [H|H].
  - destruct (lt a x); rewrite <- H; auto.
  - right; right; exact H.
Qed.

Lemma fold_min_ext {A} (lt1 lt2 : A -> A -> bool) (P : A -> Prop) (l : list A) (x : A) :
  (forall a b, P a -> P b -> lt1 a b = lt2 a b) ->
  P x -> Forall P l ->
  fold_left (fun best y => if lt1 y best then y else best) l x =
  fold_left (fun best y => if lt2 y best then y else best) l x.
Proof.
  intros Hext. revert x. induction l as [|a l IH]; intros x Hx Hl; [reflexivity|].
  inversion Hl as [|? ? Ha Hl']; subst. simpl.
  rewrite (Hext a x Ha Hx). apply IH; [|exact Hl'].
  destruct (lt2 a x); assumption.
Qed.

Lemma first_min_ext {A} (lt1 lt2 : A -> A -> bool) (P : A -> Prop) (l : list A) :
  (forall a b, P a -> P b -> lt1 a b = lt2 a b) ->
  Forall P l -> first_min lt1 l = first_min lt2 l.
Proof.
  intros Hext Hl. destruct l as [|x l]; [reflexivity|].
  inversion Hl; subst. simpl. f_equal. apply (fold_min_ext lt1 lt2 P); assumption.
Qed.

Lemma find_none_select {A} (sel : A -> Z) (f : A -> bool) (l : list A) :
  option_map sel (find f l) = None -> forall a, In a l -> f a = false.
Proof.
  intros H a Ha. destruct (find f l) eqn:E; [discriminate|].
  exact (find_none f l E a Ha).
Qed.

Section Literal.
Variable db : DB.
Variable cp : string.
Hypothesis cp_literal : literal cp = true.
Hypothesis rows_literal : literal_rows db.

Lemma row_literal (r : MediaRow) :
  In r (media_items db) ->
  literal (mi_file_path r) = true /\ literal (mi_title r) = true.
Proof.
  intros Hin. unfold literal_rows in rows_literal.
  rewrite Forall_forall in rows_literal. exact (rows_literal r Hin).
Qed.

Lemma query_file_like_content_literal :
  query_file_like_content db cp = content_is_prefix_of_local db cp.
Proof.
  unfold query_file_like_content, content_is_prefix_of_local. f_equal.
  apply find_ext_in. intros r _. rewrite (like_prefix cp cp_literal). reflexivity.
Qed.

Lemma query_content_like_file_literal :
  query_content_like_file db cp = local_is_prefix_of_content db cp.
Proof.
  unfold query_content_like_file, local_is_prefix_of_content. f_equal.
  apply find_ext_in. intros r Hin.
  rewrite (like_prefix _ (proj1 (row_literal r Hin))). reflexivity.
Qed.

(** Once the second query found nothing, the [CASE] key of the fourth
    is the same for every candidate and the shortest path decides. *)
Lemma query_contains_literal :
  query_file_like_content db cp = None ->
  query_contains db cp = contained_shortest_first db cp.
Proof.
  intros Hnone. unfold query_contains, contained_shortest_first. f_equal.
  assert (filter (fun r => like ("%" ++ cp ++ "%") (mi_file_path r)
                           && nonempty (mi_file_path r)) (media_items db)
          = filter (fun r => contains cp (mi_file_path r)
                             && nonempty (mi_file_path r)) (media_items db)) as ->.
  { apply filter_ext. intros r. rewrite (like_contains cp cp_literal). reflexivity. }
  apply (first_min_ext _ _
           (fun r => In r (media_items db) /\ nonempty (mi_file_path r) = true)).
  - intros a b [Ha Hna] [Hb Hnb].
    pose proof (find_none_select _ _ _ Hnone a Ha) as Fa.
    pose proof (find_none_select _ _ _ Hnone b Hb) as Fb.
    cbv beta in Fa, Fb. rewrite Hna, andb_true_r in Fa. rewrite Hnb, andb_true_r in Fb.
    unfold contains_key, lex_lt. rewrite Fa, Fb. simpl. reflexivity.
  - apply Forall_forall. intros r Hr. apply filter_In in Hr as [Hin Hc].
    apply andb_true_iff in Hc as [_ Hn]. auto.
Qed.

Lemma query_name_literal (name : string) :
  query_name db name = title_in_name db name.
Proof.
  unfold query_name, title_in_name. do 2 f_equal.
  apply filter_ext_in. intros r Hin.
  rewrite (like_contains _ (proj2 (row_literal r Hin))). reflexivity.
Qed.

End Literal.

(** C3 (as amended).  For a torrent with a non-empty content path the
    link is resolved by the first hit of: (1) a row whose [file_path]
    equals the content path; (2) a row whose non-empty [file_path] has the
    content path as a prefix; (3) a row whose non-empty [file_path] is a
    prefix of the content path; (4) a row whose non-empty [file_path]
    contains the content path, the path of the fewest characters first.
    When none of these hits, or the content path is empty, a torrent with
    a non-empty name is resolved by (5) the name query: a row whose title
    is a word of the name, or else a row whose title occurs in the name.
    A torrent with neither gets no link.  Prefix and containment are
    literal when no path or title holds a [LIKE] metacharacter. *)
Theorem resolveMediaItem_query_order (db : DB) (t : QBittorrentTorrent) :
  literal (q_ContentPath t) = true ->
  literal_rows db ->
  resolveMediaItem db t = resolve_in_query_order db t.
Proof.
  intros Hcp Hrows. unfold resolveMediaItem, resolve_in_query_order, by_path, by_name.
  cbv zeta.
  rewrite (query_name_literal db Hrows).
  assert (forall o : option Z,
             first_hit (if nonempty (q_Name t) then [o] else []) =
             if nonempty (q_Name t) then o else None) as Hname.
  { intros o. destruct (nonempty (q_Name t)); [destruct o|]; reflexivity. }
  destruct (nonempty (q_ContentPath t)) eqn:Hne; [|simpl; rewrite Hname; reflexivity].
  destruct (query_exact db (q_ContentPath t)) as [id|] eqn:E1; [reflexivity|].
  pose proof (query_contains_literal db _ Hcp) as H4.
  rewrite (query_file_like_content_literal db _ Hcp) in *.
  destruct (content_is_prefix_of_local db (q_ContentPath t)) as [id|] eqn:E2;
    [reflexivity|].
  rewrite (query_content_like_file_literal db _ Hrows).
  destruct (local_is_prefix_of_content db (q_ContentPath t)) as [id|] eqn:E3;
    [reflexivity|].
  rewrite (H4 eq_refl).
  destruct (contained_shortest_first db (q_ContentPath t)); simpl;
    [reflexivity | rewrite Hname; reflexivity].
Qed.

Lemma resolveMediaItem_query_order_witness :
  resolveMediaItem Examples.db_paths Examples.season_torrent =
  resolve_in_query_order Examples.db_paths Examples.season_torrent.
Proof.
  apply (resolveMediaItem_query_order Examples.db_paths Examples.season_torrent).
  - reflexivity.
  - repeat constructor.
Defined.

(** The order of the specification and the order of the queries differ
    on the second and third strategy: with a series folder that is a
    prefix of the content path and an episode file below the content
    path, the code links the episode file, where the order as specified
    would link the folder. *)
Lemma resolveMediaItem_not_specified_order :
  resolveMediaItem Examples.db_paths Examples.season_torrent = Some 2 /\
  resolve_as_specified Examples.db_paths Examples.season_torrent = Some 1.
Proof. split; reflexivity. Qed.

(** The prefix example of the specification: content path
    [/data/movies/X], file path [/data/movies/X/X.mkv]. *)
Example resolveMediaItem_movie_folder :
  resolveMediaItem Examples.db_paths Examples.movie_torrent = Some 3.
Proof. reflexivity. Qed.

(** A metacharacter in the content path is a wildcard of the query. *)
Example resolveMediaItem_wildcard :
  resolveMediaItem Examples.db_paths (Examples.qbt "w" "" "/data/movies/_/X.mkv") = Some 3.
Proof. reflexivity. Qed.

(** Lengths are counted in characters: of two paths that hold the
    content path, the one with fewer characters is linked though it has
    more bytes. *)
Example resolveMediaItem_counts_characters :
  let long := mi_file_path (Examples.movie 1 "Ete"
                ("/m/" ++ Examples.e_acute ++ "t" ++ Examples.e_acute ++ "s/Film.mkv")) in
  resolveMediaItem Examples.db_accents (Examples.qbt "f" "" "Film.mkv") = Some 1 /\
  resolve_in_query_order Examples.db_accents (Examples.qbt "f" "" "Film.mkv") = Some 1 /\
  LENGTH long = 16 /\ String.length long = 18%nat /\
  LENGTH "/m/years/Film.mkv" = 17.
Proof. cbv zeta. repeat split. Qed.

(** [_] stands for one character, of however many bytes. *)
Example like_underscore_character :
  like "_" Examples.e_acute = true /\
  like "__" Examples.e_acute = false /\
  like "%t_s" ("et" ++ Examples.e_acute ++ "s") = true.
Proof. repeat split. Qed.

End TorrentSyncFacts.

Module MediaSyncFacts.
Import Store MediaSync.

(** *** Framing: which columns a pass can change *)

Lemma same_frame_refl (r : MediaRow) : same_frame r r.
Proof. repeat split. Qed.

Lemma same_frame_trans (a b c : MediaRow) :
  same_frame a b -> same_frame b c -> same_frame a c.
Proof.
  unfold same_frame. intros H1 H2.
  repeat match goal with H : _ /\ _ |- _ => destruct H end.
  repeat split; congruence.
Qed.

Lemma same_frame_refreshed (now : Z) (x : Remote) (r : MediaRow) :
  same_frame r (refreshed now x r).
Proof. repeat split. Qed.

Lemma Forall2_same_frame_refl (rows : list MediaRow) : Forall2 same_frame rows rows.
Proof. induction rows; constructor; auto using same_frame_refl. Qed.

Lemma Forall2_same_frame_map (g : MediaRow -> MediaRow) (rows : list MediaRow) :
  (forall r, same_frame r (g r)) -> Forall2 same_frame rows (map g rows).
Proof. intros Hg. induction rows; simpl; constructor; auto. Qed.

Lemma Forall2_same_frame_trans (a b c : list MediaRow) :
  Forall2 same_frame a b -> Forall2 same_frame b c -> Forall2 same_frame a c.
Proof.
  intros Hab. revert c. induction Hab as [|x y a b Hxy Hab IH]; intros c Hbc.
  - inversion Hbc. constructor.
  - inversion Hbc as [|? z ? c' Hyz Hbc']; subst.
    constructor; [eapply same_frame_trans; eauto | apply IH; exact Hbc'].
Qed.

Lemma framed_refl (rows : list MediaRow) : framed rows rows.
Proof.
  exists rows, []. split; [symmetry; apply app_nil_r | apply Forall2_same_frame_refl].
Qed.

Lemma framed_trans (a b c : list MediaRow) : framed a b -> framed b c -> framed a c.
Proof.
  intros (kept & added & -> & Hk) (kept' & added' & -> & Hk').
  apply Forall2_app_inv_l in Hk' as (k1 & k2 & H1 & H2 & ->).
  exists k1, (k2 ++ added'). split; [symmetry; apply app_assoc|].
  eapply Forall2_same_frame_trans; eauto.
Qed.

Lemma framed_map (g : MediaRow -> MediaRow) (rows : list MediaRow) :
  (forall r, same_frame r (g r)) -> framed rows (map g rows).
Proof.
  intros Hg. exists (map g rows), []. split; [symmetry; apply app_nil_r|].
  apply Forall2_same_frame_map; exact Hg.
Qed.

Lemma framed_app (rows added : list MediaRow) : framed rows (rows ++ added).
Proof. exists rows, added. split; [reflexivity | apply Forall2_same_frame_refl]. Qed.

Section Pass.
Variable time_Parse : string -> option Timestamp.
Variable m : Manager.

Lemma sync_item_framed (now : Z) (x : Remote) (db : DB) :
  framed (media_items db) (media_items (sync_item time_Parse m now x db)).
Proof.
  unfold sync_item. destruct (select_by_manager m db (rm_ID x)) as [e|].
  - unfold update_media; simpl. apply framed_map. intros r.
    destruct (mi_id r =? e); [apply same_frame_refreshed | apply same_frame_refl].
  - unfold insert_media. destruct (existsb _ _); simpl.
    + apply framed_map. intros r.
      destruct (has_key m (rm_ID x) r);
        [apply same_frame_refreshed | apply same_frame_refl].
    + apply framed_app.
Qed.

Lemma sync_items_framed (items : list (Z * Remote)) (db : DB) :
  framed (media_items db) (media_items (sync_items time_Parse m items db)).
Proof.
  revert db. induction items as [|tx items IH]; intros db; simpl.
  - apply framed_refl.
  - eapply framed_trans; [apply sync_item_framed | apply IH].
Qed.
End Pass.

(** *** The loop body on a well-formed table *)

Lemma NoDup_snoc {A} (l : list A) (a : A) :
  NoDup l -> ~ In a l -> NoDup (l ++ [a]).
Proof.
  intros Hl Ha. apply (NoDup_Add (a := a) (l := l)); [|split; assumption].
  rewrite <- (app_nil_r l) at 1. apply Add_app.
Qed.

Lemma keys_In (m : Manager) (rows : list MediaRow) (k : Z) :
  In k (keys m rows) <-> exists r, In r rows /\ manager_id m r = Some k.
Proof.
  unfold keys. rewrite in_flat_map. split.
  - intros (r & Hr & Hk). exists r. split; [exact Hr|].
    destruct (manager_id m r) as [k'|]; simpl in Hk; [|contradiction].
    destruct Hk as [->|[]]. reflexivity.
  - intros (r & Hr & Hk). exists r. split; [exact Hr|]. rewrite Hk. left; reflexivity.
Qed.

Lemma has_key_true (m : Manager) (k : Z) (r : MediaRow) :
  has_key m k r = true <-> manager_id m r = Some k.
Proof.
  unfold has_key, opt_eqb. destruct (manager_id m r) as [k'|].
  - rewrite Z.eqb_eq. split; congruence.
  - split; discriminate.
Qed.

Lemma existsb_has_key (m : Manager) (k : Z) (rows : list MediaRow) :
  existsb (has_key m k) rows = true <-> In k (keys m rows).
Proof.
  rewrite existsb_exists, keys_In. split; intros (r & Hr & Hk); exists r;
    (split; [exact Hr | apply has_key_true; exact Hk]).
Qed.

Lemma keys_unique (m : Manager) (rows : list MediaRow) (a b : MediaRow) (k : Z) :
  NoDup (keys m rows) -> In a rows -> In b rows ->
  manager_id m a = Some k -> manager_id m b = Some k -> a = b.
Proof.
  induction rows as [|r rows IH]; intros Hnd Ha Hb Hka Hkb; [contradiction|].
  simpl in Hnd.
  assert (forall c, In c rows -> manager_id m c = Some k ->
                    manager_id m r = Some k -> False) as Hclash.
  { intros c Hc Hkc Hkr. rewrite Hkr in Hnd. simpl in Hnd.
    inversion Hnd as [|? ? Hnot _]; subst. apply Hnot. apply keys_In. eauto. }
  assert (NoDup (keys m rows)) as Hnd'.
  { destruct (manager_id m r); simpl in Hnd; [inversion Hnd; assumption | exact Hnd]. }
  destruct Ha as [<-|Ha], Hb as [<-|Hb].
  - reflexivity.
  - exfalso; eauto.
  - exfalso; eauto.
  - apply IH; assumption.
Qed.

Lemma ids_unique (rows : list MediaRow) (a b : MediaRow) :
  NoDup (map mi_id rows) -> In a rows -> In b rows -> mi_id a = mi_id b -> a = b.
Proof.
  induction rows as [|r rows IH]; intros Hnd Ha Hb Hid; [contradiction|].
  simpl in Hnd. inversion Hnd as [|? ? Hnot Hnd']; subst.
  destruct Ha as [<-|Ha], Hb as [<-|Hb].
  - reflexivity.
  - exfalso. apply Hnot. rewrite Hid. apply in_map; exact Hb.
  - exfalso. apply Hnot. rewrite <- Hid. apply in_map; exact Ha.
  - apply IH; assumption.
Qed.

Lemma keys_map_same (m : Manager) (g : MediaRow -> MediaRow) (rows : list MediaRow) :
  (forall r, manager_id m (g r) = manager_id m r) -> keys m (map g rows) = keys m rows.
Proof.
  intros Hg. unfold keys. induction rows as [|r rows IH]; [reflexivity|].
  simpl. rewrite Hg, IH. reflexivity.
Qed.

Lemma keys_app (m : Manager) (a b : list MediaRow) :
  keys m (a ++ b) = keys m a ++ keys m b.
Proof. unfold keys. apply flat_map_app. Qed.

Lemma manager_id_touch (m m' : Manager) (tx : Z * Remote) (r : MediaRow) :
  manager_id m' (touch m tx r) = manager_id m' r.
Proof. unfold touch. destruct (has_key _ _ _); destruct m'; reflexivity. Qed.

Lemma mi_id_touch (m : Manager) (tx : Z * Remote) (r : MediaRow) :
  mi_id (touch m tx r) = mi_id r.
Proof. unfold touch. destruct (has_key _ _ _); reflexivity. Qed.

Section Upsert.
Variable time_Parse : string -> option Timestamp.
Variable m : Manager.

(** On a well-formed table the loop body is the upsert by manager key. *)
Lemma sync_item_upsert (tx : Z * Remote) (db : DB) :
  well_formed db ->
  sync_item time_Parse m (fst tx) (snd tx) db =
  with_media db
    (fst (upsert_rows m tx (added_date_of time_Parse (snd tx)) (media_items db) (media_items_seq db)))
    (snd (upsert_rows m tx (added_date_of time_Parse (snd tx)) (media_items db) (media_items_seq db))).
Proof.
  intros (Hids & _ & Hs & Hr).
  assert (NoDup (keys m (media_items db))) as Hk by (destruct m; assumption).
  unfold sync_item, select_by_manager, upsert_rows. fold (added_date_of time_Parse (snd tx)).
  destruct (find (has_key m (rm_ID (snd tx))) (media_items db)) as [r0|] eqn:Ef; simpl.
  - apply find_some in Ef as [Hin0 Hk0].
    assert (existsb (has_key m (rm_ID (snd tx))) (media_items db) = true) as ->.
    { apply existsb_exists. eauto. }
    unfold update_media. simpl. f_equal.
    apply map_ext_in. intros r Hin. unfold touch.
    destruct (has_key m (rm_ID (snd tx)) r) eqn:Hkr.
    + assert (r = r0) as ->.
      { apply (keys_unique m (media_items db) _ _ (rm_ID (snd tx))); auto;
          apply has_key_true; assumption. }
      rewrite Z.eqb_refl. reflexivity.
    + destruct (mi_id r =? mi_id r0) eqn:Hid; [|reflexivity].
      apply Z.eqb_eq in Hid.
      assert (r = r0) as -> by (apply (ids_unique (media_items db)); auto).
      congruence.
  - assert (existsb (has_key m (rm_ID (snd tx))) (media_items db) = false) as Hex.
    { apply not_true_is_false. intros H. apply existsb_exists in H as (r & Hin & Hr').
      pose proof (find_none _ _ Ef r Hin). congruence. }
    unfold insert_media. rewrite Hex. reflexivity.
Qed.

Lemma upsert_rows_well_formed (tx : Z * Remote) (d : Timestamp) (db : DB) :
  well_formed db ->
  well_formed
    (with_media db
       (fst (upsert_rows m tx d (media_items db) (media_items_seq db)))
       (snd (upsert_rows m tx d (media_items db) (media_items_seq db)))).
Proof.
  intros (Hids & Hseq & Hs & Hr). unfold upsert_rows.
  destruct (existsb (has_key m (rm_ID (snd tx))) (media_items db)) eqn:Hex;
    unfold well_formed; simpl.
  - rewrite map_map.
    rewrite (map_ext _ mi_id (mi_id_touch m tx)).
    rewrite !keys_map_same by (intros; apply manager_id_touch).
    repeat split; auto.
    apply Forall_forall. intros r Hin. apply in_map_iff in Hin as (r' & <- & Hin).
    rewrite mi_id_touch. rewrite Forall_forall in Hseq. auto.
  - assert (~ In (rm_ID (snd tx)) (keys m (media_items db))) as Hfresh.
    { rewrite <- existsb_has_key. congruence. }
    rewrite map_app, !keys_app. simpl.
    repeat split.
    + apply NoDup_snoc; [exact Hids|].
      intros Hin. apply in_map_iff in Hin as (r & Hid & Hin).
      rewrite Forall_forall in Hseq. specialize (Hseq r Hin). lia.
    + apply Forall_app. split.
      * eapply Forall_impl; [|exact Hseq]. simpl. intros; lia.
      * constructor; [simpl; lia | constructor].
    + destruct m; simpl; [|rewrite app_nil_r; exact Hs].
      apply NoDup_snoc; assumption.
    + destruct m; simpl; [rewrite app_nil_r; exact Hr|].
      apply NoDup_snoc; assumption.
Qed.

Lemma sync_item_well_formed (tx : Z * Remote) (db : DB) :
  well_formed db -> well_formed (sync_item time_Parse m (fst tx) (snd tx) db).
Proof.
  intros Hwf. rewrite sync_item_upsert by exact Hwf.
  apply upsert_rows_well_formed; exact Hwf.
Qed.

Lemma sync_items_well_formed (items : list (Z * Remote)) (db : DB) :
  well_formed db -> well_formed (sync_items time_Parse m items db).
Proof.
  revert db. induction items as [|tx items IH]; intros db Hwf; simpl; [exact Hwf|].
  apply IH. apply sync_item_well_formed; exact Hwf.
Qed.

End Upsert.

Lemma map_snd_combine_same {A B} (a : list A) (b : list B) :
  List.length a = List.length b -> map snd (combine a b) = b.
Proof.
  revert b. induction a as [|x a IH]; intros [|y b] H; simpl in *; try discriminate.
  - reflexivity.
  - f_equal. apply IH. lia.
Qed.

Lemma map_snd_stamped (clock : nat -> Z) (items : list Remote) :
  map snd (stamped clock items) = items.
Proof.
  unfold stamped. apply map_snd_combine_same. rewrite length_map, length_seq. reflexivity.
Qed.

(** *** Records whose timestamp does not parse *)

Section Unparsed.
Variable time_Parse : string -> option Timestamp.
Variable m : Manager.

(** The two ways the loop body changes the table. *)
Lemma sync_item_cases (now : Z) (x : Remote) (db : DB) :
  (In (rm_ID x) (keys m (media_items db)) /\
   exists g, media_items (sync_item time_Parse m now x db) = map g (media_items db) /\
             forall r, same_frame r (g r)) \/
  (~ In (rm_ID x) (keys m (media_items db)) /\
   media_items (sync_item time_Parse m now x db) =
   media_items db ++
   [new_row m now (media_items_seq db) x (added_date_of time_Parse x)]).
Proof.
  unfold sync_item, select_by_manager. fold (added_date_of time_Parse x).
  destruct (find (has_key m (rm_ID x)) (media_items db)) as [r0|] eqn:Ef; simpl.
  - left. apply find_some in Ef as [Hin Hk]. split.
    + apply keys_In. exists r0. split; [exact Hin | apply has_key_true; exact Hk].
    + eexists. split; [reflexivity|]. intros r. cbv beta.
      destruct (mi_id r =? mi_id r0);
        [apply same_frame_refreshed | apply same_frame_refl].
  - right.
    assert (existsb (has_key m (rm_ID x)) (media_items db) = false) as Hex.
    { apply not_true_is_false. intros H. apply existsb_exists in H as (r & Hin & Hr').
      pose proof (find_none _ _ Ef r Hin). congruence. }
    split; [rewrite <- existsb_has_key; congruence|].
    unfold insert_media. rewrite Hex. reflexivity.
Qed.

Lemma same_frame_key (r r' : MediaRow) :
  same_frame r r' -> manager_id m r' = manager_id m r.
Proof. intros (_ & _ & _ & _ & Hs & Hr & _). destruct m; assumption. Qed.

Lemma manager_id_new_row (now id : Z) (x : Remote) (d : Timestamp) :
  manager_id m (new_row m now id x d) = Some (rm_ID x).
Proof. destruct m; reflexivity. Qed.

(** A record with another id leaves the key [k] absent. *)
Lemma sync_item_key_absent (now : Z) (x : Remote) (db : DB) (k : Z) :
  rm_ID x <> k ->
  ~ In k (keys m (media_items db)) ->
  ~ In k (keys m (media_items (sync_item time_Parse m now x db))).
Proof.
  intros Hne Habs.
  destruct (sync_item_cases now x db) as [(_ & g & -> & Hg) | (_ & ->)].
  - rewrite keys_map_same; [exact Habs|]. intros r. apply same_frame_key, Hg.
  - rewrite keys_app. intros Hin. apply in_app_or in Hin as [Hin|Hin]; [auto|].
    apply keys_In in Hin as (r & [<-|[]] & Hk).
    rewrite manager_id_new_row in Hk. congruence.
Qed.

(** Once the row of [k] is there with the zero date, it stays so. *)
Lemma sync_item_zero_dated (now : Z) (x : Remote) (db : DB) (k : Z) :
  zero_dated m k (media_items db) ->
  zero_dated m k (media_items (sync_item time_Parse m now x db)).
Proof.
  intros [Hin Hzero].
  destruct (sync_item_cases now x db) as [(_ & g & -> & Hg) | (Hfresh & ->)].
  - split.
    + rewrite keys_map_same; [exact Hin|]. intros r. apply same_frame_key, Hg.
    + intros r Hr Hk. apply in_map_iff in Hr as (r0 & <- & Hr0).
      pose proof (Hg r0) as Hf. rewrite (same_frame_key _ _ Hf) in Hk.
      destruct Hf as (_ & _ & _ & _ & _ & _ & _ & _ & Hd & _). rewrite Hd. auto.
  - split.
    + rewrite keys_app. apply in_or_app. left; exact Hin.
    + intros r Hr Hk. apply in_app_or in Hr as [Hr|[<-|[]]]; [auto|].
      rewrite manager_id_new_row in Hk. injection Hk as Hk. congruence.
Qed.

Lemma sync_items_zero_dated (items : list (Z * Remote)) (db : DB) (k : Z) :
  zero_dated m k (media_items db) ->
  zero_dated m k (media_items (sync_items time_Parse m items db)).
Proof.
  revert db. induction items as [|tx items IH]; intros db H; simpl; [exact H|].
  apply IH. apply sync_item_zero_dated. exact H.
Qed.

Lemma sync_items_unparsed (items : list (Z * Remote)) (db : DB)
    (pre post : list Remote) (x : Remote) :
  map snd items = pre ++ x :: post ->
  time_Parse (rm_Added x) = None ->
  ~ In (rm_ID x) (keys m (media_items db)) ->
  ~ In (rm_ID x) (map rm_ID pre) ->
  zero_dated m (rm_ID x) (media_items (sync_items time_Parse m items db)).
Proof.
  revert items db. induction pre as [|p pre IH]; intros items db Hsplit Hfail Habs Hpre.
  - destruct items as [|[now y] items]; [discriminate|].
    simpl in Hsplit. injection Hsplit as -> Hpost. simpl.
    apply sync_items_zero_dated.
    destruct (sync_item_cases now x db) as [(Hin & _) | (_ & ->)]; [contradiction|].
    split.
    + rewrite keys_app. apply in_or_app. right. simpl.
      rewrite manager_id_new_row. left; reflexivity.
    + intros r Hr Hk. apply in_app_or in Hr as [Hr|[<-|[]]].
      * exfalso. apply Habs. apply keys_In. eauto.
      * unfold added_date_of. rewrite Hfail. reflexivity.
  - destruct items as [|[now y] items]; [discriminate|].
    simpl in Hsplit. injection Hsplit as -> Hrest. simpl.
    apply (IH items); auto.
    + apply sync_item_key_absent; [|exact Habs].
      intros Heq. apply Hpre. left. exact Heq.
    + intros Hin. apply Hpre. right. exact Hin.
Qed.

End Unparsed.

Lemma keys_Sonarr_In (rows : list MediaRow) (k : Z) :
  In k (keys Sonarr rows) <-> exists r, In r rows /\ mi_sonarr_id r = Some k.
Proof. apply keys_In. Qed.

Lemma keys_Radarr_In (rows : list MediaRow) (k : Z) :
  In k (keys Radarr rows) <-> exists r, In r rows /\ mi_radarr_id r = Some k.
Proof. apply keys_In. Qed.

(** C9 (as amended).  A record whose [added] string does not parse does
    not fail the pass, and the row the pass inserts for it holds the zero
    time (0001-01-01 00:00:00) as its [added_date]. *)
Theorem unparsed_added_date_is_zero_time
    (time_Parse : string -> option Timestamp) (clock : nat -> Z) (db : DB) :
  (forall (pre : list SonarrSeries) (ser : SonarrSeries) (post : list SonarrSeries),
      time_Parse (se_Added ser) = None ->
      ~ In (se_ID ser) (keys Sonarr (media_items db)) ->
      ~ In (se_ID ser) (map se_ID pre) ->
      let res := SyncFromSonarr time_Parse (Some (Fetched (pre ++ ser :: post))) clock db in
      fst res = None /\
      (exists r, In r (media_items (snd res)) /\ mi_sonarr_id r = Some (se_ID ser)) /\
      (forall r, In r (media_items (snd res)) ->
                 mi_sonarr_id r = Some (se_ID ser) ->
                 mi_added_date r = Some zero_time)) /\
  (forall (pre : list RadarrMovie) (movie : RadarrMovie) (post : list RadarrMovie),
      time_Parse (mo_Added movie) = None ->
      ~ In (mo_ID movie) (keys Radarr (media_items db)) ->
      ~ In (mo_ID movie) (map mo_ID pre) ->
      let res := SyncFromRadarr time_Parse (Some (Fetched (pre ++ movie :: post))) clock db in
      fst res = None /\
      (exists r, In r (media_items (snd res)) /\ mi_radarr_id r = Some (mo_ID movie)) /\
      (forall r, In r (media_items (snd res)) ->
                 mi_radarr_id r = Some (mo_ID movie) ->
                 mi_added_date r = Some zero_time)).
Proof.
  split.
  - intros pre ser post Hfail Habs Hpre. simpl.
    destruct (sync_items_unparsed time_Parse Sonarr
                (stamped clock (map of_series (pre ++ ser :: post))) db
                (map of_series pre) (map of_series post) (of_series ser))
      as [Hin Hzero].
    + rewrite map_snd_stamped, map_app. reflexivity.
    + exact Hfail.
    + exact Habs.
    + rewrite map_map. exact Hpre.
    + split; [reflexivity|]. split.
      * apply keys_Sonarr_In. exact Hin.
      * exact Hzero.
  - intros pre movie post Hfail Habs Hpre. simpl.
    destruct (sync_items_unparsed time_Parse Radarr
                (stamped clock (map of_movie (pre ++ movie :: post))) db
                (map of_movie pre) (map of_movie post) (of_movie movie))
      as [Hin Hzero].
    + rewrite map_snd_stamped, map_app. reflexivity.
    + exact Hfail.
    + exact Habs.
    + rewrite map_map. exact Hpre.
    + split; [reflexivity|]. split.
      * apply keys_Radarr_In. exact Hin.
      * exact Hzero.
Qed.


(** *** Running a pass twice *)

Section Twice.
Variable time_Parse : string -> option Timestamp.
Variable m : Manager.

Lemma last_match_snoc (k : Z) (recs : list Remote) (x : Remote) :
  last_match k (recs ++ [x]) = if rm_ID x =? k then Some x else last_match k recs.
Proof. unfold last_match. rewrite fold_left_app. reflexivity. Qed.

Lemma sync_items_snoc (items : list (Z * Remote)) (tx : Z * Remote) (db : DB) :
  sync_items time_Parse m (items ++ [tx]) db =
  sync_item time_Parse m (fst tx) (snd tx) (sync_items time_Parse m items db).
Proof. unfold sync_items. rewrite fold_left_app. reflexivity. Qed.

Lemma shows_refreshed (now : Z) (x : Remote) (r : MediaRow) :
  shows (refreshed now x r) x.
Proof. repeat split. Qed.

Lemma shows_new_row (now id : Z) (x : Remote) (d : Timestamp) :
  shows (new_row m now id x d) x.
Proof. repeat split. Qed.

(** After a pass every keyed row shows the last record with its key. *)
Lemma settled_after (items : list (Z * Remote)) (db : DB) :
  well_formed db ->
  settled m (map snd items) (media_items (sync_items time_Parse m items db)).
Proof.
  intros Hwf. induction items as [|tx items IH] using rev_ind.
  - intros r k x _ _ H. discriminate.
  - rewrite sync_items_snoc, map_app. simpl map.
    pose proof (sync_items_well_formed time_Parse m items db Hwf) as Hwf'.
    rewrite (sync_item_upsert time_Parse m tx _ Hwf'). simpl.
    set (db' := sync_items time_Parse m items db) in *.
    intros r k x Hin Hk Hlast. rewrite last_match_snoc in Hlast.
    unfold upsert_rows in Hin.
    destruct (existsb (has_key m (rm_ID (snd tx))) (media_items db')) eqn:Hex;
      simpl in Hin.
    + apply in_map_iff in Hin as (r0 & <- & Hin0).
      rewrite manager_id_touch in Hk. unfold touch.
      destruct (has_key m (rm_ID (snd tx)) r0) eqn:Hkey.
      * apply has_key_true in Hkey. rewrite Hk in Hkey. injection Hkey as Hkey.
        subst k. rewrite Z.eqb_refl in Hlast. injection Hlast as Hlast. subst x.
        apply shows_refreshed.
      * assert ((rm_ID (snd tx) =? k) = false) as Hne.
        { apply not_true_is_false. intros H. apply Z.eqb_eq in H. subst k.
          apply has_key_true in Hk. congruence. }
        rewrite Hne in Hlast. exact (IH r0 k x Hin0 Hk Hlast).
    + apply in_app_or in Hin as [Hin0|[<-|[]]].
      * assert ((rm_ID (snd tx) =? k) = false) as Hne.
        { apply not_true_is_false. intros H. apply Z.eqb_eq in H. subst k.
          assert (existsb (has_key m (rm_ID (snd tx))) (media_items db') = true)
            by (apply existsb_exists; exists r; split;
                [exact Hin0 | apply has_key_true; exact Hk]).
          congruence. }
        rewrite Hne in Hlast. exact (IH r k x Hin0 Hk Hlast).
      * rewrite manager_id_new_row in Hk. injection Hk as Hk. subst k.
        rewrite Z.eqb_refl in Hlast. injection Hlast as Hlast. subst x.
        apply shows_new_row.
Qed.

Lemma sync_item_keys_grow (now : Z) (x : Remote) (db : DB) (k : Z) :
  In k (keys m (media_items db)) ->
  In k (keys m (media_items (sync_item time_Parse m now x db))).
Proof.
  intros Hin.
  destruct (sync_item_cases time_Parse m now x db) as [(_ & g & -> & Hg) | (_ & ->)].
  - rewrite keys_map_same; [exact Hin|]. intros r. apply same_frame_key, Hg.
  - rewrite keys_app. apply in_or_app. left; exact Hin.
Qed.

Lemma sync_item_keys_own (now : Z) (x : Remote) (db : DB) :
  In (rm_ID x) (keys m (media_items (sync_item time_Parse m now x db))).
Proof.
  destruct (sync_item_cases time_Parse m now x db) as [(Hin & g & -> & Hg) | (_ & ->)].
  - rewrite keys_map_same; [exact Hin|]. intros r. apply same_frame_key, Hg.
  - rewrite keys_app. apply in_or_app. right. simpl.
    rewrite manager_id_new_row. left; reflexivity.
Qed.

(** After a pass every record has its row. *)
Lemma covered_after (items : list (Z * Remote)) (db : DB) :
  covered m (map snd items) (media_items (sync_items time_Parse m items db)).
Proof.
  induction items as [|tx items IH] using rev_ind.
  - intros x [].
  - rewrite sync_items_snoc, map_app. intros x Hx. apply existsb_has_key.
    apply in_app_or in Hx as [Hx|[<-|[]]].
    + apply sync_item_keys_grow. apply existsb_has_key. apply IH. exact Hx.
    + apply sync_item_keys_own.
Qed.

(** On a table where every record has its row, a pass only refreshes. *)
Lemma sync_items_covered (items : list (Z * Remote)) (db : DB) :
  well_formed db ->
  covered m (map snd items) (media_items db) ->
  media_items (sync_items time_Parse m items db) =
  map (touch_all m items) (media_items db).
Proof.
  revert db. induction items as [|tx items IH]; intros db Hwf Hcov; simpl.
  - symmetry. apply map_id.
  - assert (existsb (has_key m (rm_ID (snd tx))) (media_items db) = true) as Hex
      by (apply Hcov; left; reflexivity).
    pose proof (sync_item_well_formed time_Parse m tx db Hwf) as Hwf'.
    pose proof (sync_item_upsert time_Parse m tx db Hwf) as Hstep.
    unfold upsert_rows in Hstep. rewrite Hex in Hstep. simpl in Hstep.
    rewrite IH.
    + rewrite Hstep. simpl. rewrite map_map. reflexivity.
    + exact Hwf'.
    + rewrite Hstep. simpl. intros x Hx. apply existsb_has_key.
      rewrite keys_map_same by (intros; apply manager_id_touch).
      apply existsb_has_key. apply Hcov. right; exact Hx.
Qed.

Lemma touch_all_snoc (items : list (Z * Remote)) (tx : Z * Remote) (r : MediaRow) :
  touch_all m (items ++ [tx]) r = touch m tx (touch_all m items r).
Proof. unfold touch_all. rewrite fold_left_app. reflexivity. Qed.

Lemma same_frame_touch (tx : Z * Remote) (r : MediaRow) : same_frame r (touch m tx r).
Proof.
  unfold touch. destruct (has_key _ _ _);
    [apply same_frame_refreshed | apply same_frame_refl].
Qed.

(** What the refreshes of a pass leave on one row. *)
Lemma touch_all_shows (items : list (Z * Remote)) (r : MediaRow) :
  same_frame r (touch_all m items r) /\
  match manager_id m r with
  | Some k =>
      match last_match k (map snd items) with
      | Some x => shows (touch_all m items r) x
      | None => touch_all m items r = r
      end
  | None => touch_all m items r = r
  end.
Proof.
  induction items as [|tx items [IHf IHs]] using rev_ind.
  - split; [apply same_frame_refl|]. destruct (manager_id m r); reflexivity.
  - rewrite touch_all_snoc, map_app. simpl map. split.
    + eapply same_frame_trans; [exact IHf | apply same_frame_touch].
    + pose proof (same_frame_key m _ _ IHf) as Hkey.
      unfold touch, has_key. rewrite Hkey.
      destruct (manager_id m r) as [k|] eqn:Hk; simpl.
      * rewrite last_match_snoc. rewrite (Z.eqb_sym (rm_ID (snd tx)) k).
        destruct (k =? rm_ID (snd tx)); [apply shows_refreshed | exact IHs].
      * exact IHs.
Qed.

Lemma settled_touch_all (items : list (Z * Remote)) (rows : list MediaRow) :
  settled m (map snd items) rows ->
  Forall2 same_but_synced rows (map (touch_all m items) rows).
Proof.
  intros Hset.
  assert (forall r, In r rows -> same_but_synced r (touch_all m items r)) as Hrow.
  { intros r Hin. destruct (touch_all_shows items r) as [Hf Hs].
    split; [exact Hf|].
    destruct (manager_id m r) as [k|] eqn:Hk.
    - destruct (last_match k (map snd items)) as [x|] eqn:Hl.
      + destruct (Hset r k x Hin Hk Hl) as (T & P & S).
        destruct Hs as (T' & P' & S'). repeat split; congruence.
      + rewrite Hs. repeat split.
    - rewrite Hs. repeat split. }
  clear Hset. induction rows as [|r rows IH]; simpl; constructor.
  - apply Hrow. left; reflexivity.
  - apply IH. intros r' Hr'. apply Hrow. right; exact Hr'.
Qed.

(** Two passes over the same records. *)
Lemma sync_items_twice (items1 items2 : list (Z * Remote)) (db : DB) :
  well_formed db ->
  map snd items2 = map snd items1 ->
  Forall2 same_but_synced
    (media_items (sync_items time_Parse m items1 db))
    (media_items (sync_items time_Parse m items2 (sync_items time_Parse m items1 db))).
Proof.
  intros Hwf Hsame.
  pose proof (sync_items_well_formed time_Parse m items1 db Hwf) as Hwf1.
  rewrite (sync_items_covered items2 _ Hwf1).
  - apply settled_touch_all. rewrite Hsame. apply settled_after. exact Hwf.
  - rewrite Hsame. apply covered_after.
Qed.

End Twice.

(** C7 (as amended).  On a store that satisfies its constraints, a second
    [SyncFromSonarr] over the same series list leaves [media_items] with
    the same number of rows and, row by row, the same values in every
    column but [last_synced_at]; the manager ids of the rows stay free of
    duplicates. *)
Theorem SyncFromSonarr_twice
    (time_Parse : string -> option Timestamp) (series : list SonarrSeries)
    (clock1 clock2 : nat -> Z) (db : DB) :
  well_formed db ->
  let db1 := snd (SyncFromSonarr time_Parse (Some (Fetched series)) clock1 db) in
  let db2 := snd (SyncFromSonarr time_Parse (Some (Fetched series)) clock2 db1) in
  List.length (media_items db2) = List.length (media_items db1) /\
  Forall2 same_but_synced (media_items db1) (media_items db2) /\
  NoDup (keys Sonarr (media_items db1)) /\
  NoDup (keys Sonarr (media_items db2)).
Proof.
  intros Hwf. simpl.
  set (items1 := stamped clock1 (map of_series series)).
  set (items2 := stamped clock2 (map of_series series)).
  pose proof (sync_items_well_formed time_Parse Sonarr items1 db Hwf) as Hwf1.
  pose proof (sync_items_well_formed time_Parse Sonarr items2 _ Hwf1) as Hwf2.
  assert (Forall2 same_but_synced
            (media_items (sync_items time_Parse Sonarr items1 db))
            (media_items (sync_items time_Parse Sonarr items2
                            (sync_items time_Parse Sonarr items1 db)))) as H2.
  { apply sync_items_twice; [exact Hwf|].
    unfold items1, items2. rewrite !map_snd_stamped. reflexivity. }
  repeat split.
  - symmetry. eapply Forall2_length. exact H2.
  - exact H2.
  - apply Hwf1.
  - apply Hwf2.
Qed.


(** C8.  A pass of [SyncFromSonarr] or [SyncFromRadarr] keeps every row
    of [media_items] in place and changes on it at most [title],
    [file_path], [file_size] and [last_synced_at]: the request-manager id
    and the owning user of a row are what they were. *)
Theorem sync_preserves_linkage
    (time_Parse : string -> option Timestamp)
    (sonarr : option (fetched SonarrSeries)) (radarr : option (fetched RadarrMovie))
    (clock : nat -> Z) (db : DB) :
  framed (media_items db)
    (media_items (snd (SyncFromSonarr time_Parse sonarr clock db))) /\
  framed (media_items db)
    (media_items (snd (SyncFromRadarr time_Parse radarr clock db))).
Proof.
  split.
  - unfold SyncFromSonarr. destruct sonarr as [[series|e]|]; simpl;
      [apply sync_items_framed | apply framed_refl | apply framed_refl].
  - unfold SyncFromRadarr. destruct radarr as [[movies|e]|]; simpl;
      [apply sync_items_framed | apply framed_refl | apply framed_refl].
Qed.

Lemma SyncFromSonarr_twice_witness :
  let db1 := snd (SyncFromSonarr parseRFC3339 (Some (Fetched Examples.series_list))
                    (fun n => 100 + Z.of_nat n) Examples.db_empty) in
  let db2 := snd (SyncFromSonarr parseRFC3339 (Some (Fetched Examples.series_list))
                    (fun n => 200 + Z.of_nat n) db1) in
  List.length (media_items db2) = List.length (media_items db1) /\
  Forall2 same_but_synced (media_items db1) (media_items db2) /\
  NoDup (keys Sonarr (media_items db1)) /\
  NoDup (keys Sonarr (media_items db2)).
Proof.
  apply (SyncFromSonarr_twice parseRFC3339 Examples.series_list
           (fun n => 100 + Z.of_nat n) (fun n => 200 + Z.of_nat n) Examples.db_empty).
  repeat split; constructor.
Defined.

(** The second pass stamps the rows anew: the tables after the first and
    after the second pass differ in [last_synced_at]. *)
Lemma SyncFromSonarr_twice_restamps :
  let db1 := snd (SyncFromSonarr parseRFC3339 (Some (Fetched Examples.series_list))
                    (fun n => 100 + Z.of_nat n) Examples.db_empty) in
  let db2 := snd (SyncFromSonarr parseRFC3339 (Some (Fetched Examples.series_list))
                    (fun n => 200 + Z.of_nat n) db1) in
  map mi_last_synced_at (media_items db1) = [102; 101] /\
  map mi_last_synced_at (media_items db2) = [202; 201] /\
  media_items db2 <> media_items db1.
Proof.
  cbv zeta. split; [reflexivity|]. split; [reflexivity|].
  intros H. apply (f_equal (map mi_last_synced_at)) in H.
  vm_compute in H. discriminate H.
Qed.

Lemma unparsed_added_date_is_zero_time_witness :
  let res := SyncFromSonarr parseRFC3339
               (Some (Fetched ([Examples.ser 1 "Show" "/data/tv/Show"
                                  "2023-05-06T07:08:09Z" (Some 900)]
                               ++ Examples.undated_series :: [])))
               (fun n => 100 + Z.of_nat n) Examples.db_empty in
  fst res = None /\
  (exists r, In r (media_items (snd res)) /\ mi_sonarr_id r = Some 7) /\
  (forall r, In r (media_items (snd res)) ->
             mi_sonarr_id r = Some 7 -> mi_added_date r = Some zero_time).
Proof.
  destruct (unparsed_added_date_is_zero_time parseRFC3339
              (fun n => 100 + Z.of_nat n) Examples.db_empty) as [Hsonarr _].
  apply (Hsonarr [Examples.ser 1 "Show" "/data/tv/Show" "2023-05-06T07:08:09Z" (Some 900)]
           Examples.undated_series []).
  - reflexivity.
  - simpl. tauto.
  - simpl. intros [H|[]]. discriminate H.
Defined.

(** The [added_date] stored for a record whose timestamp does not parse
    is not NULL. *)
Lemma unparsed_added_date_not_null :
  let res := SyncFromSonarr parseRFC3339 (Some (Fetched [Examples.undated_series]))
               (fun n => 100 + Z.of_nat n) Examples.db_empty in
  parseRFC3339 (se_Added Examples.undated_series) = None /\
  fst res = None /\
  map (fun r => (mi_sonarr_id r, mi_added_date r)) (media_items (snd res)) =
  [(Some 7, Some (mkTimestamp 1 1 1 0 0 0 0))] /\
  ~ (forall r, In r (media_items (snd res)) -> mi_added_date r = None).
Proof.
  cbv zeta. repeat split.
  intros H. specialize (H _ (or_introl eq_refl)). discriminate H.
Qed.

(** The reading of [added] is as lenient as the layout parser of Go: an
    hour of one digit, a comma before the fraction and a zone offset of 24
    hours are accepted; a day the month does not have, a space in place of
    the T and the empty string are not. *)
Example parseRFC3339_readings :
  parseRFC3339 "2024-01-02T03:04:05Z" = Some (mkTimestamp 2024 1 2 3 4 5 0) /\
  parseRFC3339 "2024-01-02T03:04:05.25+02:00" = Some (mkTimestamp 2024 1 2 3 4 5 250000000) /\
  parseRFC3339 "2024-01-02T3:04:05Z" = Some (mkTimestamp 2024 1 2 3 4 5 0) /\
  parseRFC3339 "2024-01-02T03:04:05,5Z" = Some (mkTimestamp 2024 1 2 3 4 5 500000000) /\
  parseRFC3339 "2024-01-02T03:04:05+24:00" = Some (mkTimestamp 2024 1 2 3 4 5 0) /\
  parseRFC3339 "2024-02-30T03:04:05Z" = None /\
  parseRFC3339 "2024-01-02 03:04:05Z" = None /\
  parseRFC3339 "2024-01-02T03:04:05" = None /\
  parseRFC3339 "" = None.
Proof. repeat split. Qed.

End MediaSyncFacts.

Module DeletionFacts.
Import Store Deletion.

(** *** The collected errors are the failures of the steps *)

Lemma step_files_failures (w : World) (row : MediaRow) (errors : list string) :
  step_files w row errors = errors ++ files_failures w row.
Proof.
  unfold step_files, files_failures.
  destruct (mi_file_path row) as [|c p]; simpl; [symmetry; apply app_nil_r|].
  destruct (deleteFiles w (String c p)); [reflexivity | symmetry; apply app_nil_r].
Qed.

Lemma step_manager_failures (w : World) (row : MediaRow) (errors : list string) :
  step_manager w row errors = errors ++ manager_failures w row.
Proof.
  unfold step_manager, manager_failures.
  destruct (String.eqb (mi_type row) "series"), (mi_sonarr_id row) as [sid|],
    (sonarr w) as [sc|]; simpl;
    try (destruct (DeleteSeries sc sid false false);
         [destruct (UnmonitorSeries sc sid)|];
         solve [reflexivity | symmetry; apply app_nil_r]);
    destruct (String.eqb (mi_type row) "movie"), (mi_radarr_id row) as [rid|],
      (radarr w) as [rc|]; simpl;
    try (destruct (DeleteMovie rc rid false false);
         [destruct (UnmonitorMovie rc rid)|]);
    solve [reflexivity | symmetry; apply app_nil_r].
Qed.

Lemma step_request_failures (w : World) (row : MediaRow) (errors : list string) :
  step_request w row errors = errors ++ request_failures w row.
Proof.
  unfold step_request, request_failures.
  destruct (overseerr w) as [c|]; [|symmetry; apply app_nil_r].
  cbv zeta. destruct (requestID c row >? 0); [|symmetry; apply app_nil_r].
  destruct (DeleteRequest c (requestID c row)); [reflexivity | symmetry; apply app_nil_r].
Qed.

Lemma step_torrents_failures (w : World) (db : DB) (mediaID : Z) (errors : list string) :
  step_torrents w (torrentHashes w db mediaID) errors =
  errors ++ torrent_failures w db mediaID.
Proof.
  unfold step_torrents, torrent_failures.
  destruct (qbittorrent w) as [c|]; [|symmetry; apply app_nil_r].
  generalize (torrentHashes w db mediaID) as hashes. intros hashes. revert errors.
  induction hashes as [|h hashes IH]; intros errors; simpl.
  - symmetry; apply app_nil_r.
  - rewrite IH. destruct (DeleteTorrent c h true); simpl.
    + rewrite <- app_assoc. reflexivity.
    + reflexivity.
Qed.

Lemma steps_failures (w : World) (db : DB) (mediaID : Z) (row : MediaRow) :
  step_torrents w (torrentHashes w db mediaID)
    (step_request w row (step_manager w row (step_files w row []))) =
  failures w db mediaID row.
Proof.
  rewrite step_torrents_failures, step_request_failures, step_manager_failures,
    step_files_failures.
  unfold failures. simpl. rewrite <- !app_assoc. reflexivity.
Qed.

(** *** No failure reported, step by step *)

Lemma files_failures_nil (w : World) (row : MediaRow) :
  files_failures w row = [] <-> files_ok w row.
Proof.
  unfold files_failures, files_ok.
  destruct (mi_file_path row) as [|c p].
  - split; auto.
  - destruct (deleteFiles w (String c p)); split; try discriminate; auto.
    intros [H|H]; discriminate.
Qed.

Lemma manager_failures_nil (w : World) (row : MediaRow) :
  manager_failures w row = [] <-> manager_ok w row.
Proof.
  unfold manager_failures, manager_ok.
  destruct (String.eqb (mi_type row) "series") eqn:Es.
  - apply String.eqb_eq in Es.
    assert (String.eqb (mi_type row) "movie" = false) as Em
      by (rewrite Es; reflexivity).
    assert (mi_type row <> "movie"%string) as Hm by (rewrite Es; discriminate).
    rewrite Em.
    destruct (mi_sonarr_id row) as [sid|], (sonarr w) as [sc|]; simpl;
      try (split; [intros _; split; intros; congruence | reflexivity]).
    destruct (DeleteSeries sc sid false false) eqn:Ed;
      [destruct (UnmonitorSeries sc sid) eqn:Eu|].
    + split; [discriminate|]. intros [H _].
      destruct (H sid sc Es eq_refl eq_refl); congruence.
    + split; [|reflexivity]. intros _. split; intros; [|congruence].
      right. congruence.
    + split; [|reflexivity]. intros _. split; intros; [|congruence].
      left. congruence.
  - assert (mi_type row <> "series"%string) as Hs
      by (intros H; rewrite H in Es; discriminate).
    simpl.
    destruct (String.eqb (mi_type row) "movie") eqn:Em; simpl;
      [|split; [intros _; split; intros; [congruence|] | reflexivity];
        apply String.eqb_neq in Em; congruence].
    apply String.eqb_eq in Em.
    destruct (mi_radarr_id row) as [rid|], (radarr w) as [rc|]; simpl;
      try (split; [intros _; split; intros; congruence | reflexivity]).
    destruct (DeleteMovie rc rid false false) eqn:Ed;
      [destruct (UnmonitorMovie rc rid) eqn:Eu|].
    + split; [discriminate|]. intros [_ H].
      destruct (H rid rc Em eq_refl eq_refl); congruence.
    + split; [|reflexivity]. intros _. split; intros; [congruence|].
      right. congruence.
    + split; [|reflexivity]. intros _. split; intros; [congruence|].
      left. congruence.
Qed.

Lemma request_failures_nil (w : World) (row : MediaRow) :
  request_failures w row = [] <-> request_ok w row.
Proof.
  unfold request_failures, request_ok.
  destruct (overseerr w) as [c|]; [|split; [intros; congruence | reflexivity]].
  destruct (requestID c row >? 0) eqn:Epos.
  - apply Z.gtb_lt in Epos.
    destruct (DeleteRequest c (requestID c row)) eqn:Ed.
    + split; [discriminate|]. intros H.
      specialize (H c eq_refl ltac:(lia)). congruence.
    + split; [|reflexivity]. intros _ c' Hc _. injection Hc as <-. exact Ed.
  - split; [|reflexivity]. intros _ c' Hc Hpos. injection Hc as <-.
    apply Z.gt_lt, Z.gtb_lt in Hpos. congruence.
Qed.

Lemma flat_map_nil {A B} (f : A -> list B) (l : list A) :
  flat_map f l = [] <-> forall a, In a l -> f a = [].
Proof.
  induction l as [|a l IH]; simpl.
  - split; [intros _ a [] | reflexivity].
  - split.
    + intros H. apply app_eq_nil in H as [Ha Hl]. intros b [<-|Hb]; [exact Ha|].
      apply IH; assumption.
    + intros H. rewrite (H a (or_introl eq_refl)). simpl. apply IH.
      intros b Hb. apply H. right; exact Hb.
Qed.

Lemma torrent_failures_nil (w : World) (db : DB) (mediaID : Z) :
  torrent_failures w db mediaID = [] <-> torrents_ok w db mediaID.
Proof.
  unfold torrent_failures, torrents_ok.
  destruct (qbittorrent w) as [c|]; [|split; [intros; congruence | reflexivity]].
  rewrite flat_map_nil. split.
  - intros H c' hash Hc Hin. injection Hc as <-. specialize (H hash Hin).
    destruct (DeleteTorrent c hash true); [discriminate | reflexivity].
  - intros H hash Hin. rewrite (H c hash eq_refl Hin). reflexivity.
Qed.

Lemma failures_nil (w : World) (db : DB) (mediaID : Z) (row : MediaRow) :
  failures w db mediaID row = [] <->
  files_ok w row /\ manager_ok w row /\ request_ok w row /\ torrents_ok w db mediaID.
Proof.
  unfold failures.
  rewrite <- files_failures_nil, <- manager_failures_nil, <- request_failures_nil,
    <- torrent_failures_nil.
  split.
  - intros H. apply app_eq_nil in H as [H1 H]. apply app_eq_nil in H as [H2 H].
    apply app_eq_nil in H as [H3 H4]. auto.
  - intros (-> & -> & -> & ->). reflexivity.
Qed.

(** *** The local effect of the [DELETE] *)

Lemma media_by_id_deleted (db : DB) (mediaID : Z) :
  media_by_id (delete_media db mediaID) mediaID = None.
Proof.
  unfold media_by_id, delete_media. simpl.
  induction (media_items db) as [|r rows IH]; simpl; [reflexivity|].
  destruct (mi_id r =? mediaID) eqn:E; simpl; [exact IH|].
  rewrite E. exact IH.
Qed.

(** *** The audit row

    The text the call binds to [details] begins with the letter D of
    "Deleted media", whatever the title, the type and the errors are: it
    is not JSON, and the [INSERT] is rejected for every call. *)
Lemma details_not_json (row : MediaRow) (errors : list string) :
  starts_json (details row errors) = false.
Proof. reflexivity. Qed.

Lemma insert_audit_rejected (o : StoreOutcome) (db : DB) (userID mediaID : Z)
    (row : MediaRow) (errors : list string) :
  insert_audit o db userID mediaID row (details row errors) =
  (Some "ERROR: invalid input syntax for type json (SQLSTATE 22P02)"%string, db).
Proof. unfold insert_audit. rewrite details_not_json. reflexivity. Qed.

(** What a call on an existing row returns and leaves, when the store
    executes the lookup and the [DELETE]. *)
Lemma DeleteMediaItem_outcome (w : World) (db : DB) (mediaID userID : Z) (row : MediaRow) :
  media_by_id db mediaID = Some row ->
  store_ok w ->
  DeleteMediaItem w db mediaID userID =
  (match failures w db mediaID row with
   | [] => None
   | _ :: _ =>
       Some ("deletion completed with errors: " ++ Fmt.v (failures w db mediaID row))%string
   end,
   delete_media db mediaID).
Proof.
  intros Hrow (Hsel & Hdel). unfold DeleteMediaItem.
  rewrite Hsel, Hrow, Hdel. cbv zeta.
  rewrite steps_failures, insert_audit_rejected. cbn [snd].
  destruct (failures w db mediaID row); reflexivity.
Qed.

(** No call writes an audit row, whatever the store and the collaborators
    answer: afterwards [audit_logs] holds the rows it held, those of the
    deleted item unlinked by the foreign key. *)
Lemma DeleteMediaItem_never_audits (w : World) (db : DB) (mediaID userID : Z) :
  let db' := snd (DeleteMediaItem w db mediaID userID) in
  audit_logs db' = audit_logs db \/
  audit_logs db' = map (unlink mediaID) (audit_logs db).
Proof.
  cbv zeta. unfold DeleteMediaItem.
  destruct (select_media_err (store w)); [left; reflexivity|].
  destruct (media_by_id db mediaID) as [row|]; [|left; reflexivity].
  cbv zeta. rewrite insert_audit_rejected. cbn [snd].
  destruct (delete_media_err (store w)); [left; reflexivity|].
  right. destruct (step_torrents _ _ _); reflexivity.
Qed.

(** The call returns nil exactly when no step recorded a failure. *)
Lemma DeleteMediaItem_nil_iff (w : World) (db : DB) (mediaID userID : Z) (row : MediaRow) :
  media_by_id db mediaID = Some row ->
  store_ok w ->
  (fst (DeleteMediaItem w db mediaID userID) = None <->
   files_ok w row /\ manager_ok w row /\ request_ok w row /\ torrents_ok w db mediaID).
Proof.
  intros Hrow Hok. rewrite (DeleteMediaItem_outcome w db mediaID userID row Hrow Hok).
  rewrite <- failures_nil. cbn [fst].
  destruct (failures w db mediaID row); split; intros H;
    solve [reflexivity | discriminate H].
Qed.

(** C1 (defect of the code).  The docstring of [DeleteMediaItem] lists
    "6. Log to audit log", and the specification asks for exactly one
    audit row per attempt.  On a store that holds item 1, with every
    collaborator answering and the store executing whatever it is sent,
    [DeleteMediaItem 1 9] returns nil and the row is gone, but the
    [INSERT] of step 6 is rejected, because the text bound to the [JSONB]
    column [details] is not JSON, and [audit_logs] holds no row for the
    attempt. *)
Theorem DeleteMediaItem_audit_row_missing :
  let row := Examples.movie 1 "Alpha" "/data/movies/Alpha" in
  let res := DeleteMediaItem Examples.world_fine Examples.db_del 1 9 in
  media_by_id Examples.db_del 1 = Some row /\
  insert_audit_err (store Examples.world_fine) = None /\
  details row [] = "Deleted media: Alpha (type: movie)"%string /\
  fst (insert_audit (store Examples.world_fine) Examples.db_del 9 1 row (details row []))
  <> None /\
  fst res = None /\
  media_by_id (snd res) 1 = None /\
  audit_logs (snd res) = audit_logs Examples.db_del.
Proof. cbv zeta. repeat split. discriminate. Qed.

(** The scenario of the specification: the media manager and the torrent
    client both fail; the error lists both and the row is gone with its
    torrent rows, and there too no audit row was written. *)
Example DeleteMediaItem_downstream_fails :
  let res := DeleteMediaItem Examples.world_downstream_fails Examples.db_del 1 9 in
  fst res =
    Some ("deletion completed with errors: " ++
          "[failed to delete/unmonitor from Radarr: radarr API error: 500 " ++
          "failed to delete torrent cc: qbittorrent API error: 403]")%string /\
  media_by_id (snd res) 1 = None /\
  map al_media_title (audit_logs (snd res)) = ["Old"]%string /\
  map tr_hash (torrents (snd res)) = ["bb"]%string.
Proof. repeat split. Qed.

(** A failed request lookup is not reported. *)
Example DeleteMediaItem_lookup_fails :
  FindRequestByMediaID
    {| GetRequests := MediaSync.FetchError "connection refused";
       DeleteRequest := fun _ => None |}
    (Some 101) None "movie"
  = FindError "failed to get requests: connection refused" /\
  fst (DeleteMediaItem Examples.world_lookup_fails Examples.db_del 1 9) = None.
Proof. split; reflexivity. Qed.

(** Nor is a failed read of the torrent hashes: the torrent client is
    then not called at all, though it would have refused torrent [cc]. *)
Example DeleteMediaItem_hashes_unread :
  let w := {| fs := Examples.fs_fine; sonarr := None; radarr := None;
              overseerr := None;
              qbittorrent := Deletion.qbittorrent Examples.world_downstream_fails;
              store := {| select_media_err := None;
                          select_hashes_err := Some "connection lost";
                          insert_audit_err := None;
                          delete_media_err := None |} |} in
  fst (DeleteMediaItem w Examples.db_del 1 9) = None /\
  fst (DeleteMediaItem Examples.world_downstream_fails Examples.db_del 1 9) <> None.
Proof. cbv zeta. split; [reflexivity | discriminate]. Qed.

End DeletionFacts.

(* ------------------------------------------------------------------ *)
(** ** Further properties of the eligibility engine *)

Module EligibilityMore.
Import Store Eligibility EligibilitySpec.

Lemma time_short_none (t : Torrent) :
  time_short t = None <-> (forall rt, RequiredTime t = Some rt -> rt <= SeedingTime t).
Proof.
  unfold time_short. destruct (RequiredTime t) as [rt|].
  - destruct (SeedingTime t <? rt) eqn:E.
    + apply Z.ltb_lt in E. split; [discriminate|]. intros H.
      specialize (H rt eq_refl). lia.
    + apply Z.ltb_ge in E. split; [|reflexivity]. intros _ rt' Hrt.
      injection Hrt as <-. exact E.
  - split; [intros _ rt H; discriminate | reflexivity].
Qed.

Lemma ratio_short_none (t : Torrent) :
  ratio_short t = None <-> (forall rr, RequiredRatio t = Some rr -> rr <= Ratio t).
Proof.
  unfold ratio_short. destruct (RequiredRatio t) as [rr|].
  - destruct (Ratio t <? rr) eqn:E.
    + apply Z.ltb_lt in E. split; [discriminate|]. intros H.
      specialize (H rr eq_refl). lia.
    + apply Z.ltb_ge in E. split; [|reflexivity]. intros _ rr' Hrr.
      injection Hrr as <-. exact E.
  - split; [intros _ rr H; discriminate | reflexivity].
Qed.

Lemma time_short_some (t : Torrent) (r : bool * string) :
  time_short t = Some r -> fst r = false.
Proof.
  unfold time_short. destruct (RequiredTime t); [|discriminate].
  destruct (SeedingTime t <? z); [|discriminate]. intros H. injection H as <-. reflexivity.
Qed.

Lemma ratio_short_some (t : Torrent) (r : bool * string) :
  ratio_short t = Some r -> fst r = false.
Proof.
  unfold ratio_short. destruct (RequiredRatio t); [|discriminate].
  destruct (Ratio t <? z); [|discriminate]. intros H. injection H as <-. reflexivity.
Qed.

(** The decision table of the per-torrent check. *)
Lemma eligible_char (t : Torrent) :
  fst (checkTorrentEligibility t) = true <->
  thresholds_met t /\
  (is_public t = true \/ (RequiredTime t <> None /\ IsSeeding t = true)).
Proof.
  unfold thresholds_met. rewrite <- time_short_none, <- ratio_short_none.
  unfold checkTorrentEligibility, returning.
  destruct (is_public t) eqn:Hpub.
  - destruct (time_short t) as [r|] eqn:Et.
    + assert (is_some (RequiredTime t) = true) as ->.
      { unfold time_short in Et. destruct (RequiredTime t); [reflexivity | discriminate]. }
      simpl. rewrite (time_short_some t r Et). split; [discriminate|].
      intros [[H _] _]. discriminate.
    + destruct (ratio_short t) as [r|] eqn:Er.
      * assert (is_some (RequiredRatio t) = true) as ->.
        { unfold ratio_short in Er. destruct (RequiredRatio t); [reflexivity | discriminate]. }
        rewrite orb_true_r. rewrite (ratio_short_some t r Er). split; [discriminate|].
        intros [[_ H] _]. discriminate.
      * destruct (is_some (RequiredTime t) || is_some (RequiredRatio t)); simpl;
          split; auto.
  - destruct (RequiredTime t) as [rt|] eqn:Ert.
    + destruct (time_short t) as [r|] eqn:Et.
      * rewrite (time_short_some t r Et). split; [discriminate|].
        intros [[H _] _]. discriminate.
      * destruct (ratio_short t) as [r|] eqn:Er.
        -- rewrite (ratio_short_some t r Er). split; [discriminate|].
           intros [[_ H] _]. discriminate.
        -- destruct (IsSeeding t); simpl.
           ++ split; [|reflexivity]. intros _. split; [auto|].
              right. split; [discriminate | reflexivity].
           ++ split; [discriminate|]. intros [_ [H|[_ H]]]; discriminate.
    + simpl. split; [discriminate|]. intros [_ [H|[H _]]]; [discriminate | congruence].
Qed.

(** X1.  A torrent passes the per-torrent check exactly when every present
    threshold is met and either its tracker type is "public", or it has a
    required seeding time and is currently seeding. *)
Theorem checkTorrentEligibility_decision_table (t : Torrent) :
  fst (checkTorrentEligibility t) = true <->
  thresholds_met t /\
  (TrackerType t = Some "public"%string \/
   (RequiredTime t <> None /\ IsSeeding t = true)).
Proof.
  rewrite eligible_char.
  assert (is_public t = true <-> TrackerType t = Some "public"%string) as Hp.
  { unfold is_public. destruct (TrackerType t) as [ty|].
    - rewrite String.eqb_eq. split; congruence.
    - split; discriminate. }
  rewrite Hp. reflexivity.
Qed.

(** X2.  More seeding never revokes eligibility: a torrent that passes
    still passes with a larger seeding time and a larger ratio, everything
    else being the same. *)
Theorem checkTorrentEligibility_monotone (t t' : Torrent) :
  seeded_on t t' ->
  fst (checkTorrentEligibility t) = true ->
  fst (checkTorrentEligibility t') = true.
Proof.
  intros (Hty & Hrt & Hrr & Hs & Htime & Hratio).
  rewrite !eligible_char. unfold thresholds_met, is_public.
  rewrite Hty, Hrt, Hrr, Hs.
  intros [[Ht Hr] Hrest]. split; [|exact Hrest]. split.
  - intros rt H. specialize (Ht rt H). lia.
  - intros rr H. specialize (Hr rr H). lia.
Qed.

Lemma checkTorrentEligibility_monotone_witness :
  fst (checkTorrentEligibility
         (scan (Examples.torrent 1 "mm" (Some "private") 9000 300 (Some 3600) (Some 100) true)))
  = true.
Proof.
  apply (checkTorrentEligibility_monotone
           (scan (Examples.torrent 1 "mm" (Some "private") 3600 100 (Some 3600) (Some 100) true))).
  - repeat split; simpl; lia.
  - reflexivity.
Defined.

(** X3.  An unmet seeding-time requirement is what is reported, on any
    tracker type, whatever the ratio and the seeding state. *)
Theorem time_shortfall_reported_first (t : Torrent) (rt : Z) :
  RequiredTime t = Some rt ->
  SeedingTime t < rt ->
  checkTorrentEligibility t =
  (false, ("Seeding time " ++ Fmt.d (SeedingTime t) ++ "s < required " ++ Fmt.d rt ++ "s")%string).
Proof.
  intros Hrt Hlt. apply Z.ltb_lt in Hlt.
  unfold checkTorrentEligibility, time_short, reason_time. rewrite Hrt, Hlt. simpl.
  destruct (is_public t); reflexivity.
Qed.

Lemma time_shortfall_reported_first_witness :
  checkTorrentEligibility
    (scan (Examples.torrent 1 "tt" (Some "public") 10 0 (Some 3600) (Some 100) false))
  = (false, "Seeding time 10s < required 3600s"%string).
Proof.
  apply (time_shortfall_reported_first
           (scan (Examples.torrent 1 "tt" (Some "public") 10 0 (Some 3600) (Some 100) false))
           3600).
  - reflexivity.
  - simpl; lia.
Defined.

(** With every query answered by the store, [CheckEligibility] returns an
    error exactly when the media item row is missing. *)
Theorem CheckEligibility_error_iff_missing (db : DB) (id : Z) :
  (exists msg, CheckEligibility db id = Err msg) <-> media_by_id db id = None.
Proof.
  unfold CheckEligibility. destruct (media_by_id db id) as [row|].
  - split; [|discriminate]. intros [msg H].
    destruct (map scan (torrents_of db id)); discriminate.
  - split; [reflexivity|]. intros _. eexists. reflexivity.
Qed.

(** X4.  The figures of the status are those of the first linked torrent
    in scan order, whichever torrent decided the result; a NULL tracker
    type is shown as "unknown"; and an eligible status always carries the
    reason "All seeding requirements met". *)
Theorem CheckEligibility_summary
    (db : DB) (id : Z) (row : MediaRow) (r0 : TorrentRow) (rs : list TorrentRow)
    (st : EligibilityStatus) :
  media_by_id db id = Some row ->
  torrents_of db id = r0 :: rs ->
  CheckEligibility db id = Ok st ->
  st_SeedingTime st = tr_seeding_time_seconds r0 /\
  st_RequiredTime st = tr_seeding_required_seconds r0 /\
  st_SeedingRatio st = tr_ratio r0 /\
  st_RequiredRatio st = tr_seeding_required_ratio r0 /\
  st_IsSeeding st = tr_is_seeding r0 /\
  st_TrackerType st = match tr_tracker_type r0 with
                      | Some ty => ty
                      | None => "unknown"%string
                      end /\
  (st_IsEligible st = true -> st_Reason st = "All seeding requirements met"%string).
Proof.
  intros Hrow Hts. unfold CheckEligibility. rewrite Hrow, Hts.
  change (map scan (r0 :: rs)) with (scan r0 :: map scan rs). cbv zeta.
  intros H. injection H as <-. simpl.
  repeat split.
  destruct (let '(ok, reason) := checkTorrentEligibility (scan r0) in
            if negb ok then Some reason else first_failure (map scan rs));
    [discriminate | reflexivity].
Qed.

Lemma CheckEligibility_summary_witness :
  exists st,
    CheckEligibility Examples.db_elig 1 = Ok st /\
    st_SeedingTime st = 0 /\ st_TrackerType st = "public"%string /\
    st_Reason st = "Seeding time 10s < required 3600s"%string.
Proof.
  eexists. split; [reflexivity|].
  destruct (CheckEligibility_summary Examples.db_elig 1
              (Examples.movie 1 "Alpha" "/data/movies/Alpha")
              (Examples.torrent 1 "aa" (Some "public") 0 0 None None false)
              [Examples.torrent 1 "cc" (Some "private") 10 50 (Some 3600) None true;
               Examples.torrent 1 "dd" None 99999 900 None None true]
              _ eq_refl eq_refl eq_refl)
    as (H1 & _ & _ & _ & _ & H6 & _).
  split; [exact H1|]. split; [exact H6 | reflexivity].
Defined.

End EligibilityMore.

(* ------------------------------------------------------------------ *)
(** ** Further properties of the torrent sync *)

Module TorrentUpsertFacts.
Import Store TorrentSync TorrentUpsert.

(** *** [isPublicTracker] *)

Lemma has_public_prefix_initial (c : ascii) (rest : string) (c0 : ascii) (p : string) :
  Ascii.eqb c c0 = false ->
  has_public_prefix (String c rest) (String c0 p) = false.
Proof.
  intros Hne. unfold has_public_prefix. simpl. rewrite Hne. simpl.
  apply andb_false_r.
Qed.

(** X5.  A tracker string that is a URL with a scheme is never classified
    as public: the eight known names are compared with the beginning of
    the whole string. *)
Theorem isPublicTracker_url_is_private (rest : string) :
  isPublicTracker ("http://" ++ rest) = false /\
  isPublicTracker ("https://" ++ rest) = false /\
  isPublicTracker ("udp://" ++ rest) = false.
Proof.
  unfold isPublicTracker, publicTrackers.
  repeat split; cbn [append existsb];
    rewrite !has_public_prefix_initial by reflexivity; reflexivity.
Qed.

(** X6.  A known public name alone is not public: the tracker string has
    to be strictly longer than the name it starts with; with one more
    character, whatever follows, it is public. *)
Theorem isPublicTracker_needs_longer (public : string) :
  In public publicTrackers ->
  isPublicTracker public = false /\
  forall (c : ascii) (rest : string), isPublicTracker (public ++ String c rest) = true.
Proof.
  unfold publicTrackers. simpl.
  intros [<-|[<-|[<-|[<-|[<-|[<-|[<-|[<-|[]]]]]]]]];
    (split; [reflexivity|]); intros c rest;
    unfold isPublicTracker, publicTrackers, has_public_prefix;
    cbn; rewrite ?andb_false_r; reflexivity.
Qed.

Lemma isPublicTracker_needs_longer_witness :
  isPublicTracker "rarbg" = false /\
  forall (c : ascii) (rest : string), isPublicTracker ("rarbg" ++ String c rest) = true.
Proof.
  apply (isPublicTracker_needs_longer "rarbg"). simpl. auto.
Defined.

(** *** The resolved link is an existing media item *)

Lemma select_find_In (f : MediaRow -> bool) (rows : list MediaRow) (id : Z) :
  select_id (find f rows) = Some id -> exists x, In x rows /\ mi_id x = id /\ f x = true.
Proof.
  destruct (find f rows) as [x|] eqn:E; [|discriminate].
  intros H. injection H as <-. apply find_some in E as [Hin Hf]. eauto.
Qed.

Lemma first_min_In {A} (lt : A -> A -> bool) (l : list A) (x : A) :
  first_min lt l = Some x -> In x l.
Proof.
  destruct l as [|a l]; [discriminate|]. simpl. intros H. injection H as <-.
  apply TorrentSyncFacts.fold_min_in.
Qed.

Lemma select_first_min_In (lt : MediaRow -> MediaRow -> bool) (f : MediaRow -> bool)
    (rows : list MediaRow) (id : Z) :
  select_id (first_min lt (filter f rows)) = Some id ->
  exists x, In x rows /\ mi_id x = id /\ f x = true.
Proof.
  destruct (first_min lt (filter f rows)) as [x|] eqn:E; [|discriminate].
  intros H. injection H as <-. apply first_min_In in E. apply filter_In in E as [Hin Hf].
  eauto.
Qed.

Lemma resolveMediaItem_In (db : DB) (t : QBittorrentTorrent) (id : Z) :
  resolveMediaItem db t = Some id ->
  exists x, In x (media_items db) /\ mi_id x = id.
Proof.
  unfold resolveMediaItem. cbv zeta.
  set (byname := if nonempty (q_Name t) then query_name db (q_Name t) else None).
  assert (byname = Some id -> exists x, In x (media_items db) /\ mi_id x = id) as Hname.
  { unfold byname. destruct (nonempty (q_Name t)); [|discriminate].
    intros H. apply select_first_min_In in H as (x & Hin & Hid & _). eauto. }
  destruct (nonempty (q_ContentPath t)); [|exact Hname].
  destruct (query_exact db (q_ContentPath t)) as [i|] eqn:E1.
  { intros H. injection H as <-. apply select_find_In in E1 as (x & ? & ? & _). eauto. }
  destruct (query_file_like_content db (q_ContentPath t)) as [i|] eqn:E2.
  { intros H. injection H as <-. apply select_find_In in E2 as (x & ? & ? & _). eauto. }
  destruct (query_content_like_file db (q_ContentPath t)) as [i|] eqn:E3.
  { intros H. injection H as <-. apply select_find_In in E3 as (x & ? & ? & _). eauto. }
  destruct (query_contains db (q_ContentPath t)) as [i|] eqn:E4.
  { intros H. injection H as <-. apply select_first_min_In in E4 as (x & ? & ? & _). eauto. }
  exact Hname.
Qed.

(** X7.  Whatever strategy produced it, the link resolved for a torrent is
    the id of a row of [media_items]. *)
Theorem resolveMediaItem_links_existing_row (db : DB) (t : QBittorrentTorrent) (id : Z) :
  resolveMediaItem db t = Some id ->
  exists x, In x (media_items db) /\ mi_id x = id.
Proof. apply resolveMediaItem_In. Qed.

Lemma resolveMediaItem_links_existing_row_witness :
  exists x, In x (media_items Examples.db_paths) /\ mi_id x = 3.
Proof.
  apply (resolveMediaItem_links_existing_row Examples.db_paths Examples.movie_torrent 3).
  reflexivity.
Defined.

Lemma first_min_some {A} (lt : A -> A -> bool) (l : list A) :
  l <> [] -> first_min lt l <> None.
Proof. destruct l; [congruence | discriminate]. Qed.

(** X8.  A media item whose title is empty matches every name: a torrent
    with a name that no path strategy links is linked all the same, to a
    row picked by the name query. *)
Theorem empty_title_captures_named_torrents
    (db : DB) (t : QBittorrentTorrent) (x : MediaRow) :
  In x (media_items db) ->
  mi_title x = ""%string ->
  q_Name t <> ""%string ->
  resolveMediaItem db t <> None.
Proof.
  intros Hin Htitle Hname. unfold resolveMediaItem. cbv zeta.
  assert (nonempty (q_Name t) = true) as ->.
  { unfold nonempty. apply negb_true_iff. apply String.eqb_neq. exact Hname. }
  assert (query_name db (q_Name t) <> None) as Hq.
  { unfold query_name, select_id.
    destruct (first_min _ _) eqn:E; [discriminate|]. exfalso.
    revert E. apply first_min_some. intros Hnil.
    assert (In x (filter (fun r => any_eq (mi_title r) (string_to_array (q_Name t))
                                   || like ("%" ++ mi_title r ++ "%") (q_Name t))
                    (media_items db))) as Hx.
    { apply filter_In. split; [exact Hin|]. rewrite Htitle.
      apply orb_true_iff. right. simpl append.
      change ("%%"%string) with (String "%" "%").
      apply TorrentSyncFacts.like_percent_here, TorrentSyncFacts.like_percent. }
    rewrite Hnil in Hx. contradiction. }
  destruct (if nonempty (q_ContentPath t) then _ else None); [discriminate | exact Hq].
Qed.

Lemma empty_title_captures_named_torrents_witness :
  resolveMediaItem
    {| media_items := [Examples.movie 5 "" "/data/movies/Untitled"];
       media_items_seq := 6; torrents := []; audit_logs := []; audit_logs_seq := 1 |}
    (Examples.qbt "z" "Some.Other.Release" "/downloads/elsewhere") <> None.
Proof.
  apply (empty_title_captures_named_torrents _ _ (Examples.movie 5 "" "/data/movies/Untitled")).
  - simpl. auto.
  - reflexivity.
  - discriminate.
Defined.

(** X9.  A torrent whose content path, free of [LIKE] metacharacters, is
    the beginning of the [file_path] of some media item is linked, and
    linked to a row whose [file_path] begins with the content path. *)
Theorem content_directory_is_linked
    (db : DB) (t : QBittorrentTorrent) (x : MediaRow) :
  q_ContentPath t <> ""%string ->
  literal (q_ContentPath t) = true ->
  In x (media_items db) ->
  String.prefix (q_ContentPath t) (mi_file_path x) = true ->
  exists id r,
    resolveMediaItem db t = Some id /\
    In r (media_items db) /\ mi_id r = id /\
    String.prefix (q_ContentPath t) (mi_file_path r) = true.
Proof.
  intros Hne Hlit Hin Hpre. unfold resolveMediaItem. cbv zeta.
  assert (nonempty (q_ContentPath t) = true) as ->.
  { unfold nonempty. apply negb_true_iff. apply String.eqb_neq. exact Hne. }
  destruct (query_exact db (q_ContentPath t)) as [i|] eqn:E1.
  { apply select_find_In in E1 as (r & Hr & Hid & Heq).
    exists i, r. repeat split; auto. apply String.eqb_eq in Heq. rewrite Heq.
    clear. induction (q_ContentPath t) as [|c s IH]; [reflexivity|].
    simpl. destruct (ascii_dec c c); [exact IH | congruence]. }
  assert (nonempty (mi_file_path x) = true) as Hnx.
  { unfold nonempty. apply negb_true_iff. apply String.eqb_neq. intros Hx.
    rewrite Hx in Hpre. destruct (q_ContentPath t); [congruence | discriminate]. }
  destruct (query_file_like_content db (q_ContentPath t)) as [i|] eqn:E2.
  - apply select_find_In in E2 as (r & Hr & Hid & Hf).
    exists i, r. repeat split; auto.
    apply andb_true_iff in Hf as [Hl _].
    rewrite (TorrentSyncFacts.like_prefix _ Hlit) in Hl. exact Hl.
  - exfalso. unfold query_file_like_content in E2.
    pose proof (TorrentSyncFacts.find_none_select _ _ _ E2 x Hin) as Hx.
    cbv beta in Hx. rewrite (TorrentSyncFacts.like_prefix _ Hlit), Hpre, Hnx in Hx.
    discriminate.
Qed.

Lemma content_directory_is_linked_witness :
  exists id r,
    resolveMediaItem Examples.db_paths Examples.movie_torrent = Some id /\
    In r (media_items Examples.db_paths) /\ mi_id r = id /\
    String.prefix "/data/movies/X" (mi_file_path r) = true.
Proof.
  apply (content_directory_is_linked Examples.db_paths Examples.movie_torrent
           (Examples.movie 3 "X" "/data/movies/X/X.mkv")).
  - discriminate.
  - reflexivity.
  - simpl. auto.
  - reflexivity.
Defined.

(** *** A pass over the torrent list *)

Lemma media_items_sync_torrent prowlarr (db : DB) (t : QBittorrentTorrent) :
  media_items (sync_torrent prowlarr db t) = media_items db.
Proof.
  unfold sync_torrent. cbv zeta.
  destruct (find (has_hash (q_Hash t)) (torrents db)); reflexivity.
Qed.

Lemma media_items_sync_torrents prowlarr (ts : list QBittorrentTorrent) (db : DB) :
  media_items (fold_left (sync_torrent prowlarr) ts db) = media_items db.
Proof.
  revert db. induction ts as [|t ts IH]; intros db; simpl; [reflexivity|].
  rewrite IH. apply media_items_sync_torrent.
Qed.

Lemma has_hash_true (h : string) (r : TorrentRow) : has_hash h r = true <-> tr_hash r = h.
Proof. apply String.eqb_eq. Qed.

Lemma COALESCE_keeps (a b : option Z) : b <> None -> COALESCE a b <> None.
Proof. destruct a; simpl; [discriminate | auto]. Qed.

(** The two shapes of one turn of the loop. *)
Lemma sync_torrent_cases prowlarr (db : DB) (t : QBittorrentTorrent) :
  (~ In (q_Hash t) (map tr_hash (torrents db)) /\
   torrents (sync_torrent prowlarr db t) =
   torrents db ++ [written (resolveMediaItem db t) t (trackerInfo prowlarr t)]) \/
  (In (q_Hash t) (map tr_hash (torrents db)) /\
   torrents (sync_torrent prowlarr db t) =
   map (fun r => if has_hash (q_Hash t) r
                 then written (COALESCE (mediaIDVal db t (resolveMediaItem db t))
                                  (tr_media_item_id r)) t (trackerInfo prowlarr t)
                 else r)
     (torrents db)).
Proof.
  unfold sync_torrent. cbv zeta.
  destruct (find (has_hash (q_Hash t)) (torrents db)) as [r0|] eqn:Ef.
  - right. split; [|reflexivity]. apply find_some in Ef as [Hin Hh].
    apply in_map_iff. exists r0. split; [apply has_hash_true; exact Hh | exact Hin].
  - left. split; [|reflexivity]. intros Hin. apply in_map_iff in Hin as (r & Hh & Hin).
    pose proof (find_none _ _ Ef r Hin) as Hn. apply has_hash_true in Hh. congruence.
Qed.

Lemma kept_row_refl (listed : list string) (r : TorrentRow) : kept_row listed r r.
Proof. repeat split; auto. Qed.

Lemma kept_row_step (listed : list string) (h : string) (a b c : TorrentRow) :
  kept_row [h] a b -> kept_row listed b c -> kept_row (h :: listed) a c.
Proof.
  intros (H1 & L1 & U1) (H2 & L2 & U2). repeat split.
  - congruence.
  - auto.
  - intros Hn. assert (b = a) as Hb.
    { apply U1. intros [Heq|[]]. apply Hn. left; exact Heq. }
    subst b. apply U2. intros Hin. apply Hn. right; exact Hin.
Qed.

Lemma sync_torrent_kept prowlarr (db : DB) (t : QBittorrentTorrent) :
  exists kept added,
    torrents (sync_torrent prowlarr db t) = kept ++ added /\
    Forall2 (kept_row [q_Hash t]) (torrents db) kept.
Proof.
  destruct (sync_torrent_cases prowlarr db t) as [(_ & ->) | (_ & ->)].
  - eexists _, _. split; [reflexivity|].
    induction (torrents db); constructor; auto using kept_row_refl.
  - eexists _, []. split; [symmetry; apply app_nil_r|].
    induction (torrents db) as [|r rows IH]; simpl; constructor; [|exact IH].
    destruct (has_hash (q_Hash t) r) eqn:Hh.
    + apply has_hash_true in Hh. repeat split.
      * simpl. congruence.
      * simpl. apply COALESCE_keeps.
      * intros Hn. exfalso. apply Hn. left. congruence.
    + apply kept_row_refl.
Qed.

Lemma Forall2_kept_step (listed : list string) (h : string)
    (a b c : list TorrentRow) :
  Forall2 (kept_row [h]) a b -> Forall2 (kept_row listed) b c ->
  Forall2 (kept_row (h :: listed)) a c.
Proof.
  intros Hab. revert c. induction Hab as [|x y a b Hxy Hab IH]; intros c Hbc.
  - inversion Hbc. constructor.
  - inversion Hbc as [|? z ? c' Hyz Hbc']; subst.
    constructor; [eapply kept_row_step; eauto | apply IH; exact Hbc'].
Qed.

Lemma sync_torrents_kept prowlarr (ts : list QBittorrentTorrent) (db : DB) :
  exists kept added,
    torrents (fold_left (sync_torrent prowlarr) ts db) = kept ++ added /\
    Forall2 (kept_row (map q_Hash ts)) (torrents db) kept.
Proof.
  revert db. induction ts as [|t ts IH]; intros db; simpl.
  - exists (torrents db), []. split; [symmetry; apply app_nil_r|].
    induction (torrents db); constructor; auto using kept_row_refl.
  - destruct (sync_torrent_kept prowlarr db t) as (k1 & a1 & E1 & F1).
    destruct (IH (sync_torrent prowlarr db t)) as (k2 & a2 & E2 & F2).
    rewrite E1 in F2. apply Forall2_app_inv_l in F2 as (k21 & k22 & F21 & F22 & ->).
    exists k21, (k22 ++ a2). split; [rewrite E2; symmetry; apply app_assoc|].
    eapply Forall2_kept_step; eauto.
Qed.

(** X10.  A torrent pass never deletes a row of [torrents] and never
    unlinks one: every row stays in place with its hash, a row that had a
    media item keeps one, rows whose hash the torrent client did not list
    are untouched, and [media_items] is not written. *)
Theorem SyncFromQBittorrent_never_unlinks
    (qbittorrent : option (MediaSync.fetched QBittorrentTorrent))
    (prowlarr : option (MediaSync.fetched ProwlarrIndexer)) (db : DB) :
  let db' := snd (SyncFromQBittorrent qbittorrent prowlarr db) in
  media_items db' = media_items db /\
  exists kept added,
    torrents db' = kept ++ added /\
    Forall2 (kept_row (match qbittorrent with
                       | Some (MediaSync.Fetched ts) => map q_Hash ts
                       | _ => []
                       end))
      (torrents db) kept.
Proof.
  cbv zeta. unfold SyncFromQBittorrent.
  destruct qbittorrent as [[ts|e]|]; simpl.
  - split; [apply media_items_sync_torrents | apply sync_torrents_kept].
  - split; [reflexivity|]. exists (torrents db), [].
    split; [symmetry; apply app_nil_r|].
    induction (torrents db); constructor; auto using kept_row_refl.
  - split; [reflexivity|]. exists (torrents db), [].
    split; [symmetry; apply app_nil_r|].
    induction (torrents db); constructor; auto using kept_row_refl.
Qed.

(** *** Constraints of [torrents] kept by a pass *)

Lemma sync_torrent_links_valid prowlarr (db : DB) (t : QBittorrentTorrent) :
  links_valid db -> links_valid (sync_torrent prowlarr db t).
Proof.
  intros Hv r m Hin Hlink. rewrite media_items_sync_torrent.
  destruct (sync_torrent_cases prowlarr db t) as [(_ & E) | (_ & E)];
    rewrite E in Hin.
  - apply in_app_or in Hin as [Hin|[<-|[]]]; [eauto|].
    simpl in Hlink. apply (resolveMediaItem_In db t m Hlink).
  - apply in_map_iff in Hin as (r0 & Hr & Hin0).
    destruct (has_hash (q_Hash t) r0); [|subst r; eauto].
    subst r. simpl in Hlink. unfold COALESCE, mediaIDVal in Hlink.
    destruct (resolveMediaItem db t) as [resolved|] eqn:Er; [|eauto].
    destruct (find (has_hash (q_Hash t)) (torrents db)) as [row|]; [|eauto].
    assert (m = resolved) as ->.
    { destruct (tr_media_item_id row) as [cur|].
      - destruct (cur =? resolved) eqn:Ec; simpl in Hlink; injection Hlink as <-;
          [apply Z.eqb_eq in Ec; exact Ec | reflexivity].
      - injection Hlink as <-. reflexivity. }
    apply (resolveMediaItem_In db t resolved Er).
Qed.

Lemma sync_torrent_hashes_unique prowlarr (db : DB) (t : QBittorrentTorrent) :
  NoDup (map tr_hash (torrents db)) ->
  NoDup (map tr_hash (torrents (sync_torrent prowlarr db t))).
Proof.
  intros Hnd.
  destruct (sync_torrent_cases prowlarr db t) as [(Hfresh & ->) | (_ & ->)].
  - rewrite map_app. simpl. apply MediaSyncFacts.NoDup_snoc; assumption.
  - rewrite map_map.
    replace (map _ (torrents db)) with (map tr_hash (torrents db)); [exact Hnd|].
    apply map_ext_in. intros r _.
    destruct (has_hash (q_Hash t) r) eqn:Hh; [|reflexivity].
    simpl. apply has_hash_true in Hh. congruence.
Qed.

(** X11.  A torrent pass keeps the constraints of [torrents]: hashes stay
    unique and every link still points to a row of [media_items]. *)
Theorem SyncFromQBittorrent_keeps_constraints
    (qbittorrent : option (MediaSync.fetched QBittorrentTorrent))
    (prowlarr : option (MediaSync.fetched ProwlarrIndexer)) (db : DB) :
  NoDup (map tr_hash (torrents db)) ->
  links_valid db ->
  let db' := snd (SyncFromQBittorrent qbittorrent prowlarr db) in
  NoDup (map tr_hash (torrents db')) /\ links_valid db'.
Proof.
  intros Hnd Hv. cbv zeta. unfold SyncFromQBittorrent.
  destruct qbittorrent as [[ts|e]|]; simpl; auto.
  revert db Hnd Hv. induction ts as [|t ts IH]; intros db Hnd Hv; simpl; [auto|].
  apply IH; [apply sync_torrent_hashes_unique | apply sync_torrent_links_valid]; assumption.
Qed.

Lemma SyncFromQBittorrent_keeps_constraints_witness :
  let db' := snd (SyncFromQBittorrent
                    (Some (MediaSync.Fetched [Examples.season_torrent; Examples.movie_torrent;
                                              Examples.season_torrent]))
                    None Examples.db_paths) in
  NoDup (map tr_hash (torrents db')) /\ links_valid db'.
Proof.
  apply (SyncFromQBittorrent_keeps_constraints
           (Some (MediaSync.Fetched [Examples.season_torrent; Examples.movie_torrent;
                                     Examples.season_torrent]))
           None Examples.db_paths).
  - constructor.
  - intros r m [].
Defined.

(** *** Tracker metadata and eligibility *)

Lemma sync_torrent_untracked (db : DB) (t : QBittorrentTorrent) (listed : list string) :
  (forall r, In r (torrents db) -> In (tr_hash r) listed -> untracked r) ->
  forall r, In r (torrents (sync_torrent None db t)) ->
            In (tr_hash r) (q_Hash t :: listed) -> untracked r.
Proof.
  intros Hinv r Hin Hl.
  destruct (sync_torrent_cases None db t) as [(_ & E) | (_ & E)]; rewrite E in Hin.
  - apply in_app_or in Hin as [Hin|[<-|[]]]; [|split; reflexivity].
    destruct Hl as [Hl|Hl]; [|auto].
    exfalso. destruct (sync_torrent_cases None db t) as [(Hfresh & _) | (Hold & _)].
    + apply Hfresh. apply in_map_iff. exists r. split; [symmetry; exact Hl | exact Hin].
    + revert E. destruct (find (has_hash (q_Hash t)) (torrents db)) eqn:Ef.
      * unfold sync_torrent. cbv zeta. rewrite Ef. simpl. intros E.
        apply (f_equal (@List.length _)) in E. rewrite length_map, length_app in E.
        simpl in E. lia.
      * apply in_map_iff in Hold as (r0 & Hh & Hin0).
        pose proof (find_none _ _ Ef r0 Hin0) as Hn.
        apply has_hash_true in Hh. congruence.
  - apply in_map_iff in Hin as (r0 & Hr & Hin0).
    destruct (has_hash (q_Hash t) r0) eqn:Hh.
    + subst r. split; reflexivity.
    + subst r. destruct Hl as [Hl|Hl]; [|auto].
      symmetry in Hl. apply has_hash_true in Hl. congruence.
Qed.

Lemma sync_torrents_untracked (ts : list QBittorrentTorrent) (db : DB) (listed : list string) :
  (forall r, In r (torrents db) -> In (tr_hash r) listed -> untracked r) ->
  forall r, In r (torrents (fold_left (sync_torrent None) ts db)) ->
            In (tr_hash r) (listed ++ map q_Hash ts) -> untracked r.
Proof.
  revert db listed. induction ts as [|t ts IH]; intros db listed Hinv r Hin Hl; simpl in *.
  - rewrite app_nil_r in Hl. auto.
  - apply (IH (sync_torrent None db t) (q_Hash t :: listed)).
    + apply sync_torrent_untracked. exact Hinv.
    + exact Hin.
    + apply in_app_or in Hl as [Hl|[Hl|Hl]].
      * apply in_or_app. left. right. exact Hl.
      * apply in_or_app. left. left. exact Hl.
      * apply in_or_app. right. exact Hl.
Qed.

(** X12.  With the indexer manager disabled, every torrent the client
    lists is stored without tracker type and without requirement, and a
    media item linked to one of them is not eligible, whatever its seeding
    time and ratio. *)
Theorem without_prowlarr_nothing_is_eligible
    (ts : list QBittorrentTorrent) (db : DB) (r : TorrentRow) (id : Z) (row : MediaRow) :
  let db' := snd (SyncFromQBittorrent (Some (MediaSync.Fetched ts)) None db) in
  In r (torrents_of db' id) ->
  In (tr_hash r) (map q_Hash ts) ->
  media_by_id db id = Some row ->
  tr_tracker_type r = None /\
  tr_seeding_required_seconds r = None /\
  exists st, Eligibility.CheckEligibility db' id = Eligibility.Ok st /\
             Eligibility.st_IsEligible st = false.
Proof.
  cbv zeta. simpl. intros Hin Hl Hrow.
  assert (untracked r) as [Hty Hrt].
  { apply (sync_torrents_untracked ts db []).
    - intros ? ? [].
    - unfold torrents_of in Hin. apply filter_In in Hin as [Hin _]. exact Hin.
    - exact Hl. }
  split; [exact Hty|]. split; [exact Hrt|].
  apply (EligibilityFacts.failing_torrent_blocks _ id row r).
  - unfold media_by_id. rewrite media_items_sync_torrents. exact Hrow.
  - exact Hin.
  - unfold Eligibility.checkTorrentEligibility, Eligibility.is_public. simpl.
    rewrite Hty, Hrt. reflexivity.
Qed.

Lemma without_prowlarr_nothing_is_eligible_witness :
  let db' := snd (SyncFromQBittorrent (Some (MediaSync.Fetched [Examples.movie_torrent]))
                    None Examples.db_paths) in
  exists st, Eligibility.CheckEligibility db' 3 = Eligibility.Ok st /\
             Eligibility.st_IsEligible st = false.
Proof.
  cbv zeta.
  apply (without_prowlarr_nothing_is_eligible [Examples.movie_torrent] Examples.db_paths
           (written (Some 3) Examples.movie_torrent no_tracker_info) 3
           (Examples.movie 3 "X" "/data/movies/X/X.mkv")).
  - simpl. auto.
  - simpl. auto.
  - reflexivity.
Defined.

(** X13.  For a tracker string that matches no indexer, the stored row is
    judged by the name prefix alone: with a public prefix it passes the
    per-torrent check at once, otherwise it is private without a required
    time and fails with "Infinite seeding time required". *)
Theorem unmatched_tracker_eligibility
    (res : MediaSync.fetched ProwlarrIndexer) (t : QBittorrentTorrent) (link : option Z) :
  q_Tracker t <> ""%string ->
  indexerMap (indexers_of res) (q_Tracker t) = None ->
  Eligibility.checkTorrentEligibility
    (Eligibility.scan (written link t (trackerInfo (Some res) t))) =
  if isPublicTracker (q_Tracker t)
  then (true, "Public tracker - eligible"%string)
  else (false, "Infinite seeding time required"%string).
Proof.
  intros Hne Hmiss. unfold trackerInfo.
  assert (nonempty (q_Tracker t) = true) as ->.
  { unfold nonempty. apply negb_true_iff. apply String.eqb_neq. exact Hne. }
  rewrite Hmiss.
  unfold Eligibility.checkTorrentEligibility, Eligibility.is_public. simpl.
  destruct (isPublicTracker (q_Tracker t)); reflexivity.
Qed.

Lemma unmatched_tracker_eligibility_witness :
  Eligibility.checkTorrentEligibility
    (Eligibility.scan
       (written None
          {| q_Hash := "u"; q_Name := "n"; q_State := "uploading"; q_SeedingTime := 999999;
             q_Uploaded := 1; q_Downloaded := 1; q_Ratio := 5000; q_AddedOn := 0;
             q_Tracker := "https://rarbg.to/announce"; q_ContentPath := "" |}
          (trackerInfo (Some (MediaSync.Fetched []))
             {| q_Hash := "u"; q_Name := "n"; q_State := "uploading"; q_SeedingTime := 999999;
                q_Uploaded := 1; q_Downloaded := 1; q_Ratio := 5000; q_AddedOn := 0;
                q_Tracker := "https://rarbg.to/announce"; q_ContentPath := "" |}))) =
  (false, "Infinite seeding time required"%string).
Proof.
  apply (unmatched_tracker_eligibility (MediaSync.Fetched [])
           {| q_Hash := "u"; q_Name := "n"; q_State := "uploading"; q_SeedingTime := 999999;
              q_Uploaded := 1; q_Downloaded := 1; q_Ratio := 5000; q_AddedOn := 0;
              q_Tracker := "https://rarbg.to/announce"; q_ContentPath := "" |} None).
  - discriminate.
  - reflexivity.
Defined.

End TorrentUpsertFacts.

(* ------------------------------------------------------------------ *)
(** ** Further properties of the manager syncs *)

Module MediaSyncMore.
Import Store MediaSync.

(** X14.  [SyncFromRadarr] run twice over the same movie list, on a store
    that satisfies its constraints: the same number of rows and, row by
    row, the same values in every column but [last_synced_at]. *)
Theorem SyncFromRadarr_twice
    (time_Parse : string -> option Timestamp) (movies : list RadarrMovie)
    (clock1 clock2 : nat -> Z) (db : DB) :
  well_formed db ->
  let db1 := snd (SyncFromRadarr time_Parse (Some (Fetched movies)) clock1 db) in
  let db2 := snd (SyncFromRadarr time_Parse (Some (Fetched movies)) clock2 db1) in
  List.length (media_items db2) = List.length (media_items db1) /\
  Forall2 same_but_synced (media_items db1) (media_items db2) /\
  NoDup (keys Radarr (media_items db2)).
Proof.
  intros Hwf. simpl.
  set (items1 := stamped clock1 (map of_movie movies)).
  set (items2 := stamped clock2 (map of_movie movies)).
  pose proof (MediaSyncFacts.sync_items_well_formed time_Parse Radarr items1 db Hwf) as Hwf1.
  pose proof (MediaSyncFacts.sync_items_well_formed time_Parse Radarr items2 _ Hwf1) as Hwf2.
  assert (Forall2 same_but_synced
            (media_items (sync_items time_Parse Radarr items1 db))
            (media_items (sync_items time_Parse Radarr items2
                            (sync_items time_Parse Radarr items1 db)))) as H2.
  { apply MediaSyncFacts.sync_items_twice; [exact Hwf|].
    unfold items1, items2. rewrite !MediaSyncFacts.map_snd_stamped. reflexivity. }
  repeat split.
  - symmetry. eapply Forall2_length. exact H2.
  - exact H2.
  - apply Hwf2.
Qed.

Lemma SyncFromRadarr_twice_witness :
  let movies := [ {| mo_ID := 4; mo_Title := "Film"; mo_Path := "/data/movies/Film";
                     mo_TMDBID := 44; mo_Monitored := true; mo_Status := "released";
                     mo_Added := "2024-01-02T03:04:05Z"; mo_QualityProfileID := 1;
                     mo_RootFolderPath := "/data/movies"; mo_Statistics := None |} ] in
  let db1 := snd (SyncFromRadarr parseRFC3339 (Some (Fetched movies))
                    (fun n => 100 + Z.of_nat n) Examples.db_empty) in
  let db2 := snd (SyncFromRadarr parseRFC3339 (Some (Fetched movies))
                    (fun n => 200 + Z.of_nat n) db1) in
  List.length (media_items db2) = List.length (media_items db1) /\
  Forall2 same_but_synced (media_items db1) (media_items db2) /\
  NoDup (keys Radarr (media_items db2)).
Proof.
  cbv zeta.
  apply (SyncFromRadarr_twice parseRFC3339 _ (fun n => 100 + Z.of_nat n)
           (fun n => 200 + Z.of_nat n) Examples.db_empty).
  repeat split; constructor.
Defined.

(** *** Every record has its row *)

Lemma last_match_some_In (k : Z) (recs : list Remote) (x : Remote) :
  last_match k recs = Some x -> In x recs /\ rm_ID x = k.
Proof.
  induction recs as [|y recs IH] using rev_ind; [discriminate|].
  rewrite (MediaSyncFacts.last_match_snoc k recs y).
  destruct (rm_ID y =? k) eqn:E.
  - intros H. injection H as <-. apply Z.eqb_eq in E. split; [|exact E].
    apply in_or_app. right. left. reflexivity.
  - intros H. destruct (IH H) as [Hin Hk]. split; [|exact Hk].
    apply in_or_app. left. exact Hin.
Qed.

Lemma last_match_In_some (k : Z) (recs : list Remote) :
  In k (map rm_ID recs) -> exists x, last_match k recs = Some x.
Proof.
  induction recs as [|y recs IH] using rev_ind; [intros []|].
  rewrite (MediaSyncFacts.last_match_snoc k recs y), map_app. intros Hin.
  destruct (rm_ID y =? k) eqn:E; [eauto|].
  apply in_app_or in Hin as [Hin|[Hin|[]]]; [auto|].
  apply Z.eqb_neq in E. contradiction.
Qed.

Section RoundTrip.
Variable time_Parse : string -> option Timestamp.
Variable m : Manager.

(** After a pass, the record of id [k] that comes last in the list is what
    the one row of key [k] shows. *)
Lemma sync_items_round_trip (items : list (Z * Remote)) (db : DB) (x : Remote) :
  well_formed db ->
  In x (map snd items) ->
  exists r last,
    In r (media_items (sync_items time_Parse m items db)) /\
    manager_id m r = Some (rm_ID x) /\
    last_match (rm_ID x) (map snd items) = Some last /\
    shows r last /\
    forall r', In r' (media_items (sync_items time_Parse m items db)) ->
               manager_id m r' = Some (rm_ID x) -> r' = r.
Proof.
  intros Hwf Hx.
  pose proof (MediaSyncFacts.covered_after time_Parse m items db x Hx) as Hcov.
  apply MediaSyncFacts.existsb_has_key, MediaSyncFacts.keys_In in Hcov
    as (r & Hr & Hk).
  destruct (last_match_In_some (rm_ID x) (map snd items)) as [last Hlast].
  { apply in_map. exact Hx. }
  exists r, last. repeat split; auto.
  - exact (proj1 (MediaSyncFacts.settled_after time_Parse m items db Hwf r _ _ Hr Hk Hlast)).
  - exact (proj1 (proj2 (MediaSyncFacts.settled_after time_Parse m items db Hwf r _ _ Hr Hk Hlast))).
  - exact (proj2 (proj2 (MediaSyncFacts.settled_after time_Parse m items db Hwf r _ _ Hr Hk Hlast))).
  - intros r' Hr' Hk'.
    pose proof (MediaSyncFacts.sync_items_well_formed time_Parse m items db Hwf)
      as (_ & _ & Hs & Hrad).
    apply (MediaSyncFacts.keys_unique m
             (media_items (sync_items time_Parse m items db)) r' r (rm_ID x)); auto.
    destruct m; assumption.
Qed.

(** *** Rows a pass does not reach *)

Lemma sync_items_touch_all (items : list (Z * Remote)) (db : DB) :
  well_formed db ->
  exists added,
    media_items (sync_items time_Parse m items db) =
    map (touch_all m items) (media_items db) ++ added.
Proof.
  revert db. induction items as [|tx items IH]; intros db Hwf; simpl.
  - exists []. rewrite app_nil_r. symmetry. apply map_id.
  - pose proof (MediaSyncFacts.sync_item_well_formed time_Parse m tx db Hwf) as Hwf'.
    destruct (IH _ Hwf') as [added Hadd]. rewrite Hadd.
    rewrite (MediaSyncFacts.sync_item_upsert time_Parse m tx db Hwf). simpl.
    unfold upsert_rows.
    destruct (existsb (has_key m (rm_ID (snd tx))) (media_items db)) eqn:Hex; simpl.
    + exists added. rewrite map_map. reflexivity.
    + exists (map (touch_all m items)
                [new_row m (fst tx) (media_items_seq db) (snd tx)
                   (added_date_of time_Parse (snd tx))] ++ added).
      rewrite map_app, <- app_assoc. f_equal.
      apply map_ext_in. intros r Hin. unfold touch_all at 2. simpl.
      unfold touch at 2.
      destruct (has_key m (rm_ID (snd tx)) r) eqn:Hk; [|reflexivity].
      exfalso. assert (existsb (has_key m (rm_ID (snd tx))) (media_items db) = true)
        by (apply existsb_exists; eauto). congruence.
Qed.

Lemma last_match_none (k : Z) (recs : list Remote) :
  ~ In k (map rm_ID recs) -> last_match k recs = None.
Proof.
  intros Hn. destruct (last_match k recs) as [x|] eqn:E; [|reflexivity].
  apply last_match_some_In in E as [Hin Hk]. exfalso. apply Hn.
  rewrite <- Hk. apply in_map. exact Hin.
Qed.

Lemma touch_all_unlisted (items : list (Z * Remote)) (r : MediaRow) :
  (forall k, manager_id m r = Some k -> ~ In k (map rm_ID (map snd items))) ->
  touch_all m items r = r.
Proof.
  intros Hun. destruct (MediaSyncFacts.touch_all_shows m items r) as [_ Hs].
  destruct (manager_id m r) as [k|]; [|exact Hs].
  rewrite (last_match_none k (map snd items) (Hun k eq_refl)) in Hs. exact Hs.
Qed.

Lemma sync_items_unlisted (items : list (Z * Remote)) (db : DB) :
  well_formed db ->
  exists kept added,
    media_items (sync_items time_Parse m items db) = kept ++ added /\
    Forall2 (fun r r' =>
               same_frame r r' /\
               ((forall k, manager_id m r = Some k -> ~ In k (map rm_ID (map snd items))) ->
                r' = r))
      (media_items db) kept.
Proof.
  intros Hwf. destruct (sync_items_touch_all items db Hwf) as [added ->].
  eexists _, added. split; [reflexivity|].
  induction (media_items db) as [|r rows IH]; simpl; constructor; [|exact IH].
  split.
  - exact (proj1 (MediaSyncFacts.touch_all_shows m items r)).
  - apply touch_all_unlisted.
Qed.

End RoundTrip.

(** X15.  After a [SyncFromSonarr] pass on a store that satisfies its
    constraints, every series of the list has exactly one row, and that row
    shows the title, path and size of the last record of the list with its
    id (size 0 when the record has no statistics). *)
Theorem SyncFromSonarr_round_trip
    (time_Parse : string -> option Timestamp) (series : list SonarrSeries)
    (clock : nat -> Z) (db : DB) (ser : SonarrSeries) :
  well_formed db ->
  In ser series ->
  let db' := snd (SyncFromSonarr time_Parse (Some (Fetched series)) clock db) in
  exists r last,
    In r (media_items db') /\
    mi_sonarr_id r = Some (se_ID ser) /\
    In last series /\ se_ID last = se_ID ser /\
    mi_title r = se_Title last /\
    mi_file_path r = se_Path last /\
    mi_file_size r = match se_Statistics last with
                     | Some st => ss_SizeOnDisk st
                     | None => 0
                     end /\
    forall r', In r' (media_items db') -> mi_sonarr_id r' = Some (se_ID ser) -> r' = r.
Proof.
  intros Hwf Hin. simpl.
  destruct (sync_items_round_trip time_Parse Sonarr
              (stamped clock (map of_series series)) db (of_series ser) Hwf)
    as (r & last & Hr & Hk & Hlast & (Ht & Hp & Hs) & Huniq).
  { rewrite MediaSyncFacts.map_snd_stamped. apply in_map. exact Hin. }
  rewrite MediaSyncFacts.map_snd_stamped in Hlast.
  apply last_match_some_In in Hlast as [Hlin Hlid].
  apply in_map_iff in Hlin as (l0 & <- & Hl0).
  exists r, l0. repeat split; auto.
Qed.

Lemma SyncFromSonarr_round_trip_witness :
  let db' := snd (SyncFromSonarr parseRFC3339 (Some (Fetched Examples.series_list))
                    (fun n => 100 + Z.of_nat n) Examples.db_empty) in
  exists r last,
    In r (media_items db') /\
    mi_sonarr_id r = Some 7 /\
    In last Examples.series_list /\ se_ID last = 7 /\
    mi_title r = se_Title last /\
    mi_file_path r = se_Path last /\
    mi_file_size r = match se_Statistics last with
                     | Some st => ss_SizeOnDisk st
                     | None => 0
                     end /\
    forall r', In r' (media_items db') -> mi_sonarr_id r' = Some 7 -> r' = r.
Proof.
  apply (SyncFromSonarr_round_trip parseRFC3339 Examples.series_list
           (fun n => 100 + Z.of_nat n) Examples.db_empty Examples.undated_series).
  - repeat split; constructor.
  - simpl. auto.
Defined.

(** X16.  A series pass never deletes a row: every row that was there
    stays in its place with its id, type, external ids, linkage and dates
    (only title, path, size and [last_synced_at] may change), new rows are
    appended, and a row whose Sonarr id is not in the fetched list (a
    series removed from Sonarr, and every movie row) is left exactly as it
    was. *)
Theorem SyncFromSonarr_leaves_unlisted_rows
    (time_Parse : string -> option Timestamp) (series : list SonarrSeries)
    (clock : nat -> Z) (db : DB) :
  well_formed db ->
  let db' := snd (SyncFromSonarr time_Parse (Some (Fetched series)) clock db) in
  exists kept added,
    media_items db' = kept ++ added /\
    Forall2 (fun r r' =>
               same_frame r r' /\
               ((forall k, mi_sonarr_id r = Some k -> ~ In k (map se_ID series)) -> r' = r))
      (media_items db) kept.
Proof.
  intros Hwf. simpl.
  destruct (sync_items_unlisted time_Parse Sonarr
              (stamped clock (map of_series series)) db Hwf)
    as (kept & added & E & F).
  exists kept, added. split; [exact E|].
  eapply Forall2_impl; [|exact F]. cbv beta. intros r r' [Hframe H].
  split; [exact Hframe|]. intros Hun. apply H.
  rewrite MediaSyncFacts.map_snd_stamped, map_map. exact Hun.
Qed.

Lemma SyncFromSonarr_leaves_unlisted_rows_witness :
  let db' := snd (SyncFromSonarr parseRFC3339 (Some (Fetched Examples.series_refresh))
                    (fun n => 100 + Z.of_nat n) Examples.db_paths) in
  exists kept added,
    media_items db' = kept ++ added /\
    Forall2 (fun r r' =>
               same_frame r r' /\
               ((forall k, mi_sonarr_id r = Some k ->
                           ~ In k (map se_ID Examples.series_refresh)) -> r' = r))
      (media_items Examples.db_paths) kept.
Proof.
  apply (SyncFromSonarr_leaves_unlisted_rows parseRFC3339 Examples.series_refresh
           (fun n => 100 + Z.of_nat n) Examples.db_paths).
  repeat split; repeat constructor; simpl; intuition (discriminate || lia).
Defined.

(** The same pass, evaluated: the listed series (Sonarr id 21) is renamed
    in place, the series that Sonarr no longer lists (id 22) and the movie
    are what they were, and the new series gets the next id. *)
Example SyncFromSonarr_refresh_run :
  let db' := snd (SyncFromSonarr parseRFC3339 (Some (Fetched Examples.series_refresh))
                    (fun n => 100 + Z.of_nat n) Examples.db_paths) in
  map mi_id (media_items db') = [1; 2; 3; 4] /\
  map mi_title (media_items db') = ["Show (2024)"; "Show S01E01"; "X"; "Other"]%string /\
  nth_error (media_items db') 1 = nth_error (media_items Examples.db_paths) 1 /\
  nth_error (media_items db') 2 = nth_error (media_items Examples.db_paths) 2 /\
  nth_error (media_items db') 0 <> nth_error (media_items Examples.db_paths) 0.
Proof. cbv zeta. repeat split. discriminate. Qed.

(** X17.  Both manager syncs keep the constraints of [media_items]: the
    primary key stays unique and behind its sequence, and no two rows share
    a Sonarr id or a Radarr id. *)
Theorem manager_syncs_keep_constraints
    (time_Parse : string -> option Timestamp)
    (sonarr : option (fetched SonarrSeries)) (radarr : option (fetched RadarrMovie))
    (clock : nat -> Z) (db : DB) :
  well_formed db ->
  well_formed (snd (SyncFromSonarr time_Parse sonarr clock db)) /\
  well_formed (snd (SyncFromRadarr time_Parse radarr clock db)).
Proof.
  intros Hwf. split.
  - unfold SyncFromSonarr. destruct sonarr as [[series|e]|]; simpl; auto.
    apply MediaSyncFacts.sync_items_well_formed. exact Hwf.
  - unfold SyncFromRadarr. destruct radarr as [[movies|e]|]; simpl; auto.
    apply MediaSyncFacts.sync_items_well_formed. exact Hwf.
Qed.

Lemma manager_syncs_keep_constraints_witness :
  well_formed (snd (SyncFromSonarr parseRFC3339 (Some (Fetched Examples.series_list))
                      (fun n => 100 + Z.of_nat n) Examples.db_empty)) /\
  well_formed (snd (SyncFromRadarr parseRFC3339 None
                      (fun n => 100 + Z.of_nat n) Examples.db_empty)).
Proof.
  apply (manager_syncs_keep_constraints parseRFC3339 (Some (Fetched Examples.series_list))
           None (fun n => 100 + Z.of_nat n) Examples.db_empty).
  repeat split; constructor.
Defined.

End MediaSyncMore.

(* ------------------------------------------------------------------ *)
(** ** Properties of the request linkage and of the full pass *)

Module RequestSyncFacts.
Import Store MediaSync Deletion RequestSync.

Lemma same_but_linkage_refl (r : MediaRow) : same_but_linkage r r.
Proof. repeat split. Qed.

Lemma same_but_linkage_linked (now : Z) (req : OverseerrRequest) (r : MediaRow) :
  same_but_linkage r (linked now req r).
Proof. repeat split. Qed.

Lemma same_but_linkage_trans (a b c : MediaRow) :
  same_but_linkage a b -> same_but_linkage b c -> same_but_linkage a c.
Proof.
  unfold same_but_linkage. intros H1 H2.
  repeat match goal with H : _ /\ _ |- _ => destruct H end.
  repeat split; congruence.
Qed.

Lemma map_snd_stamped_requests (clock : nat -> Z) (requests : list OverseerrRequest) :
  map snd (stamped_requests clock requests) = requests.
Proof.
  unfold stamped_requests. apply MediaSyncFacts.map_snd_combine_same.
  rewrite length_map, length_seq. reflexivity.
Qed.

Lemma find_media_item_fits (db : DB) (req : OverseerrRequest) (id : Z) :
  find_media_item db req = Scanned id ->
  id = 0 \/
  exists r0, In r0 (media_items db) /\ mi_id r0 = id /\ request_fits req r0.
Proof.
  unfold find_media_item. cbv zeta.
  destruct (String.eqb (effective_type req) "movie" && (om_TMDBID (or_Media req) >? 0))
    eqn:Em.
  - apply andb_true_iff in Em as [Em _]. apply String.eqb_eq in Em.
    destruct (find _ _) as [r0|] eqn:Ef; simpl; [|discriminate].
    intros H. injection H as <-. apply find_some in Ef as [Hin Hf].
    apply andb_true_iff in Hf as [Hid Hty].
    right. exists r0. repeat split; auto. left. repeat split; auto.
    + apply String.eqb_eq. exact Hty.
    + unfold opt_eqb in Hid. destruct (mi_tmdb_id r0); [|discriminate].
      apply Z.eqb_eq in Hid. congruence.
  - destruct (String.eqb (effective_type req) "series") eqn:Es;
      [|intros H; injection H as <-; auto].
    apply String.eqb_eq in Es.
    destruct (om_TVDBID (or_Media req)) as [tvdb|] eqn:Et;
      [|intros H; injection H as <-; auto].
    destruct (tvdb >? 0); [|intros H; injection H as <-; auto].
    destruct (find _ _) as [r0|] eqn:Ef; simpl; [|discriminate].
    intros H. injection H as <-. apply find_some in Ef as [Hin Hf].
    apply andb_true_iff in Hf as [Hid Hty].
    right. exists r0. repeat split; auto. right. repeat split; auto.
    + apply String.eqb_eq. exact Hty.
    + unfold opt_eqb in Hid. destruct (mi_tvdb_id r0); [|discriminate].
      apply Z.eqb_eq in Hid. congruence.
    + congruence.
Qed.

Lemma Forall2_refl_on {A} (R : A -> A -> Prop) (l : list A) :
  (forall a, R a a) -> Forall2 R l l.
Proof. intros H. induction l; constructor; auto. Qed.

Lemma linked_soundly_refl users requests (r : MediaRow) :
  linked_soundly users requests r r.
Proof. split; [apply same_but_linkage_refl | left; split; reflexivity]. Qed.

(** One turn of the loop, row by row. *)
Lemma sync_request_sound (users : list Z) (db : DB) (tx : Z * OverseerrRequest) :
  keyed (media_items db) ->
  media_items_seq (sync_request users db tx) = media_items_seq db /\
  Forall2 (linked_soundly users [snd tx])
    (media_items db) (media_items (sync_request users db tx)).
Proof.
  intros [Hnd Hnz]. unfold sync_request.
  destruct (find_media_item db (snd tx)) as [|id] eqn:Ef.
  { split; [reflexivity|]. apply Forall2_refl_on. apply linked_soundly_refl. }
  unfold update_linkage.
  destruct (existsb (fun r => mi_id r =? id) (media_items db)
            && negb (existsb (Z.eqb (or_RequestedBy (snd tx))) users)) eqn:Eb.
  { split; [reflexivity|]. apply Forall2_refl_on. apply linked_soundly_refl. }
  split; [reflexivity|]. simpl.
  assert (forall r, In r (media_items db) ->
                    linked_soundly users [snd tx] r
                      (if mi_id r =? id then linked (fst tx) (snd tx) r else r)) as Hrow.
  { intros r Hin. destruct (mi_id r =? id) eqn:Eid; [|apply linked_soundly_refl].
    apply Z.eqb_eq in Eid. split; [apply same_but_linkage_linked|]. right.
    exists (snd tx). split; [left; reflexivity|]. split; [reflexivity|].
    split; [reflexivity|]. split.
    - assert (existsb (fun r => mi_id r =? id) (media_items db) = true) as Hex.
      { apply existsb_exists. exists r. split; [exact Hin | apply Z.eqb_eq; exact Eid]. }
      rewrite Hex in Eb. simpl in Eb. apply negb_false_iff in Eb.
      apply existsb_exists in Eb as (u & Hu & Heq). apply Z.eqb_eq in Heq. congruence.
    - destruct (find_media_item_fits db (snd tx) id Ef) as [Hz | (r0 & Hin0 & Hid0 & Hfit)].
      + exfalso. rewrite Forall_forall in Hnz. apply (Hnz r Hin). congruence.
      + assert (r = r0) as -> by (apply (MediaSyncFacts.ids_unique (media_items db));
                                  auto; congruence).
        exact Hfit. }
  clear Eb Ef. induction (media_items db) as [|r rows IH]; simpl; constructor.
  - apply Hrow. left; reflexivity.
  - apply IH.
    + inversion Hnd; assumption.
    + inversion Hnz; assumption.
    + intros r' Hr'. apply Hrow. right; exact Hr'.
Qed.

Lemma linked_soundly_step users (req : OverseerrRequest) (requests : list OverseerrRequest)
    (a b c : MediaRow) :
  linked_soundly users [req] a b -> linked_soundly users requests b c ->
  linked_soundly users (req :: requests) a c.
Proof.
  intros [F1 L1] [F2 L2]. split; [eapply same_but_linkage_trans; eauto|].
  destruct L2 as [[Hr Hu] | (q & Hq & Hr & Hu & Hloc & Hfit)].
  - destruct L1 as [[Hr1 Hu1] | (q & Hq & Hr1 & Hu1 & Hloc & Hfit)].
    + left. split; congruence.
    + destruct Hq as [Hq|[]]. subst q.
      right. exists req. repeat split; try congruence; auto. left; reflexivity.
  - right. exists q. repeat split; auto; [right; exact Hq|].
    destruct F1 as (_ & _ & Hty & Htm & Htv & _).
    unfold request_fits in *. rewrite <- Hty, <- Htm, <- Htv. exact Hfit.
Qed.

Lemma keyed_Forall2 users requests (rows rows' : list MediaRow) :
  keyed rows -> Forall2 (linked_soundly users requests) rows rows' -> keyed rows'.
Proof.
  intros [Hnd Hnz] F.
  assert (map mi_id rows' = map mi_id rows) as Hids.
  { induction F as [|r r' rows rows' [(Hid & _) _] F IH]; [reflexivity|].
    simpl. rewrite Hid. f_equal. apply IH.
    - inversion Hnd; assumption.
    - inversion Hnz; assumption. }
  split; [rewrite Hids; exact Hnd|].
  clear Hnd Hids. induction F as [|r r' rows rows' [(Hid & _) _] F IH]; constructor.
  - inversion Hnz; subst. congruence.
  - apply IH. inversion Hnz; assumption.
Qed.

Lemma sync_requests_sound (users : list Z) (items : list (Z * OverseerrRequest)) (db : DB) :
  keyed (media_items db) ->
  media_items_seq (fold_left (sync_request users) items db) = media_items_seq db /\
  Forall2 (linked_soundly users (map snd items))
    (media_items db) (media_items (fold_left (sync_request users) items db)).
Proof.
  revert db. induction items as [|tx items IH]; intros db Hk; simpl.
  - split; [reflexivity|]. apply Forall2_refl_on. apply linked_soundly_refl.
  - destruct (sync_request_sound users db tx Hk) as [Hs1 F1].
    destruct (IH (sync_request users db tx) (keyed_Forall2 _ _ _ _ Hk F1)) as [Hs2 F2].
    split; [congruence|].
    revert F1 F2. generalize (media_items (fold_left (sync_request users) items
                                             (sync_request users db tx))).
    generalize (media_items (sync_request users db tx)).
    generalize (media_items db). clear.
    intros a b c F1. revert c. induction F1 as [|x y a b Hxy F1 IH]; intros c F2.
    + inversion F2. constructor.
    + inversion F2 as [|? z ? c' Hyz F2']; subst.
      constructor; [eapply linked_soundly_step; eauto | apply IH; exact F2'].
Qed.

(** X18.  On a keyed table, [SyncOverseerrRequests] adds and removes no
    row and changes on a row at most [overseerr_request_id],
    [requested_by_user_id] and [last_synced_at]; a row whose linkage
    changed is linked to a request of the fetched list that is for this
    very media (same type, same TMDB or TVDB id) and whose requester is a
    local user. *)
Theorem SyncOverseerrRequests_links_soundly
    (overseerr : option (fetched OverseerrRequest)) (users : list Z)
    (clock : nat -> Z) (db : DB) :
  keyed (media_items db) ->
  let db' := snd (SyncOverseerrRequests overseerr users clock db) in
  media_items_seq db' = media_items_seq db /\
  Forall2 (linked_soundly users
             (match overseerr with Some (Fetched requests) => requests | _ => [] end))
    (media_items db) (media_items db').
Proof.
  intros Hk. cbv zeta. unfold SyncOverseerrRequests.
  destruct overseerr as [[requests|e]|]; simpl.
  - rewrite <- (map_snd_stamped_requests clock requests) at 2.
    apply sync_requests_sound. exact Hk.
  - split; [reflexivity|]. apply Forall2_refl_on. apply linked_soundly_refl.
  - split; [reflexivity|]. apply Forall2_refl_on. apply linked_soundly_refl.
Qed.

Lemma SyncOverseerrRequests_links_soundly_witness :
  let db' := snd (SyncOverseerrRequests (Some (Fetched [RequestExamples.req_alpha])) [1; 2]
                    (fun _ => 50) Examples.db_del) in
  media_items_seq db' = media_items_seq Examples.db_del /\
  Forall2 (linked_soundly [1; 2] [RequestExamples.req_alpha])
    (media_items Examples.db_del) (media_items db').
Proof.
  apply (SyncOverseerrRequests_links_soundly (Some (Fetched [RequestExamples.req_alpha]))
           [1; 2] (fun _ => 50) Examples.db_del).
  split.
  - simpl. repeat constructor; simpl; intuition discriminate.
  - repeat constructor; simpl; discriminate.
Defined.

(** The same pass, evaluated: the request for TMDB id 101 is linked to
    the movie with that id, and the other row keeps its empty linkage. *)
Example SyncOverseerrRequests_links_run :
  let db' := snd (SyncOverseerrRequests (Some (Fetched [RequestExamples.req_alpha])) [1; 2]
                    (fun _ => 50) Examples.db_del) in
  map mi_overseerr_request_id (media_items db') = [Some 32; None] /\
  map mi_requested_by_user_id (media_items db') = [Some 2; None] /\
  map mi_last_synced_at (media_items db') = [50; 5].
Proof. repeat split. Qed.

End RequestSyncFacts.

(* ------------------------------------------------------------------ *)
(** ** Requests of non-local users, and the order of [SyncAll] *)

Module SyncAllFacts.
Import Store MediaSync Deletion RequestSync.

(** The shape of one turn of the request loop. *)
Lemma sync_request_shape (users : list Z) (db : DB) (tx : Z * OverseerrRequest) :
  exists h,
    media_items (sync_request users db tx) = map h (media_items db) /\
    forall r, h r = r \/ h r = linked (fst tx) (snd tx) r.
Proof.
  unfold sync_request.
  destruct (find_media_item db (snd tx)) as [|id].
  { exists (fun r => r). split; [symmetry; apply map_id | auto]. }
  unfold update_linkage. destruct (_ && _).
  { exists (fun r => r). split; [symmetry; apply map_id | auto]. }
  eexists. split; [reflexivity|]. intros r. cbv beta. destruct (mi_id r =? id); auto.
Qed.

Lemma sync_request_non_local (users : list Z) (db : DB) (tx : Z * OverseerrRequest) :
  ~ In (or_RequestedBy (snd tx)) users ->
  media_items (sync_request users db tx) = media_items db.
Proof.
  intros Hn. unfold sync_request.
  destruct (find_media_item db (snd tx)) as [|id]; [reflexivity|].
  unfold update_linkage.
  assert (existsb (Z.eqb (or_RequestedBy (snd tx))) users = false) as ->.
  { apply not_true_is_false. intros H. apply existsb_exists in H as (u & Hu & He).
    apply Z.eqb_eq in He. subst u. contradiction. }
  simpl negb. rewrite andb_true_r.
  destruct (existsb (fun r => mi_id r =? id) (media_items db)) eqn:Ex; [reflexivity|].
  simpl. rewrite <- (map_id (media_items db)) at 2.
  apply map_ext_in. intros r Hin.
  destruct (mi_id r =? id) eqn:Eid; [|reflexivity].
  exfalso. assert (existsb (fun r => mi_id r =? id) (media_items db) = true)
    by (apply existsb_exists; eauto). congruence.
Qed.

(** X19.  [requested_by_user_id] references [users]: when no requester of
    the fetched requests is a local user id, the pass links nothing and
    [media_items] is left as it was, though the pass reports no error. *)
Theorem SyncOverseerrRequests_needs_local_users
    (requests : list OverseerrRequest) (users : list Z) (clock : nat -> Z) (db : DB) :
  (forall req, In req requests -> ~ In (or_RequestedBy req) users) ->
  let res := SyncOverseerrRequests (Some (Fetched requests)) users clock db in
  fst res = None /\ media_items (snd res) = media_items db.
Proof.
  intros Hnl. cbv zeta. simpl. split; [reflexivity|].
  assert (forall tx, In tx (stamped_requests clock requests) ->
                     ~ In (or_RequestedBy (snd tx)) users) as Hall.
  { intros [now req] Hin. apply Hnl. unfold stamped_requests in Hin.
    apply in_combine_r in Hin. exact Hin. }
  revert db Hall. generalize (stamped_requests clock requests).
  induction l as [|tx items IH]; intros db Hall; simpl; [reflexivity|].
  rewrite IH.
  - apply sync_request_non_local. apply Hall. left; reflexivity.
  - intros tx' Hin. apply Hall. right; exact Hin.
Qed.

Lemma SyncOverseerrRequests_needs_local_users_witness :
  let req := {| or_ID := 31; or_MediaID := 8; or_MediaType := "movie"; or_Status := 2;
                or_RequestedBy := 4;
                or_Media := {| om_ID := 8; om_TMDBID := 101; om_TVDBID := None;
                               om_Title := "Alpha"; om_MediaType := "movie" |} |} in
  let res := SyncOverseerrRequests (Some (Fetched [req])) [1; 2] (fun _ => 50)
               Examples.db_del in
  fst res = None /\ media_items (snd res) = media_items Examples.db_del.
Proof.
  cbv zeta.
  apply (SyncOverseerrRequests_needs_local_users _ [1; 2] (fun _ => 50) Examples.db_del).
  intros req [<-|[]]. simpl. intros [H|[H|[]]]; discriminate H.
Defined.

(** *** A movie synced and linked by the same [SyncAll] *)

Section SamePass.
Variable time_Parse : string -> option Timestamp.
Variables M T : Z.

Lemma movie_keyed_framed (rows : list MediaRow) (g : MediaRow -> MediaRow) :
  (forall r, mi_type (g r) = mi_type r /\ mi_tmdb_id (g r) = mi_tmdb_id r /\
             mi_radarr_id (g r) = mi_radarr_id r) ->
  movie_keyed M T rows -> movie_keyed M T (map g rows).
Proof.
  intros Hg Hk r Hin. apply in_map_iff in Hin as (r0 & <- & Hin0).
  destruct (Hg r0) as (Hty & Htm & Hra). unfold movie_of. rewrite Hty, Htm, Hra.
  apply (Hk r0 Hin0).
Qed.

Lemma same_frame_columns (r r' : MediaRow) :
  same_frame r r' ->
  mi_type r' = mi_type r /\ mi_tmdb_id r' = mi_tmdb_id r /\ mi_radarr_id r' = mi_radarr_id r.
Proof. intros (_ & Hty & Htm & _ & _ & Hra & _). auto. Qed.

(** A manager pass keeps [movie_keyed] when each record it may insert does. *)
Lemma sync_items_movie_keyed (m : Manager) (items : list (Z * Remote)) (db : DB) :
  (forall tx, In tx items ->
              m = Radarr -> (rm_ExternalID (snd tx) = T <-> rm_ID (snd tx) = M)) ->
  movie_keyed M T (media_items db) ->
  movie_keyed M T (media_items (sync_items time_Parse m items db)).
Proof.
  revert db. induction items as [|tx items IH]; intros db Hrec Hk; simpl; [exact Hk|].
  apply IH; [intros tx' Hin; apply Hrec; right; exact Hin|].
  destruct (MediaSyncFacts.sync_item_cases time_Parse m (fst tx) (snd tx) db)
    as [(_ & g & -> & Hg) | (_ & ->)].
  - apply movie_keyed_framed; [|exact Hk]. intros r. apply same_frame_columns, Hg.
  - intros r Hin. apply in_app_or in Hin as [Hin|[<-|[]]]; [apply Hk; exact Hin|].
    unfold movie_of. destruct m; simpl.
    + split; [intros [H _]; discriminate | discriminate].
    + specialize (Hrec tx (or_introl eq_refl) eq_refl). split.
      * intros [_ H]. injection H as H. f_equal. apply Hrec. exact H.
      * intros H. injection H as H. split; [reflexivity|]. f_equal. apply Hrec. exact H.
Qed.

Variable users : list Z.
Variable requests : list OverseerrRequest.

Lemma linked_columns (now : Z) (q : OverseerrRequest) (h : MediaRow -> MediaRow) :
  (forall r, h r = r \/ h r = linked now q r) ->
  forall r, mi_id (h r) = mi_id r /\ mi_type (h r) = mi_type r /\
            mi_tmdb_id (h r) = mi_tmdb_id r /\ mi_radarr_id (h r) = mi_radarr_id r.
Proof. intros Hh r. destruct (Hh r) as [-> | ->]; repeat split. Qed.

Lemma sync_request_ready (db : DB) (tx : Z * OverseerrRequest) :
  ready M T (media_items db) -> ready M T (media_items (sync_request users db tx)).
Proof.
  intros (Hnd & Hk & r & Hin & Hr).
  destruct (sync_request_shape users db tx) as (h & -> & Hh).
  pose proof (linked_columns _ _ h Hh) as Hc. split; [|split].
  - rewrite map_map. rewrite (map_ext _ mi_id); [exact Hnd|]. intros x. apply Hc.
  - apply movie_keyed_framed; [|exact Hk]. intros x. destruct (Hc x) as (_ & ? & ? & ?). auto.
  - exists (h r). split; [apply in_map; exact Hin|].
    destruct (Hc r) as (_ & _ & _ & ->). exact Hr.
Qed.

Lemma sync_request_keeps_link (db : DB) (tx : Z * OverseerrRequest) :
  In (snd tx) requests ->
  linked_to_one_of M requests (media_items db) ->
  linked_to_one_of M requests (media_items (sync_request users db tx)).
Proof.
  intros Hq (r & q & Hin & Hr & Hqin & Hid & Hu).
  destruct (sync_request_shape users db tx) as (h & -> & Hh).
  destruct (Hh r) as [E|E].
  - exists (h r), q. rewrite E. repeat split; auto. rewrite <- E. apply in_map; exact Hin.
  - exists (h r), (snd tx). split; [apply in_map; exact Hin|]. rewrite E.
    repeat split; auto.
Qed.

Lemma sync_request_links (db : DB) (tx : Z * OverseerrRequest) :
  ready M T (media_items db) ->
  In (snd tx) requests ->
  0 < T ->
  effective_type (snd tx) = "movie"%string ->
  om_TMDBID (or_Media (snd tx)) = T ->
  In (or_RequestedBy (snd tx)) users ->
  linked_to_one_of M requests (media_items (sync_request users db tx)).
Proof.
  intros (Hnd & Hk & r & Hin & Hr) Hq Hpos Hty Htm Hloc.
  assert (is_movie_of T r = true) as Hmr.
  { destruct (proj2 (Hk r Hin) Hr) as [Ht Hm]. unfold is_movie_of, opt_eqb.
    rewrite Ht, Hm, Z.eqb_refl. reflexivity. }
  unfold sync_request, find_media_item. cbv zeta. rewrite Hty, Htm.
  replace (T >? 0) with true by (symmetry; apply Z.gtb_lt; exact Hpos).
  simpl andb.
  destruct (find (is_movie_of T) (media_items db)) as [r0|] eqn:Ef.
  - apply find_some in Ef as [Hin0 Hm0]. simpl scan_id.
    assert (mi_radarr_id r0 = Some M) as Hr0.
    { apply (Hk r0 Hin0). unfold is_movie_of in Hm0.
      apply andb_true_iff in Hm0 as [Hid Htype]. split.
      - apply String.eqb_eq. exact Htype.
      - unfold opt_eqb in Hid. destruct (mi_tmdb_id r0); [|discriminate].
        apply Z.eqb_eq in Hid. congruence. }
    unfold update_linkage.
    assert (existsb (Z.eqb (or_RequestedBy (snd tx))) users = true) as ->.
    { apply existsb_exists. exists (or_RequestedBy (snd tx)).
      split; [exact Hloc | apply Z.eqb_refl]. }
    simpl negb. rewrite andb_false_r. simpl media_items.
    exists (linked (fst tx) (snd tx) r0), (snd tx). repeat split; auto.
    apply in_map_iff. exists r0. rewrite Z.eqb_refl. auto.
  - exfalso. pose proof (find_none _ _ Ef r Hin). congruence.
Qed.

Lemma sync_requests_link (items : list (Z * OverseerrRequest)) (db : DB) (req : OverseerrRequest) :
  ready M T (media_items db) ->
  (forall tx, In tx items -> In (snd tx) requests) ->
  In req (map snd items) ->
  0 < T ->
  effective_type req = "movie"%string ->
  om_TMDBID (or_Media req) = T ->
  In (or_RequestedBy req) users ->
  linked_to_one_of M requests (media_items (fold_left (sync_request users) items db)).
Proof.
  intros Hready Hall Hreq Hpos Hty Htm Hloc.
  revert db Hready Hall Hreq. induction items as [|tx items IH]; intros db Hready Hall Hreq;
    [contradiction|].
  simpl. destruct Hreq as [Hhere|Hlater].
  - assert (linked_to_one_of M requests (media_items (sync_request users db tx))) as Hl.
    { apply sync_request_links; auto.
      - apply Hall. left; reflexivity.
      - rewrite Hhere; exact Hty.
      - rewrite Hhere; exact Htm.
      - rewrite Hhere; exact Hloc. }
    clear IH Hready. revert Hl. generalize (sync_request users db tx).
    assert (forall tx', In tx' items -> In (snd tx') requests) as Hrest
      by (intros; apply Hall; right; assumption).
    clear Hall. induction items as [|tx' items IH]; intros d Hl; simpl; [exact Hl|].
    apply IH.
    + intros; apply Hrest; right; assumption.
    + apply sync_request_keeps_link; [apply Hrest; left; reflexivity | exact Hl].
  - apply IH.
    + apply sync_request_ready. exact Hready.
    + intros; apply Hall; right; assumption.
    + exact Hlater.
Qed.

End SamePass.

(** X20.  The order of [SyncAll] makes a request linkable in the same
    call: a movie that Radarr lists and the store does not know yet gets
    its row from the Radarr stage, and the request stage links that row to
    a request for its TMDB id, provided a local user made such a request. *)
Theorem SyncAll_links_new_movie
    (time_Parse : string -> option Timestamp) (a : Adapters) (users : list Z)
    (clock_sonarr clock_radarr clock_overseerr : nat -> Z) (db : DB)
    (movies : list RadarrMovie) (requests : list OverseerrRequest)
    (movie : RadarrMovie) (req : OverseerrRequest) :
  well_formed db ->
  ad_radarr a = Some (Fetched movies) ->
  ad_overseerr a = Some (Fetched requests) ->
  In movie movies ->
  0 < mo_TMDBID movie ->
  (forall m', In m' movies ->
              (mo_TMDBID m' = mo_TMDBID movie <-> mo_ID m' = mo_ID movie)) ->
  (forall r, In r (media_items db) ->
             ~ movie_of (mo_TMDBID movie) r /\ mi_radarr_id r <> Some (mo_ID movie)) ->
  In req requests ->
  effective_type req = "movie"%string ->
  om_TMDBID (or_Media req) = mo_TMDBID movie ->
  In (or_RequestedBy req) users ->
  let res := SyncAll time_Parse a users clock_sonarr clock_radarr clock_overseerr db in
  fst res = None /\
  linked_to_one_of (mo_ID movie) requests (media_items (snd res)).
Proof.
  intros Hwf Hrad Hover Hmovie Hpos Honly Hnew Hreq Hty Htm Hloc. cbv zeta.
  unfold SyncAll. rewrite Hrad, Hover. cbv zeta. split; [reflexivity|]. simpl snd.
  set (M := mo_ID movie). set (T := mo_TMDBID movie).
  (* the Sonarr stage *)
  set (db1 := match ad_sonarr a with
              | Some _ => snd (SyncFromSonarr time_Parse (ad_sonarr a) clock_sonarr db)
              | None => db
              end).
  assert (well_formed db1 /\ movie_keyed M T (media_items db1)) as [Hwf1 Hk1].
  { assert (movie_keyed M T (media_items db)) as Hk0.
    { intros r Hin. destruct (Hnew r Hin) as [H1 H2]. split; intros; contradiction. }
    unfold db1. destruct (ad_sonarr a) as [[series|e]|]; simpl; auto. split.
    - apply MediaSyncFacts.sync_items_well_formed. exact Hwf.
    - apply sync_items_movie_keyed; [discriminate | exact Hk0]. }
  (* the Radarr stage *)
  set (items := stamped clock_radarr (map of_movie movies)).
  assert (ready M T (media_items (sync_items time_Parse Radarr items db1))) as Hready.
  { pose proof (MediaSyncFacts.sync_items_well_formed time_Parse Radarr items db1 Hwf1)
      as (Hnd & _).
    split; [exact Hnd|]. split.
    - apply sync_items_movie_keyed; [|exact Hk1].
      intros [now x] Hin _. simpl.
      assert (In x (map of_movie movies)) as Hx.
      { unfold items, stamped in Hin. apply in_combine_r in Hin. exact Hin. }
      apply in_map_iff in Hx as (m' & <- & Hm'). simpl. apply Honly. exact Hm'.
    - assert (In (of_movie movie) (map snd items)) as Hin.
      { unfold items. rewrite MediaSyncFacts.map_snd_stamped. apply in_map. exact Hmovie. }
      pose proof (MediaSyncFacts.covered_after time_Parse Radarr items db1 _ Hin) as Hcov.
      apply MediaSyncFacts.existsb_has_key, MediaSyncFacts.keys_In in Hcov
        as (r & Hr & Hkey).
      exists r. split; [exact Hr | exact Hkey]. }
  (* the request stage *)
  apply (sync_requests_link M T users requests
           (stamped_requests clock_overseerr requests) _ req); auto.
  - intros [now q] Hin. unfold stamped_requests in Hin. apply in_combine_r in Hin. exact Hin.
  - rewrite RequestSyncFacts.map_snd_stamped_requests. exact Hreq.
Qed.

Lemma SyncAll_links_new_movie_witness :
  let res := SyncAll parseRFC3339 RequestExamples.adapters_film [1; 2]
               (fun _ => 10) (fun _ => 20) (fun _ => 30) Examples.db_empty in
  fst res = None /\
  linked_to_one_of 4 [RequestExamples.req_film] (media_items (snd res)).
Proof.
  cbv zeta.
  apply (SyncAll_links_new_movie parseRFC3339 RequestExamples.adapters_film [1; 2]
           (fun _ => 10) (fun _ => 20) (fun _ => 30) Examples.db_empty
           [RequestExamples.movie_film] [RequestExamples.req_film]
           RequestExamples.movie_film RequestExamples.req_film).
  - repeat split; constructor.
  - reflexivity.
  - reflexivity.
  - simpl. auto.
  - simpl. lia.
  - intros m' [<-|[]]. split; reflexivity.
  - intros r [].
  - simpl. auto.
  - reflexivity.
  - reflexivity.
  - simpl. auto.
Defined.

End SyncAllFacts.

(* ------------------------------------------------------------------ *)
(** ** Further properties of the deletion orchestrator *)

Module DeletionMore.
Import Store Deletion.

(** Deleting an id that has no row returns
    "media item not found: <id>" and writes nothing: no audit row, no
    change to any table. *)
Theorem DeleteMediaItem_missing_row (w : World) (db : DB) (mediaID userID : Z) :
  select_media_err (store w) = None ->
  media_by_id db mediaID = None ->
  DeleteMediaItem w db mediaID userID =
  (Some ("media item not found: " ++ Fmt.d mediaID)%string, db).
Proof.
  intros Hsel Hnone. unfold DeleteMediaItem. rewrite Hsel, Hnone. reflexivity.
Qed.

Lemma DeleteMediaItem_missing_row_witness :
  DeleteMediaItem Examples.world_fine Examples.db_del 42 9 =
  (Some "media item not found: 42"%string, Examples.db_del).
Proof.
  apply (DeleteMediaItem_missing_row Examples.world_fine Examples.db_del 42 9);
    reflexivity.
Defined.

Lemma torrents_of_deleted (db : DB) (mediaID other : Z) :
  torrents_of (delete_media db mediaID) other =
  if other =? mediaID then [] else torrents_of db other.
Proof.
  unfold torrents_of, delete_media. simpl.
  induction (torrents db) as [|t ts IH]; simpl.
  - destruct (other =? mediaID); reflexivity.
  - destruct (opt_eqb (tr_media_item_id t) mediaID) eqn:Em; simpl.
    + rewrite IH. destruct (other =? mediaID) eqn:Eo; [reflexivity|].
      assert (opt_eqb (tr_media_item_id t) other = false) as ->; [|reflexivity].
      unfold opt_eqb in *. destruct (tr_media_item_id t) as [x|]; [|reflexivity].
      apply Z.eqb_eq in Em. subst x. rewrite Z.eqb_sym. exact Eo.
    + destruct (opt_eqb (tr_media_item_id t) other) eqn:Et; rewrite IH.
      * destruct (other =? mediaID) eqn:Eo; [|reflexivity].
        apply Z.eqb_eq in Eo. subst other. congruence.
      * reflexivity.
Qed.

(** X21.  The deletion cascades locally whatever the torrent client
    answered (or when it is disabled): afterwards no row of [torrents]
    refers to the deleted item, and the torrent rows of every other item
    are what they were. *)
Theorem DeleteMediaItem_cascades
    (w : World) (db : DB) (mediaID userID : Z) (row : MediaRow) :
  media_by_id db mediaID = Some row ->
  store_ok w ->
  let db' := snd (DeleteMediaItem w db mediaID userID) in
  torrents_of db' mediaID = [] /\
  forall other, other <> mediaID -> torrents_of db' other = torrents_of db other.
Proof.
  intros Hrow Hok. cbv zeta.
  rewrite (DeletionFacts.DeleteMediaItem_outcome w db mediaID userID row Hrow Hok).
  cbn [snd]. split.
  - rewrite torrents_of_deleted, Z.eqb_refl. reflexivity.
  - intros other Hne. rewrite torrents_of_deleted.
    apply Z.eqb_neq in Hne. rewrite Hne. reflexivity.
Qed.

Lemma DeleteMediaItem_cascades_witness :
  let db' := snd (DeleteMediaItem Examples.world_downstream_fails Examples.db_del 1 9) in
  torrents_of db' 1 = [] /\
  forall other, other <> 1 -> torrents_of db' other = torrents_of Examples.db_del other.
Proof.
  apply (DeleteMediaItem_cascades Examples.world_downstream_fails Examples.db_del 1 9
           (Examples.movie 1 "Alpha" "/data/movies/Alpha")).
  - reflexivity.
  - repeat split.
Defined.

(** X22.  When the final [DELETE] fails, the call returns only that
    failure: the failures collected from the earlier steps are not in the
    returned error, and nothing of the attempt is recorded.  The store is
    left as it was: the item and its torrent rows stay, and [audit_logs]
    has no row for the attempt, the [INSERT] of step 6 having been
    rejected. *)
Theorem DeleteMediaItem_delete_failure
    (w : World) (db : DB) (mediaID userID : Z) (row : MediaRow) (e : error) :
  media_by_id db mediaID = Some row ->
  select_media_err (store w) = None ->
  delete_media_err (store w) = Some e ->
  DeleteMediaItem w db mediaID userID =
  (Some ("failed to delete from database: " ++ e)%string, db).
Proof.
  intros Hrow Hsel Hdel.
  unfold DeleteMediaItem. rewrite Hsel, Hrow, Hdel. cbv zeta.
  rewrite DeletionFacts.insert_audit_rejected. reflexivity.
Qed.

Lemma DeleteMediaItem_delete_failure_witness :
  failures Examples.world_delete_fails Examples.db_del 1
    (Examples.movie 1 "Alpha" "/data/movies/Alpha") <> [] /\
  DeleteMediaItem Examples.world_delete_fails Examples.db_del 1 9 =
  (Some "failed to delete from database: connection lost"%string, Examples.db_del).
Proof.
  split; [discriminate|].
  apply (DeleteMediaItem_delete_failure Examples.world_delete_fails Examples.db_del 1 9
           (Examples.movie 1 "Alpha" "/data/movies/Alpha") "connection lost"%string);
    reflexivity.
Defined.

(** X23.  A request found by [FindRequestByMediaID] is one of the listed
    requests, it carries the TMDB id (for a movie) or the TVDB id (for a
    series) that was asked for, and its own type is empty, the asked type,
    or "tv" for a series; for any other media type nothing is found. *)
Theorem FindRequestByMediaID_sound
    (c : OverseerrClient) (tmdbID tvdbID : option Z) (mediaType : string)
    (req : OverseerrRequest) :
  FindRequestByMediaID c tmdbID tvdbID mediaType = Found (Some req) ->
  (exists requests, GetRequests c = MediaSync.Fetched requests /\ In req requests) /\
  ((mediaType = "movie"%string /\ tmdbID = Some (om_TMDBID (or_Media req))) \/
   (mediaType = "series"%string /\ tvdbID = om_TVDBID (or_Media req) /\ tvdbID <> None)) /\
  (let ty := if String.eqb (or_MediaType req) "" then om_MediaType (or_Media req)
             else or_MediaType req in
   ty = ""%string \/ ty = mediaType \/ (mediaType = "series"%string /\ ty = "tv"%string)).
Proof.
  unfold FindRequestByMediaID.
  destruct (GetRequests c) as [requests|e]; [|discriminate].
  intros H. injection H as H. apply find_some in H as [Hin Hm].
  split; [eauto|].
  unfold request_matches in Hm. cbv zeta in Hm.
  apply andb_true_iff in Hm as [Hty Hid]. split.
  - apply orb_true_iff in Hid as [Hid|Hid]; apply andb_true_iff in Hid as [Ht Hx];
      apply String.eqb_eq in Ht.
    + left. split; [exact Ht|]. destruct tmdbID as [id|]; [|discriminate].
      apply Z.eqb_eq in Hx. congruence.
    + right. split; [exact Ht|].
      destruct tvdbID as [id|]; [|discriminate].
      destruct (om_TVDBID (or_Media req)) as [rid|]; [|discriminate].
      apply Z.eqb_eq in Hx. split; [congruence | discriminate].
  - cbv zeta.
    destruct (String.eqb (if String.eqb (or_MediaType req) ""
                          then om_MediaType (or_Media req) else or_MediaType req) "") eqn:E0.
    + left. apply String.eqb_eq. exact E0.
    + apply orb_true_iff in Hty as [Hty|Hty]; apply String.eqb_eq in Hty.
      * destruct (String.eqb mediaType "series") eqn:Es.
        -- right. right. split; [apply String.eqb_eq; exact Es | exact Hty].
        -- right. left. exact Hty.
      * right. left. exact Hty.
Qed.

Lemma FindRequestByMediaID_sound_witness :
  let req := {| or_ID := 31; or_MediaID := 8; or_MediaType := "tv"; or_Status := 2;
                or_RequestedBy := 4;
                or_Media := {| om_ID := 8; om_TMDBID := 0; om_TVDBID := Some 7007;
                               om_Title := "Undated"; om_MediaType := "tv" |} |} in
  (exists requests,
      GetRequests {| GetRequests := MediaSync.Fetched [req];
                     DeleteRequest := fun _ => None |} = MediaSync.Fetched requests /\
      In req requests).
Proof.
  cbv zeta.
  apply (FindRequestByMediaID_sound
           {| GetRequests :=
                MediaSync.Fetched
                  [ {| or_ID := 31; or_MediaID := 8; or_MediaType := "tv"; or_Status := 2;
                       or_RequestedBy := 4;
                       or_Media := {| om_ID := 8; om_TMDBID := 0; om_TVDBID := Some 7007;
                                      om_Title := "Undated"; om_MediaType := "tv" |} |} ];
              DeleteRequest := fun _ => None |}
           None (Some 7007) "series").
  reflexivity.
Defined.

End DeletionMore.

(* ------------------------------------------------------------------ *)
(** ** Properties of the bulk-delete handler *)

Module BulkDeleteFacts.
Import Store Deletion BulkDelete.

Lemma filter_absent (rows : list MediaRow) (id : Z) :
  find (fun r => mi_id r =? id) rows = None ->
  filter (fun r => negb (mi_id r =? id)) rows = rows.
Proof.
  induction rows as [|r rows IH]; simpl; [reflexivity|].
  destruct (mi_id r =? id); [discriminate|]. simpl. intros H. f_equal. apply IH. exact H.
Qed.

(** What one deletion leaves of [media_items], found or not. *)
Lemma DeleteMediaItem_media_items (w : World) (db : DB) (id userID : Z) :
  store_ok w ->
  media_items (snd (DeleteMediaItem w db id userID)) =
  filter (fun r => negb (mi_id r =? id)) (media_items db).
Proof.
  intros Hok. destruct (media_by_id db id) as [row|] eqn:Hrow.
  - rewrite (DeletionFacts.DeleteMediaItem_outcome w db id userID row Hrow Hok).
    reflexivity.
  - destruct Hok as (Hsel & _). unfold DeleteMediaItem. rewrite Hsel, Hrow.
    simpl. symmetry. apply filter_absent. exact Hrow.
Qed.

Lemma delete_loop (w : World) (userID : Z) (ids : list Z)
    (db : DB) (errors : list string) (n : Z) :
  store_ok w ->
  let '(db', errors', n') := fold_left (delete_one w userID) ids (db, errors, n) in
  media_items db' = filter (fun r => negb (listed ids r)) (media_items db) /\
  n' + Z.of_nat (List.length errors') =
  n + Z.of_nat (List.length errors) + Z.of_nat (List.length ids) /\
  n <= n'.
Proof.
  intros Hok. revert db errors n. induction ids as [|id ids IH]; intros db errors n.
  - simpl. repeat split; [|lia|lia].
    induction (media_items db) as [|r rows IHr]; simpl; [reflexivity | f_equal; exact IHr].
  - cbn [fold_left].
    remember (delete_one w userID (db, errors, n) id) as acc eqn:Hacc.
    unfold delete_one in Hacc.
    pose proof (DeleteMediaItem_media_items w db id userID Hok) as Hm.
    destruct (DeleteMediaItem w db id userID) as [[err|] db1]; simpl in Hm; subst acc.
    + specialize (IH db1 (errors ++ [("Media ID " ++ Fmt.d id ++ ": " ++ err)%string]) n).
      destruct (fold_left (delete_one w userID) ids _) as [[db' errors'] n'].
      destruct IH as (Hrows & Hcount & Hle). repeat split; [| |exact Hle].
      * rewrite Hrows, Hm. clear. induction (media_items db) as [|r rows IH]; [reflexivity|].
        unfold listed in *. simpl. rewrite (Z.eqb_sym (mi_id r) id).
        destruct (id =? mi_id r); simpl; [exact IH|].
        destruct (existsb (Z.eqb (mi_id r)) ids); simpl; [exact IH | f_equal; exact IH].
      * rewrite Hcount, length_app. simpl List.length. lia.
    + specialize (IH db1 errors (n + 1)).
      destruct (fold_left (delete_one w userID) ids _) as [[db' errors'] n'].
      destruct IH as (Hrows & Hcount & Hle). repeat split; [| |lia].
      * rewrite Hrows, Hm. clear. induction (media_items db) as [|r rows IH]; [reflexivity|].
        unfold listed in *. simpl. rewrite (Z.eqb_sym (mi_id r) id).
        destruct (id =? mi_id r); simpl; [exact IH|].
        destruct (existsb (Z.eqb (mi_id r)) ids); simpl; [exact IH | f_equal; exact IH].
      * rewrite Hcount. simpl List.length. lia.
Qed.

(** X24.  When the store executes the statements, the bulk handler leaves
    no row for any of the requested ids, also for those it reports as
    errors, and touches no other row of [media_items]; [deleted] plus the
    number of errors is [total], and [success] is true exactly when
    [deleted] equals [total]. *)
Theorem handleBulkDeleteMedia_accounts
    (w : World) (userID : Z) (ids : list Z) (db : DB) :
  store_ok w ->
  ids <> [] ->
  let res := handleBulkDeleteMedia w (Some userID) ids db in
  exists response,
    fst res = Json response /\
    media_items (snd res) = filter (fun r => negb (listed ids r)) (media_items db) /\
    br_total response = Z.of_nat (List.length ids) /\
    br_deleted response + Z.of_nat (List.length (br_errors response)) = br_total response /\
    (br_success response = true <-> br_deleted response = br_total response).
Proof.
  intros Hok Hne. cbv zeta. unfold handleBulkDeleteMedia.
  destruct ids as [|id ids]; [congruence|].
  pose proof (delete_loop w userID (id :: ids) db [] 0 Hok) as Hloop.
  destruct (fold_left (delete_one w userID) (id :: ids) (db, [], 0))
    as [[db1 errors] n].
  destruct Hloop as (Hrows & Hcount & Hle).
  eexists. split; [reflexivity|]. cbn [fst snd br_total br_deleted br_errors br_success].
  change (Z.pos (Pos.of_succ_nat (List.length ids)))
    with (Z.of_nat (List.length (id :: ids))).
  split; [exact Hrows|]. split; [reflexivity|].
  destruct errors as [|e errors]; cbn [List.length] in *.
  - split; [lia|]. split; [intros _; lia | reflexivity].
  - split; [lia|]. split; [discriminate|]. intros Hd. lia.
Qed.

Lemma handleBulkDeleteMedia_accounts_witness :
  let res := handleBulkDeleteMedia Examples.world_downstream_fails (Some 9) [1; 2; 1]
               Examples.db_del in
  exists response,
    fst res = Json response /\
    media_items (snd res) =
      filter (fun r => negb (listed [1; 2; 1] r)) (media_items Examples.db_del) /\
    br_total response = Z.of_nat (List.length [1; 2; 1]) /\
    br_deleted response + Z.of_nat (List.length (br_errors response)) = br_total response /\
    (br_success response = true <-> br_deleted response = br_total response).
Proof.
  apply (handleBulkDeleteMedia_accounts Examples.world_downstream_fails 9 [1; 2; 1]
           Examples.db_del).
  - repeat split.
  - discriminate.
Defined.

(** The same request, evaluated: items 1 and 2 are deleted with
    downstream failures, and the second 1 is no longer there. *)
Example handleBulkDeleteMedia_run :
  let res := handleBulkDeleteMedia Examples.world_downstream_fails (Some 9) [1; 2; 1]
               Examples.db_del in
  exists response,
    fst res = Json response /\
    br_deleted response = 0 /\
    media_items (snd res) = [] /\
    nth 2 (br_errors response) ""%string = "Media ID 1: media item not found: 1"%string.
Proof. cbv zeta. eexists. repeat split. Qed.

End BulkDeleteFacts.
